(** * Flat-DB sub-trie loader and plain-state writer: a shallow embedding

    The Go sources embedded here are [trie/flatdb_sub_trie_loader.go]
    (the loader: [Reset], [iteration], the walkers, the finalisers and
    [LoadSubTries]) and the plain-state writer ([WriteAccountStorage]).

    Conventions.
    - A byte is a [Z] in [0, 256); a [[]byte] is a [list Z]; a slice that may
      be [nil] (the keys and values handed out by a cursor) is an
      [option (list Z)], [None] standing for [nil].  A slice's capacity is
      taken to be its length, so slicing beyond the length panics.
    - Go's [int] and [uint64] are [Z]; where an operation can wrap the
      wrap-around is written out.
    - Code that can fail returns an [outcome]: a result, an [error] value,
      a run-time panic, or exhaustion of the fuel that bounds the loops. *)

From Stdlib Require Import ZArith List Bool Lia String.
From stdpp Require Import base option list gmap.
Import ListNotations.
Local Open Scope Z_scope.

(** ** Bytes *)

Abbreviation bytes := (list Z).

Definition HashLength : Z := 32.
Definition IncarnationLength : Z := 8.

(** [len(s)] for a slice that may be nil. *)
Definition sl (s : option bytes) : bytes := default [] s.
Definition len (s : bytes) : Z := Z.of_nat (length s).
Definition olen (s : option bytes) : Z := len (sl s).
Definition len' {A} (s : list A) : Z := Z.of_nat (length s).

(** [bytes.Compare]: lexicographic order, result in {-1, 0, 1}. *)
Fixpoint Compare (a b : bytes) : Z :=
  match a, b with
  | [], [] => 0
  | [], _ :: _ => -1
  | _ :: _, [] => 1
  | x :: a', y :: b' =>
      if x <? y then -1 else if y <? x then 1 else Compare a' b'
  end.

(** [bytes.HasPrefix(s, p)]. *)
Fixpoint HasPrefix (s p : bytes) : bool :=
  match p, s with
  | [], _ => true
  | _ :: _, [] => false
  | y :: p', x :: s' => (x =? y) && HasPrefix s' p'
  end.

(** [bytes.Equal]: a nil slice equals an empty one. *)
Definition Equal (a b : option bytes) : bool := bool_decide (sl a = sl b).

(** [copy(dst, src)]: overwrites the first [min(len dst, len src)] bytes. *)
Definition copyBytes (dst src : bytes) : bytes :=
  take (length dst) src ++ drop (length src) dst.

(** [binary.BigEndian.PutUint64] into a fresh 8-byte slice. *)
Definition be64 (x : Z) : bytes :=
  map (fun i => Z.land (Z.shiftr x (8 * i)) 255) [7; 6; 5; 4; 3; 2; 1; 0].

(** [binary.BigEndian.Uint64] of the first eight bytes (the caller checks
    the length: Go panics on a shorter slice). *)
Definition beUint64 (b : bytes) : Z :=
  fold_left (fun acc x => acc * 256 + x) (take 8 b) 0.

(** [^x] on a [uint64]. *)
Definition not64 (x : Z) : Z := 2 ^ 64 - 1 - (x mod 2 ^ 64).

(** ** Key encoding *)

(** [keyToNibbles(k, w)]: [w] is the content of the byte writer. *)
Fixpoint keyToNibbles (k w : bytes) : bytes :=
  match k with
  | [] => w
  | b :: k' => keyToNibbles k' (w ++ [b / 16; b mod 16])
  end.

(** The first loop of [keyToNibblesWithoutInc]: [for i, b := range k] with
    its [break] at [i == common.HashLength]. *)
Fixpoint keyToNibblesUntilHash (i : Z) (k w : bytes) : bytes :=
  match k with
  | [] => w
  | b :: k' =>
      if i =? HashLength then w
      else keyToNibblesUntilHash (i + 1) k' (w ++ [b / 16; b mod 16])
  end.

Definition keyToNibblesWithoutInc (k w : bytes) : bytes :=
  let w1 := keyToNibblesUntilHash 0 k w in
  if HashLength + IncarnationLength <? len k
  then keyToNibbles (drop (Z.to_nat (HashLength + IncarnationLength)) k) w1
  else w1.

(** Two nibbles per byte, high nibble first: the reading of the encoding
    that the claims are stated against. *)
Definition nibblesOf (k : bytes) : bytes :=
  flat_map (fun b => [b / 16; b mod 16]) k.

(** [nextSubtree] and [nextAccount] share one loop: increment a big-endian
    byte string from its last byte, turning 255 into 0 and carrying on.
    The flag is [false] on overflow (every byte was 255). *)
Fixpoint incrementBE (r : bytes) : bytes * bool :=
  match r with
  | [] => ([], false)
  | x :: r' =>
      let '(r'', ok) := incrementBE r' in
      if ok then (x :: r'', true)
      else if negb (x =? 255) then ((x + 1) :: r'', true)
      else (0 :: r'', false)
  end.

(** [nextSubtree(in)]: [[]byte++]; [(nil, false)] on overflow. *)
Definition nextSubtree (i : bytes) : option bytes * bool :=
  let '(r, ok) := incrementBE i in
  if ok then (Some r, true) else (None, false).

(** [nextAccount(in, out)]: returns the new content of [out] and the flag. *)
Definition nextAccount (i out : bytes) : bytes * bool :=
  incrementBE (copyBytes out i).

(** [keyIsBefore]: nil is the last key. *)
Definition keyIsBefore (k1 k2 : option bytes) : bool * option bytes :=
  match k1 with
  | None => (false, k2)
  | Some a =>
      match k2 with
      | None => (true, k1)
      | Some b => if Compare a b <=? 0 then (true, k1) else (false, k2)
      end
  end.

(** A byte. *)
Definition isByte (b : Z) : Prop := 0 <= b <= 255.

(** The order in which [keyIsBefore] ranks keys: nil is the last one. *)
Definition keyLe (k1 k2 : option bytes) : Prop :=
  match k1, k2 with
  | _, None => True
  | None, Some _ => False
  | Some a, Some b => Compare a b <= 0
  end.

(** ** Outcomes *)

(** Go's [error] values are kept as their messages. *)
Definition error : Type := string.

(** The outcome of running code on a state of type [S]: a result with the
    new state, an [error] returned with the state it left, a run-time
    panic, or the fuel of a loop running out. *)
Inductive outcome (S A : Type) : Type :=
| Done (a : A) (s : S)
| Failed (e : error) (s : S)
| Panicked
| OutOfFuel.
Arguments Done {S A} a s.
Arguments Failed {S A} e s.
Arguments Panicked {S A}.
Arguments OutOfFuel {S A}.

Definition M (S A : Type) : Type := S -> outcome S A.

Definition ret {S A} (a : A) : M S A := fun s => Done a s.
Definition bind {S A B} (m : M S A) (f : A -> M S B) : M S B :=
  fun s => match m s with
           | Done a s' => f a s'
           | Failed e s' => Failed e s'
           | Panicked => Panicked
           | OutOfFuel => OutOfFuel
           end.
Definition get {S} : M S S := fun s => Done s s.
Definition put {S} (s : S) : M S unit := fun _ => Done tt s.
Definition modify {S} (f : S -> S) : M S unit := fun s => Done tt (f s).
Definition fail {S A} (e : error) : M S A := fun s => Failed e s.
Definition panic {S A} : M S A := fun _ => Panicked.
Definition timeout {S A} : M S A := fun _ => OutOfFuel.

Declare Scope go_scope.
Delimit Scope go_scope with go.
Notation "'let!' x ':=' m 'in' f" := (bind m (fun x => f))
  (at level 10, x name, m at level 100, f at level 200) : go_scope.
Notation "'let!' ' p ':=' m 'in' f" := (bind m (fun x => let 'p := x in f))
  (at level 10, p pattern, m at level 100, f at level 200) : go_scope.
Notation "'do!' m 'in' f" := (bind m (fun _ => f))
  (at level 10, m at level 100, f at level 200) : go_scope.
Local Open Scope go_scope.

(** [s[i]] on a slice of any element type: out of range panics. *)
Definition index {S A} (l : list A) (i : nat) : M S A :=
  match l !! i with Some x => ret x | None => panic end.

(** [s[:n]]: panics when [n] is negative or beyond the length. *)
Definition sliceTo {S} (s : bytes) (n : Z) : M S bytes :=
  if (0 <=? n) && (n <=? len s) then ret (take (Z.to_nat n) s) else panic.

(** [s[i]] on bytes, with an [int] index. *)
Definition byteAt {S} (s : bytes) (i : Z) : M S Z :=
  if 0 <=? i then index s (Z.to_nat i) else panic.

(** ** The collaborators of the loader *)

(** [accounts.Account], as far as the loader reads it. *)
Record Account := mkAccount {
  Initialised : bool;
  Nonce : Z;
  Balance : Z;
  Root : bytes;
  CodeHash : bytes;
  Incarnation : Z
}.

(** The three kinds of [GenStructStepData]. *)
Inductive GenStructStepData :=
| GenStructStepLeafData (Value : bytes)
| GenStructStepAccountData (Balance Nonce Incarnation FieldSet : Z)
| GenStructStepHashData (Hash : bytes) (DataLen : Z).

(** What the loader uses and this file does not contain: the hash builder
    with [GenStructStep], the account codec, [ethdb.Bytesmask],
    [common.BytesToHash], the flag [debug.IsTrackWitnessSizeEnabled] and the
    account field bits.  They are
    parameters of the development; every theorem holds for each choice. *)
Class TrieBackend := {
  node : Type;
  HashBuilder : Type;
  NewHashBuilder : HashBuilder;
  hb_Reset : HashBuilder -> HashBuilder;
  hb_root : HashBuilder -> option node;
  hb_rootHash : HashBuilder -> bytes;
  hb_hash : HashBuilder -> bytes -> Z -> HashBuilder * option error;
  GenStructStep :
    (bytes -> bool) -> bytes -> bytes -> HashBuilder -> GenStructStepData ->
    list Z -> bool -> HashBuilder * list Z * option error;
  Account_Reset : Account -> Account;
  DecodeForStorage : Account -> option bytes -> Account * option error;
  IsEmptyCodeHash : Account -> bool;
  Bytesmask : Z -> Z * Z;
  BytesToHash : bytes -> bytes;
  IsTrackWitnessSizeEnabled : bool;
  AccountFieldNonceOnly : Z;
  AccountFieldBalanceOnly : Z;
  AccountFieldStorageOnly : Z;
  AccountFieldCodeOnly : Z
}.

(** ** Cursors *)

(** Modelled from the spec: [bolt.Cursor] is the [OrderedCursor] of the
    specification over a bucket, a list of key-value pairs in key order.
    [seek_to(key)] positions at the smallest key [>= key], [next()] advances
    by one, and both return [nil] at the end.  The field [ops] lists the
    calls made on the cursor, latest first: it is what statements about the
    cursor traffic are made on. *)
Inductive CursorOp := OpSeekTo (key : bytes) | OpNext.

Record Cursor := mkCursor {
  bucket : list (bytes * bytes);
  pos : nat;
  ops : list CursorOp
}.

Definition newCursor (b : list (bytes * bytes)) : Cursor := mkCursor b 0 [].

Definition cursorAt (cur : Cursor) : option bytes * option bytes :=
  match bucket cur !! pos cur with
  | Some (k, v) => (Some k, Some v)
  | None => (None, None)
  end.

Fixpoint seekIndex (key : bytes) (b : list (bytes * bytes)) : nat :=
  match b with
  | [] => 0%nat
  | (k, _) :: b' => if Compare key k <=? 0 then 0%nat else S (seekIndex key b')
  end.

Definition SeekTo (key : bytes) (cur : Cursor) : (option bytes * option bytes) * Cursor :=
  let cur' := mkCursor (bucket cur) (seekIndex key (bucket cur)) (OpSeekTo key :: ops cur) in
  (cursorAt cur', cur').

Definition Next (cur : Cursor) : (option bytes * option bytes) * Cursor :=
  let cur' := mkCursor (bucket cur) (S (pos cur)) (OpNext :: ops cur) in
  (cursorAt cur', cur').

(** How many times a cursor was advanced ([SeekTo] or [Next]) between two
    of its states. *)
Definition advances (before after : Cursor) : nat :=
  length (ops after) - length (ops before).

(** Every key of the bucket sorts before [p]: a [SeekTo p] finds nothing. *)
Definition allBefore (p : bytes) (b : list (bytes * bytes)) : Prop :=
  Forall (fun kv => Compare p (fst kv) = 1) b.

(** The buckets of the store that the loader reads. *)
Record BoltDB := mkBoltDB {
  CurrentStateBucket : list (bytes * bytes);
  IntermediateTrieHashBucket : list (bytes * bytes);
  IntermediateTrieWitnessLenBucket : list (bytes * bytes)
}.

(** [ethdb.Database]: a database that implements [ethdb.HasKV] (its [KV()]
    may still be nil) or one that does not. *)
Inductive Database :=
| DatabaseHasKV (kv : option BoltDB)
| DatabaseOther.

(** ** The loader *)

Inductive StreamItem :=
| NoItem
| StorageStreamItem
| SHashStreamItem
| AccountStreamItem
| AHashStreamItem
| CutoffStreamItem.

Record HashData_t := mkHashData { hd_Hash : bytes; hd_DataLen : Z }.
Record AccData_t := mkAccData {
  ad_Balance : Z; ad_Nonce : Z; ad_Incarnation : Z; ad_FieldSet : Z
}.

Record SubTries (node : Type) := mkSubTries {
  roots : list (option node);
  Hashes : list bytes
}.
Arguments mkSubTries {node} roots Hashes.
Arguments roots {node} s.
Arguments Hashes {node} s.

(** A setter for one field of a record: [eta] is the record rebuilt from
    its projections, in which the projection [proj] is replaced. *)
Ltac setter eta proj :=
  let upd :=
    match eval pattern proj in eta with
    | ?f proj => constr:(fun x => f (fun _ => x))
    end in
  let upd := eval cbv beta in upd in
  exact upd.

Section Loader.
Context `{TB : TrieBackend}.

Record FlatDbSubTrieLoader := mkLoader {
  rl : option (bytes -> bool);
  curr : bytes;
  succ : bytes;
  value : bytes;
  groups : list Z;
  hb : HashBuilder;
  rangeIdx : nat;
  a : Account;
  leafData : bytes;
  accData : AccData_t;
  subTries : SubTries node;
  wasIH : bool;
  wasIHStorage : bool;
  hashData : HashData_t;
  currStorage : bytes;
  succStorage : bytes;
  valueStorage : bytes;
  witnessLenAccount : Z;
  witnessLenStorage : Z;
  accAddrHashWithInc : bytes;
  dbPrefixes : list bytes;
  fixedbytes : list Z;
  masks : list Z;
  cutoffs : list Z;
  boltDB : option BoltDB;
  nextAccountKey : bytes;
  k : option bytes;
  v : option bytes;
  ihK : option bytes;
  ihV : option bytes;
  minKeyAsNibbles : bytes;
  itemPresent : bool;
  itemType : StreamItem;
  storageKeyPart1 : option bytes;
  storageKeyPart2 : option bytes;
  storageHash : option bytes;
  storageValue : option bytes;
  storageWitnessLen : Z;
  accountKey : option bytes;
  accountHash : option bytes;
  accountValue : Account;
  streamCutoff : Z;
  accountWitnessLen : Z
}.

Definition etaLoader (s : FlatDbSubTrieLoader) : FlatDbSubTrieLoader :=
  mkLoader (rl s) (curr s) (succ s) (value s) (groups s) (hb s) (rangeIdx s)
    (a s) (leafData s) (accData s) (subTries s) (wasIH s) (wasIHStorage s)
    (hashData s) (currStorage s) (succStorage s) (valueStorage s)
    (witnessLenAccount s) (witnessLenStorage s) (accAddrHashWithInc s)
    (dbPrefixes s) (fixedbytes s) (masks s) (cutoffs s) (boltDB s)
    (nextAccountKey s) (k s) (v s) (ihK s) (ihV s) (minKeyAsNibbles s)
    (itemPresent s) (itemType s) (storageKeyPart1 s) (storageKeyPart2 s)
    (storageHash s) (storageValue s) (storageWitnessLen s) (accountKey s)
    (accountHash s) (accountValue s) (streamCutoff s) (accountWitnessLen s).

Ltac loader_setter proj :=
  let e := eval cbv delta [etaLoader] in etaLoader in setter e proj.

Definition set_rl := ltac:(loader_setter rl).
Definition set_curr := ltac:(loader_setter curr).
Definition set_succ := ltac:(loader_setter succ).
Definition set_value := ltac:(loader_setter value).
Definition set_groups := ltac:(loader_setter groups).
Definition set_hb := ltac:(loader_setter hb).
Definition set_rangeIdx := ltac:(loader_setter rangeIdx).
Definition set_a := ltac:(loader_setter a).
Definition set_leafData := ltac:(loader_setter leafData).
Definition set_accData := ltac:(loader_setter accData).
Definition set_subTries := ltac:(loader_setter subTries).
Definition set_wasIH := ltac:(loader_setter wasIH).
Definition set_wasIHStorage := ltac:(loader_setter wasIHStorage).
Definition set_hashData := ltac:(loader_setter hashData).
Definition set_currStorage := ltac:(loader_setter currStorage).
Definition set_succStorage := ltac:(loader_setter succStorage).
Definition set_valueStorage := ltac:(loader_setter valueStorage).
Definition set_witnessLenAccount := ltac:(loader_setter witnessLenAccount).
Definition set_witnessLenStorage := ltac:(loader_setter witnessLenStorage).
Definition set_accAddrHashWithInc := ltac:(loader_setter accAddrHashWithInc).
Definition set_dbPrefixes := ltac:(loader_setter dbPrefixes).
Definition set_fixedbytes := ltac:(loader_setter fixedbytes).
Definition set_masks := ltac:(loader_setter masks).
Definition set_cutoffs := ltac:(loader_setter cutoffs).
Definition set_boltDB := ltac:(loader_setter boltDB).
Definition set_nextAccountKey := ltac:(loader_setter nextAccountKey).
Definition set_k := ltac:(loader_setter k).
Definition set_v := ltac:(loader_setter v).
Definition set_ihK := ltac:(loader_setter ihK).
Definition set_ihV := ltac:(loader_setter ihV).
Definition set_minKeyAsNibbles := ltac:(loader_setter minKeyAsNibbles).
Definition set_itemPresent := ltac:(loader_setter itemPresent).
Definition set_itemType := ltac:(loader_setter itemType).
Definition set_storageKeyPart1 := ltac:(loader_setter storageKeyPart1).
Definition set_storageKeyPart2 := ltac:(loader_setter storageKeyPart2).
Definition set_storageHash := ltac:(loader_setter storageHash).
Definition set_storageValue := ltac:(loader_setter storageValue).
Definition set_storageWitnessLen := ltac:(loader_setter storageWitnessLen).
Definition set_accountKey := ltac:(loader_setter accountKey).
Definition set_accountHash := ltac:(loader_setter accountHash).
Definition set_accountValue := ltac:(loader_setter accountValue).
Definition set_streamCutoff := ltac:(loader_setter streamCutoff).
Definition set_accountWitnessLen := ltac:(loader_setter accountWitnessLen).

(** [NewFlatDbSubTrieLoader]: every field has Go's zero value but [hb]. *)
Definition zeroAccount : Account :=
  mkAccount false 0 0 (replicate 32 0) (replicate 32 0) 0.

Definition NewFlatDbSubTrieLoader : FlatDbSubTrieLoader :=
  mkLoader None [] [] [] [] NewHashBuilder 0%nat zeroAccount [] (mkAccData 0 0 0 0)
    (mkSubTries [] []) false false (mkHashData (replicate 32 0) 0) [] [] [] 0 0
    (replicate 40 0) [] [] [] [] None (replicate 32 0) None None None None []
    false NoItem None None None None 0 None None zeroAccount 0 0.

(** [Reset]: prepares the loader for reuse.  The result is the new loader
    and the [error] returned. *)
Definition Reset (db : Database) (rl' : option (bytes -> bool))
    (dbPrefixes' : list bytes) (fixedbits : list Z)
    (s : FlatDbSubTrieLoader) : FlatDbSubTrieLoader * option error :=
  let s := set_rangeIdx 0%nat s in
  let s := set_curr [] s in
  let s := set_succ [] s in
  let s := set_value [] s in
  let s := set_groups [] s in
  let s := set_a (Account_Reset (a s)) s in
  let s := set_hb (hb_Reset (hb s)) s in
  let s := set_wasIH false s in
  let s := set_currStorage [] s in
  let s := set_succStorage [] s in
  let s := set_valueStorage [] s in
  let s := set_minKeyAsNibbles [] s in
  let s := set_wasIHStorage false s in
  let s := set_subTries (mkSubTries [] []) s in
  let s := set_rl rl' s in
  let s := set_dbPrefixes dbPrefixes' s in
  let s := set_itemPresent false s in
  if len' dbPrefixes' =? 0 then (s, None)
  else
    let s := match db with
             | DatabaseHasKV kv => set_boltDB kv s
             | DatabaseOther => s
             end in
    match boltDB s with
    | None => (s, Some "only Bolt supported yet"%string)
    | Some _ =>
        let cutoffs' :=
          map (fun bits => if 256 + 64 <=? bits then bits ÷ 4 - 16 else bits ÷ 4)
              fixedbits in
        let fixedbytes' := map (fun bits => fst (Bytesmask bits)) fixedbits in
        let masks' := map (fun bits => snd (Bytesmask bits)) fixedbits in
        let s := set_fixedbytes fixedbytes' s in
        let s := set_masks masks' s in
        let s := set_cutoffs cutoffs' s in
        (s, None)
    end.

(** ** The state of a load *)

(** A call of [GenStructStep], with the function that made it. *)
Inductive CallSite :=
| InWalkerStorage
| InFinaliseStorageRoot
| InWalkerAccount
| InFinaliseRoot.

Record GenCall := mkGenCall {
  gc_site : CallSite;
  gc_curr : bytes;
  gc_succ : bytes;
  gc_data : GenStructStepData
}.

(** What a load works on: the loader, the cursors [c], [ih] and [iwl] that
    [LoadSubTries] opens, and the calls of [GenStructStep] made so far
    (latest first), kept to state what the hash builder was given. *)
Record World := mkWorld {
  w_fstl : FlatDbSubTrieLoader;
  w_c : Cursor;
  w_ih : Cursor;
  w_iwl : Cursor;
  w_gen : list GenCall
}.

Definition set_w_fstl (x : FlatDbSubTrieLoader) (w : World) : World :=
  mkWorld x (w_c w) (w_ih w) (w_iwl w) (w_gen w).
Definition set_w_c (x : Cursor) (w : World) : World :=
  mkWorld (w_fstl w) x (w_ih w) (w_iwl w) (w_gen w).
Definition set_w_ih (x : Cursor) (w : World) : World :=
  mkWorld (w_fstl w) (w_c w) x (w_iwl w) (w_gen w).
Definition set_w_iwl (x : Cursor) (w : World) : World :=
  mkWorld (w_fstl w) (w_c w) (w_ih w) x (w_gen w).
Definition set_w_gen (x : list GenCall) (w : World) : World :=
  mkWorld (w_fstl w) (w_c w) (w_ih w) (w_iwl w) x.

Definition getL : M World FlatDbSubTrieLoader := fun w => Done (w_fstl w) w.
Definition updL (f : FlatDbSubTrieLoader -> FlatDbSubTrieLoader) : M World unit :=
  fun w => Done tt (set_w_fstl (f (w_fstl w)) w).

(** [fstl.k, fstl.v = c.SeekTo(key)] and [fstl.k, fstl.v = c.Next()]. *)
Definition seekC (key : bytes) : M World unit :=
  fun w =>
    let '((k', v'), c') := SeekTo key (w_c w) in
    Done tt (set_w_c c' (set_w_fstl (set_v v' (set_k k' (w_fstl w))) w)).
Definition nextC : M World unit :=
  fun w =>
    let '((k', v'), c') := Next (w_c w) in
    Done tt (set_w_c c' (set_w_fstl (set_v v' (set_k k' (w_fstl w))) w)).

(** [fstl.ihK, fstl.ihV = ih.SeekTo(key)] and [fstl.ihK, fstl.ihV = ih.Next()]. *)
Definition seekIH (key : bytes) : M World unit :=
  fun w =>
    let '((k', v'), ih') := SeekTo key (w_ih w) in
    Done tt (set_w_ih ih' (set_w_fstl (set_ihV v' (set_ihK k' (w_fstl w))) w)).
Definition nextIH : M World unit :=
  fun w =>
    let '((k', v'), ih') := Next (w_ih w) in
    Done tt (set_w_ih ih' (set_w_fstl (set_ihV v' (set_ihK k' (w_fstl w))) w)).

(** The block
    [if nextAccount(fstl.k, fstl.nextAccountKey[:]) {
       fstl.k, fstl.v = c.SeekTo(fstl.nextAccountKey[:]) } else { fstl.k = nil }]
    and its twin on [ih]. *)
Definition toNextAccountC : M World unit :=
  let! s := getL in
  let '(out, ok) := nextAccount (sl (k s)) (nextAccountKey s) in
  do! updL (set_nextAccountKey out) in
  if ok then seekC out else updL (set_k None).

Definition toNextAccountIH : M World unit :=
  let! s := getL in
  let '(out, ok) := nextAccount (sl (ihK s)) (nextAccountKey s) in
  do! updL (set_nextAccountKey out) in
  if ok then seekIH out else updL (set_ihK None).

(** [copy(fstl.accAddrHashWithInc[:], dbPrefix[:common.HashLength+common.IncarnationLength])] *)
Definition copyPrefixToAcc (dbPrefix : bytes) : M World unit :=
  let! p := sliceTo dbPrefix (HashLength + IncarnationLength) in
  updL (fun s => set_accAddrHashWithInc (copyBytes (accAddrHashWithInc s) p) s).

(** The closure [fstl.getWitnessLen] that [LoadSubTries] installs. *)
Definition getWitnessLen (prefix : option bytes) : M World Z :=
  if negb IsTrackWitnessSizeEnabled then ret 0
  else
    fun w =>
      let '((k', v'), iwl') := SeekTo (sl prefix) (w_iwl w) in
      let w' := set_w_iwl iwl' w in
      if negb (Equal k' prefix) then Panicked
      else if len (sl v') <? 8 then Panicked
      else Done (beUint64 (sl v')) w'.

(** The witness-length lookup of a prefix succeeds: the flag is off, or
    [SeekTo] on the [iwl] cursor lands on the prefix and on a value of at
    least eight bytes. *)
Definition witnessLenFound (prefix : option bytes) (iwl : Cursor) : Prop :=
  IsTrackWitnessSizeEnabled = false \/
  (Equal (fst (fst (SeekTo (sl prefix) iwl))) prefix = true /\
   8 <= len (sl (snd (fst (SeekTo (sl prefix) iwl))))).

(** ** [iteration] *)

(** The local variables of [iteration]. *)
Record Locals := mkLocals {
  l_isIH : bool;
  l_minKey : option bytes;
  l_fixedbytes : Z;
  l_cutoff : Z;
  l_dbPrefix : bytes;
  l_mask : Z;
  l_cmp : Z
}.

(** The first statement of the loop [for cmp != 0]: the new value of [cmp]. *)
Definition rangeCmp (first : bool) (l : Locals) : M World Z :=
  match l_minKey l with
  | None => ret (if negb first then 1 else l_cmp l)
  | Some minKey =>
      if 0 <? l_fixedbytes l then
        if len minKey <? l_fixedbytes l then
          let! p := sliceTo (l_dbPrefix l) (len minKey) in
          let cmp := Compare minKey p in
          ret (if cmp =? 0 then -1 else cmp)
        else
          let! m := sliceTo minKey (l_fixedbytes l - 1) in
          let! p := sliceTo (l_dbPrefix l) (l_fixedbytes l - 1) in
          let cmp := Compare m p in
          if cmp =? 0 then
            let! b1 := byteAt minKey (l_fixedbytes l - 1) in
            let! b2 := byteAt (l_dbPrefix l) (l_fixedbytes l - 1) in
            let k1 := Z.land b1 (l_mask l) in
            let k2 := Z.land b2 (l_mask l) in
            ret (if k1 <? k2 then -1 else if k2 <? k1 then 1 else cmp)
          else ret cmp
      else ret 0
  end.

Inductive LoopResult :=
| LoopReturn
| LoopNext (l : Locals).

(** One pass through the body of [for cmp != 0]. *)
Definition rangeLoopBody (first : bool) (l : Locals) : M World LoopResult :=
  let! cmp := rangeCmp first l in
  let! s := getL in
  if (cmp =? 0) && itemPresent s then ret LoopReturn
  else if cmp <? 0 then
    do! (if first && (HashLength <? len (l_dbPrefix l))
         then copyPrefixToAcc (l_dbPrefix l) else ret tt) in
    do! seekC (l_dbPrefix l) in
    let! s := getL in
    do! (if (len (l_dbPrefix l) <=? HashLength) && (HashLength <? olen (k s))
         then toNextAccountC else ret tt) in
    do! seekIH (l_dbPrefix l) in
    let! s := getL in
    do! (if (len (l_dbPrefix l) <=? HashLength) && (HashLength <? olen (ihK s))
         then toNextAccountIH else ret tt) in
    let! s := getL in
    let '(isIH, minKey) := keyIsBefore (ihK s) (k s) in
    ret (LoopNext (mkLocals isIH minKey (l_fixedbytes l) (l_cutoff l) (l_dbPrefix l)
                     (l_mask l) (if l_fixedbytes l =? 0 then 0 else cmp)))
  else if 0 <? cmp then
    do! (if negb first then updL (fun s => set_rangeIdx (S (rangeIdx s)) s) else ret tt) in
    do! (if negb first
         then updL (fun s => set_streamCutoff (l_cutoff l)
                              (set_itemType CutoffStreamItem (set_itemPresent true s)))
         else ret tt) in
    let! s := getL in
    if (rangeIdx s =? length (dbPrefixes s))%nat then ret LoopReturn
    else
      let! fixedbytes' := index (fixedbytes s) (rangeIdx s) in
      let! mask' := index (masks s) (rangeIdx s) in
      let! dbPrefix' := index (dbPrefixes s) (rangeIdx s) in
      do! (if HashLength <? len dbPrefix' then copyPrefixToAcc dbPrefix' else ret tt) in
      let! cutoff' := index (cutoffs s) (rangeIdx s) in
      ret (LoopNext (mkLocals (l_isIH l) (l_minKey l) fixedbytes' cutoff' dbPrefix'
                       mask' cmp))
  else
    ret (LoopNext (mkLocals (l_isIH l) (l_minKey l) (l_fixedbytes l) (l_cutoff l)
                     (l_dbPrefix l) (l_mask l) cmp)).

(** [for cmp != 0 { ... }]: [None] when the body returned from [iteration],
    the locals at the exit of the loop otherwise. *)
Fixpoint rangeLoop (fuel : nat) (first : bool) (l : Locals) : M World (option Locals) :=
  if l_cmp l =? 0 then ret (Some l)
  else
    match fuel with
    | O => timeout
    | S fuel' =>
        let! r := rangeLoopBody first l in
        match r with
        | LoopReturn => ret None
        | LoopNext l' => rangeLoop fuel' first l'
        end
    end.

(** The assignments that fill the storage item buffer from a key:
    [storageKeyPart1] and [storageKeyPart2] (the incarnation is left out). *)
Definition setStorageKeyParts (key : option bytes) : M World unit :=
  if HashLength <=? olen key then
    let! p1 := sliceTo (sl key) HashLength in
    do! updL (set_storageKeyPart1 (Some p1)) in
    if HashLength + IncarnationLength <=? olen key
    then updL (set_storageKeyPart2
                 (Some (drop (Z.to_nat (HashLength + IncarnationLength)) (sl key))))
    else updL (set_storageKeyPart2 None)
  else
    do! updL (set_storageKeyPart1 key) in
    updL (set_storageKeyPart2 None).

(** [if !isIH { ... return nil }]: the item comes from the state bucket. *)
Definition leafPart : M World unit :=
  let! s := getL in
  if (HashLength <? olen (k s)) && negb (HasPrefix (sl (k s)) (accAddrHashWithInc s)) then
    if Compare (sl (k s)) (accAddrHashWithInc s) <? 0
    then seekC (accAddrHashWithInc s)
    else toNextAccountC
  else
    do! updL (set_itemPresent true) in
    if HashLength <? olen (k s) then
      do! updL (set_itemType StorageStreamItem) in
      do! setStorageKeyParts (k s) in
      do! updL (set_storageHash None) in
      do! updL (set_storageValue (v s)) in
      nextC
    else
      do! updL (set_itemType AccountStreamItem) in
      do! updL (set_accountKey (k s)) in
      do! updL (set_accountHash None) in
      let '(acc, err) := DecodeForStorage (accountValue s) (v s) in
      do! updL (set_accountValue acc) in
      match err with
      | Some e => fail ("fail DecodeForStorage: " ++ e)%string
      | None =>
          do! updL (fun s => set_accAddrHashWithInc
                               (copyBytes (accAddrHashWithInc s) (sl (k s))) s) in
          do! updL (fun s => set_accAddrHashWithInc
                               (take 32 (accAddrHashWithInc s) ++
                                copyBytes (drop 32 (accAddrHashWithInc s))
                                  (be64 (not64 (Incarnation acc)))) s) in
          let! s := getL in
          do! seekC (accAddrHashWithInc s) in
          let! s := getL in
          if negb (HasPrefix (sl (ihK s)) (accAddrHashWithInc s))
          then seekIH (accAddrHashWithInc s)
          else ret tt
      end.

(** The rest of [iteration]: the item comes from the intermediate hashes. *)
Definition ihPart (l : Locals) : M World unit :=
  do! updL (set_minKeyAsNibbles []) in
  do! updL (fun s => set_minKeyAsNibbles
                       (keyToNibblesWithoutInc (sl (l_minKey l)) (minKeyAsNibbles s)) s) in
  let! s := getL in
  if len (minKeyAsNibbles s) <? l_cutoff l then nextIH
  else
    let! Retain := (match rl s with Some r => ret r | None => panic end) in
    let retain := Retain (minKeyAsNibbles s) in
    if retain then nextIH
    else if (HashLength <? olen (ihK s))
            && negb (HasPrefix (sl (ihK s)) (accAddrHashWithInc s)) then
      if Compare (sl (ihK s)) (accAddrHashWithInc s) <? 0
      then seekIH (accAddrHashWithInc s)
      else toNextAccountIH
    else
      do! updL (set_itemPresent true) in
      do! (if HashLength <? olen (ihK s) then
             do! updL (set_itemType SHashStreamItem) in
             do! setStorageKeyParts (ihK s) in
             do! updL (set_storageHash (ihV s)) in
             do! updL (set_storageValue None) in
             let! n := getWitnessLen (ihK s) in
             updL (set_storageWitnessLen n)
           else
             do! updL (set_itemType AHashStreamItem) in
             do! updL (set_accountKey (ihK s)) in
             do! updL (set_accountHash (ihV s)) in
             let! n := getWitnessLen (ihK s) in
             updL (set_accountWitnessLen n)) in
      let '(next, ok) := nextSubtree (sl (ihK s)) in
      if negb ok then
        if negb retain then
          do! updL (set_k None) in
          updL (set_ihK None)
        else
          do! updL (set_ihK None) in
          updL (set_ihV None)
      else
        let! s := getL in
        do! (if negb (HasPrefix (sl (k s)) (sl next)) then seekC (sl next) else ret tt) in
        let! s := getL in
        do! (if (olen next <=? HashLength) && (HashLength <? olen (k s))
             then toNextAccountC else ret tt) in
        let! s := getL in
        do! (if negb (HasPrefix (sl (ihK s)) (sl next)) then seekIH (sl next) else ret tt) in
        let! s := getL in
        if (olen next <=? HashLength) && (HashLength <? olen (ihK s))
        then toNextAccountIH else ret tt.

(** The locals of [iteration] before the loop [for cmp != 0]. *)
Definition initLocals (first : bool) : M World Locals :=
  let! s := getL in
  let '(isIH, minKey) :=
    if negb first then keyIsBefore (ihK s) (k s) else (false, None) in
  let! fixedbytes' := index (fixedbytes s) (rangeIdx s) in
  let! cutoff' := index (cutoffs s) (rangeIdx s) in
  let! dbPrefix' := index (dbPrefixes s) (rangeIdx s) in
  let! mask' := index (masks s) (rangeIdx s) in
  ret (mkLocals isIH minKey fixedbytes' cutoff' dbPrefix' mask' (-1)).

(** [iteration] up to the end of the loop that adjusts [rangeIdx]. *)
Definition reconcile (fuel : nat) (first : bool) : M World (option Locals) :=
  let! l := initLocals first in
  rangeLoop fuel first l.

(** [iteration(c, ih, first)]: moves through the buckets and creates at
    most one stream item, flagged by [itemPresent]. *)
Definition iteration (fuel : nat) (first : bool) : M World unit :=
  let! r := reconcile fuel first in
  match r with
  | None => ret tt
  | Some l => if negb (l_isIH l) then leafPart else ihPart l
  end.

(** ** The walkers and the finalisers *)

(** [fstl.groups, err = GenStructStep(fstl.rl.Retain, curr, succ, fstl.hb,
    data, fstl.groups, false)], followed by [if err != nil { return err }]. *)
Definition callGenStructStep (site : CallSite) (curr' succ' : bytes)
    (data : GenStructStepData) : M World unit :=
  let! s := getL in
  let! Retain := (match rl s with Some r => ret r | None => panic end) in
  let '(hb', groups', err) :=
    GenStructStep Retain curr' succ' (hb s) data (groups s) false in
  do! updL (set_hb hb') in
  do! updL (set_groups groups') in
  do! modify (fun w => set_w_gen (mkGenCall site curr' succ' data :: w_gen w) w) in
  match err with
  | Some e => fail e
  | None => ret tt
  end.

(** [for len(g) > 0 && g[len(g)-1] == 0 { g = g[:len(g)-1] }] *)
Fixpoint trimZeros (g : list Z) : list Z :=
  match g with
  | [] => []
  | x :: g' =>
      match trimZeros g' with
      | [] => if x =? 0 then [] else [x]
      | t => x :: t
      end
  end.

(** The data handed over for the storage item kept in [valueStorage]; the
    witness length is read from the field named by the caller. *)
Definition storageData (dataLen : FlatDbSubTrieLoader -> Z) : M World GenStructStepData :=
  let! s := getL in
  if wasIHStorage s then
    do! updL (fun s => set_hashData
                (mkHashData (BytesToHash (valueStorage s)) (hd_DataLen (hashData s))) s) in
    do! updL (fun s => set_hashData
                (mkHashData (hd_Hash (hashData s)) (dataLen s)) s) in
    let! s := getL in
    ret (GenStructStepHashData (hd_Hash (hashData s)) (hd_DataLen (hashData s)))
  else
    do! updL (fun s => set_leafData (valueStorage s) s) in
    let! s := getL in
    ret (GenStructStepLeafData (leafData s)).

Definition finaliseStorageRoot (cutoff : Z) : M World bool :=
  do! updL (set_currStorage []) in
  do! updL (fun s => set_currStorage (currStorage s ++ succStorage s) s) in
  do! updL (set_succStorage []) in
  let! s := getL in
  if 0 <? len (currStorage s) then
    let! p := sliceTo (currStorage s) (cutoff - 1) in
    do! updL (fun s => set_succStorage (succStorage s ++ p) s) in
    let! b := byteAt (currStorage s) (cutoff - 1) in
    do! updL (fun s => set_succStorage (succStorage s ++ [(b + 1) mod 256]) s) in
    let! data := storageData storageWitnessLen in
    let! s := getL in
    do! callGenStructStep InFinaliseStorageRoot (currStorage s) (succStorage s) data in
    let! s := getL in
    do! (if cutoff <=? len (groups s)
         then let! g := (if 0 <=? cutoff - 1 then ret (take (Z.to_nat (cutoff - 1)) (groups s))
                         else panic) in
              updL (set_groups g)
         else ret tt) in
    do! updL (fun s => set_groups (trimZeros (groups s)) s) in
    do! updL (set_currStorage []) in
    do! updL (set_succStorage []) in
    do! updL (set_wasIHStorage false) in
    ret true
  else ret false.

(** The account fields copied into [accData] before an account is handed
    over, in [WalkerAccount] and in [finaliseRoot]. *)
Definition fillAccData : M World unit :=
  do! updL (fun s => set_accData
              (mkAccData (Balance (a s)) (ad_Nonce (accData s))
                 (ad_Incarnation (accData s)) (ad_FieldSet (accData s))) s) in
  do! updL (fun s =>
        if negb (Balance (a s) =? 0)
        then set_accData
               (mkAccData (ad_Balance (accData s)) (ad_Nonce (accData s))
                  (ad_Incarnation (accData s))
                  (Z.lor (ad_FieldSet (accData s)) AccountFieldBalanceOnly)) s
        else s) in
  do! updL (fun s => set_accData
              (mkAccData (ad_Balance (accData s)) (Nonce (a s))
                 (ad_Incarnation (accData s)) (ad_FieldSet (accData s))) s) in
  do! updL (fun s =>
        if negb (Nonce (a s) =? 0)
        then set_accData
               (mkAccData (ad_Balance (accData s)) (ad_Nonce (accData s))
                  (ad_Incarnation (accData s))
                  (Z.lor (ad_FieldSet (accData s)) AccountFieldNonceOnly)) s
        else s) in
  updL (fun s => set_accData
          (mkAccData (ad_Balance (accData s)) (ad_Nonce (accData s))
             (Incarnation (a s)) (ad_FieldSet (accData s))) s).

Definition orFieldSet (bit : Z) : M World unit :=
  updL (fun s => set_accData
          (mkAccData (ad_Balance (accData s)) (ad_Nonce (accData s))
             (ad_Incarnation (accData s)) (Z.lor (ad_FieldSet (accData s)) bit)) s).

Definition clearFieldSet : M World unit :=
  updL (fun s => set_accData
          (mkAccData (ad_Balance (accData s)) (ad_Nonce (accData s))
             (ad_Incarnation (accData s)) 0) s).

Definition accDataOf (s : FlatDbSubTrieLoader) : GenStructStepData :=
  GenStructStepAccountData (ad_Balance (accData s)) (ad_Nonce (accData s))
    (ad_Incarnation (accData s)) (ad_FieldSet (accData s)).

Definition appendSubTrie (r : option node) (h : bytes) : M World unit :=
  updL (fun s => set_subTries
          (mkSubTries (roots (subTries s) ++ [r]) (Hashes (subTries s) ++ [h])) s).

Definition finaliseRoot (cutoff : Z) : M World unit :=
  if 2 * HashLength <=? cutoff then
    let! ok := finaliseStorageRoot cutoff in
    let! s := getL in
    if ok then appendSubTrie (hb_root (hb s)) (hb_rootHash (hb s))
    else appendSubTrie None (replicate 32 0)
  else
    do! updL (set_curr []) in
    do! updL (fun s => set_curr (curr s ++ succ s) s) in
    do! updL (set_succ []) in
    let! s := getL in
    do! (if 0 <? len (curr s) then
           do! (if 0 <? cutoff then
                  let! p := sliceTo (curr s) (cutoff - 1) in
                  do! updL (fun s => set_succ (succ s ++ p) s) in
                  let! b := byteAt (curr s) (cutoff - 1) in
                  updL (fun s => set_succ (succ s ++ [(b + 1) mod 256]) s)
                else ret tt) in
           let! data :=
             (if wasIH s then
                do! updL (fun s => set_hashData
                            (mkHashData (BytesToHash (value s)) (hd_DataLen (hashData s))) s) in
                do! updL (fun s => set_hashData
                            (mkHashData (hd_Hash (hashData s)) (accountWitnessLen s)) s) in
                let! s := getL in
                ret (GenStructStepHashData (hd_Hash (hashData s)) (hd_DataLen (hashData s)))
              else
                let! ok := finaliseStorageRoot (2 * HashLength) in
                do! (if ok then orFieldSet AccountFieldStorageOnly else ret tt) in
                do! updL (set_wasIHStorage false) in
                do! fillAccData in
                let! s := getL in
                ret (accDataOf s)) in
           let! s := getL in
           do! callGenStructStep InFinaliseRoot (curr s) (succ s) data in
           let! s := getL in
           do! (if cutoff <? len (groups s)
                then let! g := (if 0 <=? cutoff then ret (take (Z.to_nat cutoff) (groups s))
                                else panic) in
                     updL (set_groups g)
                else ret tt) in
           do! updL (fun s => set_groups (trimZeros (groups s)) s) in
           clearFieldSet
         else ret tt) in
    let! s := getL in
    do! appendSubTrie (hb_root (hb s)) (hb_rootHash (hb s)) in
    do! updL (set_groups []) in
    do! updL (fun s => set_hb (hb_Reset (hb s)) s) in
    do! updL (set_wasIH false) in
    do! updL (set_wasIHStorage false) in
    do! updL (set_curr []) in
    do! updL (set_succ []) in
    do! updL (set_currStorage []) in
    updL (set_succStorage []).

Definition WalkerStorage (isIH : bool) (rangeIdx' : nat)
    (kPart1 kPart2 v' h : option bytes) (witnessLen : Z) : M World unit :=
  do! updL (set_currStorage []) in
  do! updL (fun s => set_currStorage (currStorage s ++ succStorage s) s) in
  do! updL (set_succStorage []) in
  do! updL (fun s => set_succStorage (keyToNibbles (sl kPart1) (succStorage s)) s) in
  do! updL (fun s => set_succStorage (keyToNibbles (sl kPart2) (succStorage s)) s) in
  do! (if negb isIH
       then updL (fun s => set_succStorage (succStorage s ++ [16]) s)
       else ret tt) in
  let! s := getL in
  do! (if 0 <? len (currStorage s) then
         let! data := storageData witnessLenStorage in
         let! s := getL in
         callGenStructStep InWalkerStorage (currStorage s) (succStorage s) data
       else ret tt) in
  do! updL (set_wasIHStorage isIH) in
  do! updL (set_valueStorage []) in
  if isIH then
    do! updL (fun s => set_valueStorage (valueStorage s ++ sl h) s) in
    updL (set_witnessLenStorage witnessLen)
  else
    updL (fun s => set_valueStorage (valueStorage s ++ sl v') s).

Definition WalkerAccount (isIH : bool) (rangeIdx' : nat) (k' : option bytes)
    (v' : Account) (h : option bytes) (witnessLen : Z) : M World unit :=
  do! updL (set_curr []) in
  do! updL (fun s => set_curr (curr s ++ succ s) s) in
  do! updL (set_succ []) in
  do! updL (fun s => set_succ (keyToNibbles (sl k') (succ s)) s) in
  do! (if negb isIH then updL (fun s => set_succ (succ s ++ [16]) s) else ret tt) in
  let! s := getL in
  do! (if 0 <? len (curr s) then
         let! data :=
           (if wasIH s then
              do! updL (fun s => set_hashData
                          (mkHashData (copyBytes (hd_Hash (hashData s)) (value s))
                             (hd_DataLen (hashData s))) s) in
              do! updL (fun s => set_hashData
                          (mkHashData (hd_Hash (hashData s)) (witnessLenAccount s)) s) in
              let! s := getL in
              ret (GenStructStepHashData (hd_Hash (hashData s)) (hd_DataLen (hashData s)))
            else
              let! ok := finaliseStorageRoot (2 * HashLength) in
              do! (if ok then orFieldSet AccountFieldStorageOnly else ret tt) in
              do! fillAccData in
              let! s := getL in
              ret (accDataOf s)) in
         do! updL (set_wasIHStorage false) in
         do! updL (set_currStorage []) in
         do! updL (set_succStorage []) in
         let! s := getL in
         do! callGenStructStep InWalkerAccount (curr s) (succ s) data in
         clearFieldSet
       else ret tt) in
  do! updL (set_wasIH isIH) in
  if isIH then
    do! updL (set_value []) in
    do! updL (fun s => set_value (value s ++ sl h) s) in
    updL (set_witnessLenAccount witnessLen)
  else
    do! updL (set_a v') in
    let! s := getL in
    if negb (IsEmptyCodeHash (a s)) then
      do! orFieldSet AccountFieldCodeOnly in
      let! s := getL in
      let '(hb', err) := hb_hash (hb s) (CodeHash (a s)) 0 in
      do! updL (set_hb hb') in
      match err with
      | Some e => fail e
      | None => ret tt
      end
    else ret tt.

(** ** Stream items *)

(** A stream item with what [iteration] stores of it in the loader. *)
Inductive Item :=
| StorageItem (keyPart1 keyPart2 value' : option bytes)
| SHashItem (keyPart1 keyPart2 hash : option bytes) (witnessLen : Z)
| AccountItem (key : option bytes) (value' : Account)
| AHashItem (key hash : option bytes) (witnessLen : Z)
| CutoffItem (cutoff : Z).

(** The assignments by which [iteration] hands an item over: the flag, the
    type and the fields of the item buffer that the type uses. *)
Definition fillItem (it : Item) (s : FlatDbSubTrieLoader) : FlatDbSubTrieLoader :=
  let s := set_itemPresent true s in
  match it with
  | StorageItem p1 p2 v' =>
      set_storageValue v' (set_storageHash None
        (set_storageKeyPart2 p2 (set_storageKeyPart1 p1
          (set_itemType StorageStreamItem s))))
  | SHashItem p1 p2 h n =>
      set_storageWitnessLen n (set_storageValue None (set_storageHash h
        (set_storageKeyPart2 p2 (set_storageKeyPart1 p1
          (set_itemType SHashStreamItem s)))))
  | AccountItem key acc =>
      set_accountValue acc (set_accountHash None
        (set_accountKey key (set_itemType AccountStreamItem s)))
  | AHashItem key h n =>
      set_accountWitnessLen n (set_accountHash h
        (set_accountKey key (set_itemType AHashStreamItem s)))
  | CutoffItem cutoff =>
      set_streamCutoff cutoff (set_itemType CutoffStreamItem s)
  end.

(** ** [LoadSubTries] *)

(** [for !fstl.itemPresent { iteration(c, ih, false) }] *)
Fixpoint untilItemPresent (fuel n : nat) : M World unit :=
  let! s := getL in
  if negb (itemPresent s) then
    match n with
    | O => timeout
    | S n' =>
        do! iteration fuel false in
        untilItemPresent fuel n'
    end
  else ret tt.

(** [switch fstl.itemType { ... }] *)
Definition dispatch : M World unit :=
  let! s := getL in
  match itemType s with
  | StorageStreamItem =>
      WalkerStorage false (rangeIdx s) (storageKeyPart1 s) (storageKeyPart2 s)
        (storageValue s) (storageHash s) (storageWitnessLen s)
  | SHashStreamItem =>
      WalkerStorage true (rangeIdx s) (storageKeyPart1 s) (storageKeyPart2 s)
        (storageValue s) (storageHash s) (storageWitnessLen s)
  | AccountStreamItem =>
      WalkerAccount false (rangeIdx s) (accountKey s) (accountValue s)
        (accountHash s) (accountWitnessLen s)
  | AHashStreamItem =>
      WalkerAccount true (rangeIdx s) (accountKey s) (accountValue s)
        (accountHash s) (accountWitnessLen s)
  | CutoffStreamItem => finaliseRoot (streamCutoff s)
  | NoItem => ret tt
  end.

(** One item through the driver: the item is handed over, dispatched by
    its type, and the flag is cleared. *)
Definition deliver (it : Item) : M World unit :=
  do! updL (fillItem it) in
  do! dispatch in
  updL (set_itemPresent false).

Fixpoint deliverAll (items : list Item) : M World unit :=
  match items with
  | [] => ret tt
  | it :: items' =>
      do! deliver it in
      deliverAll items'
  end.

(** The witness length of the latest cached storage hash, and of the
    latest cached account hash, among the items. *)
Definition lastSHashWitnessLen (items : list Item) : option Z :=
  last (omap (fun it => match it with
                        | SHashItem _ _ _ n => Some n
                        | _ => None
                        end) items).
Definition lastAHashWitnessLen (items : list Item) : option Z :=
  last (omap (fun it => match it with
                        | AHashItem _ _ n => Some n
                        | _ => None
                        end) items).

(** A call of [GenStructStep] agrees with the witness lengths [ls] (storage
    level) and [la] (account level): if it hands over [HashData], its
    [DataLen] is [ls] when made by [WalkerStorage] or
    [finaliseStorageRoot], and [la] when made by [WalkerAccount] or
    [finaliseRoot]. *)
Definition dataLenAgrees (ls la : option Z) (c : GenCall) : Prop :=
  match gc_data c with
  | GenStructStepHashData _ dataLen =>
      match gc_site c with
      | InWalkerStorage | InFinaliseStorageRoot => ls = Some dataLen
      | InWalkerAccount | InFinaliseRoot => la = Some dataLen
      end
  | _ => True
  end.

(** [for fstl.rangeIdx < len(fstl.dbPrefixes) { ... }] *)
Fixpoint rangesLoop (fuel n : nat) : M World unit :=
  let! s := getL in
  if (rangeIdx s <? length (dbPrefixes s))%nat then
    match n with
    | O => timeout
    | S n' =>
        do! untilItemPresent fuel fuel in
        let! s := getL in
        do! (if itemPresent s then
               do! dispatch in
               updL (set_itemPresent false)
             else ret tt) in
        rangesLoop fuel n'
    end
  else ret tt.

(** The function passed to [fstl.boltDB.View]. *)
Definition loadInTx (fuel : nat) : M World unit :=
  do! iteration fuel true in
  rangesLoop fuel fuel.

(** [LoadSubTries]: the result is the [SubTries] returned; an [error] comes
    with the loader whose [subTries] is returned beside it. *)
Definition LoadSubTries (fuel : nat) : M FlatDbSubTrieLoader (SubTries node) :=
  fun s =>
    if len' (dbPrefixes s) =? 0 then Done (mkSubTries [] []) s
    else
      match boltDB s with
      | None => Panicked
      | Some db =>
          let w := mkWorld s (newCursor (CurrentStateBucket db))
                     (newCursor (IntermediateTrieHashBucket db))
                     (newCursor (IntermediateTrieWitnessLenBucket db)) [] in
          match loadInTx fuel w with
          | Done _ w' => Done (subTries (w_fstl w')) (w_fstl w')
          | Failed e w' => Failed e (w_fstl w')
          | Panicked => Panicked
          | OutOfFuel => OutOfFuel
          end
      end.

(** ** The two halves of the loader's state *)

(** The part of the world that [iteration] works on: the cursors, the keys
    and values read from them, the range tables and the index into them,
    the retention predicate, the key buffers of [iteration] and the item
    it hands over. *)
Record IterationState := mkIterationState {
  is_c : Cursor;
  is_ih : Cursor;
  is_iwl : Cursor;
  is_keys : option bytes * option bytes * option bytes * option bytes;
  is_ranges : list bytes * list Z * list Z * list Z * nat;
  is_rl : option (bytes -> bool);
  is_buffers : bytes * bytes * bytes;
  is_item : bool * StreamItem * Z;
  is_storageItem : option bytes * option bytes * option bytes * option bytes * Z;
  is_accountItem : option bytes * option bytes * Account * Z
}.

Definition iterationState (w : World) : IterationState :=
  let s := w_fstl w in
  mkIterationState (w_c w) (w_ih w) (w_iwl w)
    (k s, v s, ihK s, ihV s)
    (dbPrefixes s, fixedbytes s, masks s, cutoffs s, rangeIdx s)
    (rl s)
    (accAddrHashWithInc s, nextAccountKey s, minKeyAsNibbles s)
    (itemPresent s, itemType s, streamCutoff s)
    (storageKeyPart1 s, storageKeyPart2 s, storageHash s, storageValue s,
     storageWitnessLen s)
    (accountKey s, accountHash s, accountValue s, accountWitnessLen s).

(** The part of the world that the walkers and the finalisers work on: the
    nibble buffers, the values kept for the pending items, the hash
    builder with its groups, the data handed to [GenStructStep], the calls
    of [GenStructStep] made, and the result list. *)
Record WalkerState := mkWalkerState {
  ws_account : bytes * bytes * bytes * bool * Z;
  ws_storage : bytes * bytes * bytes * bool * Z;
  ws_builder : HashBuilder * list Z;
  ws_data : Account * bytes * AccData_t * HashData_t;
  ws_calls : list GenCall;
  ws_result : SubTries node
}.

Definition walkerState (w : World) : WalkerState :=
  let s := w_fstl w in
  mkWalkerState
    (curr s, succ s, value s, wasIH s, witnessLenAccount s)
    (currStorage s, succStorage s, valueStorage s, wasIHStorage s, witnessLenStorage s)
    (hb s, groups s)
    (a s, leafData s, accData s, hashData s)
    (w_gen w)
    (subTries s).

(** The account level of the walkers' state, which [finaliseStorageRoot]
    leaves alone. *)
Definition accountLevel (w : World)
    : bytes * bytes * bytes * Account * bool * Z * AccData_t :=
  let s := w_fstl w in
  (curr s, succ s, value s, a s, wasIH s, witnessLenAccount s, accData s).

(** The result list. *)
Definition subTriesOf (w : World) : SubTries node := subTries (w_fstl w).

(** The number of pending cutoff items: 1 when the item handed over is a
    [CutoffStreamItem], 0 otherwise. *)
Definition pendingCutoff (s : FlatDbSubTrieLoader) : nat :=
  if itemPresent s then
    match itemType s with CutoffStreamItem => 1%nat | _ => 0%nat end
  else 0%nat.

End Loader.

(** ** A backend to run the loader on concrete stores *)

(** The transcript hash builder: its state is the list of the calls it has
    received since the last [Reset] (latest first), and its root and root
    hash are that transcript.  What any hash builder returns is a function
    of this transcript. *)
Inductive HBEvent :=
| EvGenStructStep (curr succ : bytes) (data : GenStructStepData)
| EvHash (h : bytes) (depth : Z).

Definition dataBytes (d : GenStructStepData) : bytes :=
  match d with
  | GenStructStepLeafData v => 0 :: v
  | GenStructStepAccountData b n i f => [1; b; n; i; f]
  | GenStructStepHashData h l => 2 :: l :: h
  end.

Definition eventBytes (e : HBEvent) : bytes :=
  match e with
  | EvGenStructStep c s d => (0 :: c) ++ (0 :: s) ++ dataBytes d
  | EvHash h d => 1 :: d :: h
  end.

(** Modelled from the spec: [ethdb.Bytesmask] is not among the sources; the
    first [fixedbytes - 1] bytes must match exactly and the next byte under
    the mask, a left-aligned bit mask for [fixedbits mod 8]. *)
Definition refBytesmask (fixedbits : Z) : Z * Z :=
  let fixedbytes := (fixedbits + 7) ÷ 8 in
  let shiftbits := Z.land fixedbits 7 in
  (fixedbytes,
   if shiftbits =? 0 then 255 else Z.land (Z.shiftl 255 (8 - shiftbits)) 255).

(** [common.BytesToHash]: the last 32 bytes, left-padded with zeros. *)
Definition refBytesToHash (b : bytes) : bytes :=
  let b' := drop (length b - 32) b in
  replicate (32 - length b') 0 ++ b'.

(** A toy account codec for the examples: the value [[nonce; balance;
    incarnation; code]] decodes to an account whose code hash is 32 bytes
    [code]; the code hash of all zeros is the empty one. *)
Definition toyDecodeForStorage (acc : Account) (enc : option bytes) : Account * option error :=
  match enc with
  | Some [n; b; i; c] => (mkAccount true n b (replicate 32 0) (replicate 32 c) i, None)
  | _ => (acc, Some "malformed account"%string)
  end.

Definition transcriptBackend (trackWitnessSize : bool) : TrieBackend := {|
  node := list HBEvent;
  HashBuilder := list HBEvent;
  NewHashBuilder := [];
  hb_Reset := fun _ => [];
  hb_root := fun h => Some h;
  hb_rootHash := fun h => flat_map eventBytes h;
  hb_hash := fun h b d => (EvHash b d :: h, None);
  GenStructStep := fun _ c s h d g _ => (EvGenStructStep c s d :: h, g, None);
  Account_Reset := fun _ => mkAccount true 0 0 (replicate 32 0) (replicate 32 0) 0;
  DecodeForStorage := toyDecodeForStorage;
  IsEmptyCodeHash := fun acc => bool_decide (CodeHash acc = replicate 32 0);
  Bytesmask := refBytesmask;
  BytesToHash := refBytesToHash;
  IsTrackWitnessSizeEnabled := trackWitnessSize;
  AccountFieldNonceOnly := 1;
  AccountFieldBalanceOnly := 2;
  AccountFieldStorageOnly := 4;
  AccountFieldCodeOnly := 8
|}.

(** ** The plain-state writer *)

(** The buckets the writer names. *)
Inductive Bucket :=
| PlainStateBucket
| CodeBucket
| PlainContractCodeBucket
| IncarnationMapBucket.

(** [ethdb.Database] as the writer uses it, and the [ChangeSetWriter] it
    forwards every call to: both are interfaces to code outside this file.
    Each operation returns the new state of its object and the [error]. *)
Class WriterBackend := {
  EthDatabase : Type;
  db_Put : EthDatabase -> Bucket -> bytes -> bytes -> EthDatabase * option error;
  db_Delete : EthDatabase -> Bucket -> bytes -> EthDatabase * option error;
  ChangeSetWriter : Type;
  csw_WriteAccountStorage :
    ChangeSetWriter -> bytes -> Z -> bytes -> Z -> Z -> ChangeSetWriter * option error
}.

(** [uint256.Int.Bytes]: the big-endian encoding without leading zero
    bytes (empty for zero).  A [uint256.Int] is kept as its value, a [Z] in
    [0, 2^256): two of them are equal as arrays exactly when their values
    are. *)
Fixpoint beBytes (n : nat) (x : Z) (acc : bytes) : bytes :=
  match n with
  | O => acc
  | S n' => if x =? 0 then acc else beBytes n' (x / 256) (x mod 256 :: acc)
  end.
Definition uint256_Bytes (x : Z) : bytes := beBytes 32 x [].

(** Modelled from the spec: [dbutils.PlainGenerateCompositeStorageKey] is
    not among the sources; a composite storage key is the concatenation of
    the account, the 8-byte big-endian incarnation and the storage slot. *)
Definition PlainGenerateCompositeStorageKey (address : bytes) (incarnation : Z)
    (key : bytes) : bytes :=
  address ++ be64 incarnation ++ key.

Section Writer.
Context `{WB : WriterBackend}.

Record PlainStateWriter := mkPlainStateWriter {
  db : EthDatabase;
  csw : ChangeSetWriter;
  blockNumber : Z
}.

(** [WriteAccountStorage]: the new writer and the [error] returned. *)
Definition WriteAccountStorage (w : PlainStateWriter) (address : bytes)
    (incarnation : Z) (key : bytes) (original value' : Z)
    : PlainStateWriter * option error :=
  let '(csw', err) :=
    csw_WriteAccountStorage (csw w) address incarnation key original value' in
  let w := mkPlainStateWriter (db w) csw' (blockNumber w) in
  match err with
  | Some e => (w, Some e)
  | None =>
      if original =? value' then (w, None)
      else
        let compositeKey := PlainGenerateCompositeStorageKey address incarnation key in
        let v' := uint256_Bytes value' in
        if len v' =? 0 then
          let '(db', err) := db_Delete (db w) PlainStateBucket compositeKey in
          (mkPlainStateWriter db' (csw w) (blockNumber w), err)
        else
          let '(db', err) := db_Put (db w) PlainStateBucket compositeKey v' in
          (mkPlainStateWriter db' (csw w) (blockNumber w), err)
  end.

End Writer.

(** A store to run the writer on: one finite map per bucket; [Put] and
    [Delete] never fail.  The change-set writer is the flag that tells
    whether its calls fail. *)
Record MapDB := mkMapDB {
  plainState : gmap (list Z) (list Z);
  code : gmap (list Z) (list Z);
  plainContractCode : gmap (list Z) (list Z);
  incarnationMap : gmap (list Z) (list Z)
}.

Definition mapPut (d : MapDB) (b : Bucket) (key val : bytes) : MapDB * option error :=
  (match b with
   | PlainStateBucket =>
       mkMapDB (<[key := val]> (plainState d)) (code d) (plainContractCode d) (incarnationMap d)
   | CodeBucket =>
       mkMapDB (plainState d) (<[key := val]> (code d)) (plainContractCode d) (incarnationMap d)
   | PlainContractCodeBucket =>
       mkMapDB (plainState d) (code d) (<[key := val]> (plainContractCode d)) (incarnationMap d)
   | IncarnationMapBucket =>
       mkMapDB (plainState d) (code d) (plainContractCode d) (<[key := val]> (incarnationMap d))
   end, None).

Definition mapDelete (d : MapDB) (b : Bucket) (key : bytes) : MapDB * option error :=
  (match b with
   | PlainStateBucket =>
       mkMapDB (delete key (plainState d)) (code d) (plainContractCode d) (incarnationMap d)
   | CodeBucket =>
       mkMapDB (plainState d) (delete key (code d)) (plainContractCode d) (incarnationMap d)
   | PlainContractCodeBucket =>
       mkMapDB (plainState d) (code d) (delete key (plainContractCode d)) (incarnationMap d)
   | IncarnationMapBucket =>
       mkMapDB (plainState d) (code d) (plainContractCode d) (delete key (incarnationMap d))
   end, None).

Definition mapWriterBackend : WriterBackend := {|
  EthDatabase := MapDB;
  db_Put := mapPut;
  db_Delete := mapDelete;
  ChangeSetWriter := bool;
  csw_WriteAccountStorage := fun failing _ _ _ _ _ =>
    (failing, if failing then Some "change set"%string else None)
|}.

(** ** The account calls of the plain-state writer *)

(** What the other calls of the writer use beyond [WriterBackend]: the
    calls of the [ChangeSetWriter] they forward to, the account codec
    ([EncodeForStorage] gives the buffer of [EncodingLengthForStorage]
    bytes after the account is encoded into it) and
    [dbutils.PlainGenerateStoragePrefix]; all are code outside this file. *)
Class AccountWriterBackend {WB : WriterBackend} := {
  EncodeForStorage : Account -> bytes;
  PlainGenerateStoragePrefix : bytes -> Z -> bytes;
  csw_UpdateAccountData :
    ChangeSetWriter -> bytes -> Account -> Account -> ChangeSetWriter * option error;
  csw_UpdateAccountCode :
    ChangeSetWriter -> bytes -> Z -> bytes -> bytes -> ChangeSetWriter * option error;
  csw_DeleteAccount :
    ChangeSetWriter -> bytes -> Account -> ChangeSetWriter * option error;
  csw_CreateContract : ChangeSetWriter -> bytes -> ChangeSetWriter * option error;
  csw_WriteChangeSets : ChangeSetWriter -> ChangeSetWriter * option error;
  csw_WriteHistory : ChangeSetWriter -> ChangeSetWriter * option error
}.

Section AccountWriter.
Context {WB : WriterBackend} {AWB : AccountWriterBackend}.

(** The writer after a call of its change-set writer. *)
Definition withCsw (w : PlainStateWriter) (csw' : ChangeSetWriter) : PlainStateWriter :=
  mkPlainStateWriter (db w) csw' (blockNumber w).

(** The writer after a call of its database. *)
Definition withDb (w : PlainStateWriter) (db' : EthDatabase) : PlainStateWriter :=
  mkPlainStateWriter db' (csw w) (blockNumber w).

Definition UpdateAccountData (w : PlainStateWriter) (address : bytes)
    (original account : Account) : PlainStateWriter * option error :=
  let '(csw', err) := csw_UpdateAccountData (csw w) address original account in
  let w := withCsw w csw' in
  match err with
  | Some e => (w, Some e)
  | None =>
      let value' := EncodeForStorage account in
      let '(db', err) := db_Put (db w) PlainStateBucket address value' in
      (withDb w db', err)
  end.

Definition UpdateAccountCode (w : PlainStateWriter) (address : bytes)
    (incarnation : Z) (codeHash code' : bytes) : PlainStateWriter * option error :=
  let '(csw', err) := csw_UpdateAccountCode (csw w) address incarnation codeHash code' in
  let w := withCsw w csw' in
  match err with
  | Some e => (w, Some e)
  | None =>
      let '(db', err) := db_Put (db w) CodeBucket codeHash code' in
      let w := withDb w db' in
      match err with
      | Some e => (w, Some e)
      | None =>
          let '(db', err) :=
            db_Put (db w) PlainContractCodeBucket
              (PlainGenerateStoragePrefix address incarnation) codeHash in
          (withDb w db', err)
      end
  end.

(** [original.Incarnation] is a [uint64]: [> 0] is [<> 0]. *)
Definition DeleteAccount (w : PlainStateWriter) (address : bytes)
    (original : Account) : PlainStateWriter * option error :=
  let '(csw', err) := csw_DeleteAccount (csw w) address original in
  let w := withCsw w csw' in
  match err with
  | Some e => (w, Some e)
  | None =>
      let '(db', err) := db_Delete (db w) PlainStateBucket address in
      let w := withDb w db' in
      match err with
      | Some e => (w, Some e)
      | None =>
          if 0 <? Incarnation original then
            let b := be64 (Incarnation original) in
            let '(db', err) := db_Put (db w) IncarnationMapBucket address b in
            let w := withDb w db' in
            match err with
            | Some e => (w, Some e)
            | None => (w, None)
            end
          else (w, None)
      end
  end.

Definition CreateContract (w : PlainStateWriter) (address : bytes)
    : PlainStateWriter * option error :=
  let '(csw', err) := csw_CreateContract (csw w) address in
  let w := withCsw w csw' in
  match err with
  | Some e => (w, Some e)
  | None => (w, None)
  end.

Definition WriteChangeSets (w : PlainStateWriter) : PlainStateWriter * option error :=
  let '(csw', err) := csw_WriteChangeSets (csw w) in
  (withCsw w csw', err).

Definition WriteHistory (w : PlainStateWriter) : PlainStateWriter * option error :=
  let '(csw', err) := csw_WriteHistory (csw w) in
  (withCsw w csw', err).

End AccountWriter.

(** The account calls on the map store: the change-set writer fails on
    every call or on none, an account is encoded by the toy codec that
    [toyDecodeForStorage] reads (the code hash by its first byte), and a
    storage prefix is the account followed by the big-endian incarnation. *)
Definition toyEncodeForStorage (acc : Account) : bytes :=
  [Nonce acc; Balance acc; Incarnation acc; default 0 (head (CodeHash acc))].

Definition mapCsw (failing : bool) : bool * option error :=
  (failing, if failing then Some "change set"%string else None).

Definition mapAccountWriterBackend : @AccountWriterBackend mapWriterBackend :=
  @Build_AccountWriterBackend mapWriterBackend
    toyEncodeForStorage
    (fun address incarnation => address ++ be64 incarnation)
    (fun failing _ _ _ => mapCsw failing)
    (fun failing _ _ _ _ => mapCsw failing)
    (fun failing _ _ => mapCsw failing)
    (fun failing _ => mapCsw failing)
    (fun failing => mapCsw failing)
    (fun failing => mapCsw failing).

(** [big.Int]-style reading of a big-endian byte string. *)
Definition beValue (b : bytes) : Z := fold_left (fun acc x => acc * 256 + x) b 0.

(** ** [AttachRequestedCode] *)

(** What [AttachRequestedCode] uses and this file does not contain: the
    read-only database ([ethdb.Getter], whose [Get] returns the value and an
    [error]) and the two updates of a [Trie]. *)
Class CodeBackend := {
  Getter : Type;
  getter_Get : Getter -> Bucket -> bytes -> option bytes * option error;
  Trie : Type;
  trie_UpdateAccountCode : Trie -> bytes -> bytes -> Trie * option error;
  trie_UpdateAccountCodeSize : Trie -> bytes -> Z -> Trie * option error
}.

(** [LoadRequestForCode], as [AttachRequestedCode] reads it.  The field [t]
    is a pointer: several requests may name the same trie, so the tries
    live in a heap and [lr_t] is an address in it. *)
Record LoadRequestForCode := mkLoadRequestForCode {
  lr_t : nat;
  lr_addrHash : bytes;
  lr_codeHash : bytes;
  lr_bytecode : bool
}.

Section AttachCode.
Context `{CB : CodeBackend}.

(** [req.t.UpdateAccountCode(...)] or [req.t.UpdateAccountCodeSize(...)] on
    the trie the request points to; a pointer to no trie panics. *)
Definition updateRequestedTrie (req : LoadRequestForCode) (code' : option bytes)
    : M (gmap nat Trie) unit :=
  fun heap =>
    match heap !! lr_t req with
    | None => Panicked
    | Some t =>
        let '(t', err) :=
          if lr_bytecode req
          then trie_UpdateAccountCode t (lr_addrHash req) (sl code')
          else trie_UpdateAccountCodeSize t (lr_addrHash req) (olen code') in
        match err with
        | Some e => Failed e (<[lr_t req := t']> heap)
        | None => Done tt (<[lr_t req := t']> heap)
        end
    end.

(** [AttachRequestedCode]: the loader itself is not used. *)
Fixpoint AttachRequestedCode (db : Getter) (requests : list LoadRequestForCode)
    : M (gmap nat Trie) unit :=
  match requests with
  | [] => ret tt
  | req :: requests' =>
      let '(code', err) := getter_Get db CodeBucket (lr_codeHash req) in
      match err with
      | Some e => fail e
      | None =>
          do! updateRequestedTrie req code' in
          AttachRequestedCode db requests'
      end
  end.

End AttachCode.

(** ** Concrete stores and runs *)

(** A 32-byte account hash made of one byte. *)
Definition hashKey (b : Z) : bytes := replicate 32 b.

(** An account without code at [00..00], and one with code at [01..01]
    (values in the toy codec: nonce 1, balance 0, incarnation 0). *)
Definition oneAccount : BoltDB :=
  mkBoltDB [(hashKey 0, [1; 0; 0; 0])] [] [].
Definition twoAccounts : BoltDB :=
  mkBoltDB [(hashKey 0, [1; 0; 0; 0]); (hashKey 1, [1; 0; 0; 7])] [] [].

Definition retainNothing (prefix : bytes) : bool := false.

(** [Reset] followed by [LoadSubTries], as a caller runs them. *)
Definition resetAndLoad `{TB : TrieBackend} (fuel : nat) (database : Database)
    (rl' : option (bytes -> bool)) (dbPrefixes' : list bytes) (fixedbits : list Z)
    : M FlatDbSubTrieLoader (SubTries node) :=
  fun s =>
    match Reset database rl' dbPrefixes' fixedbits s with
    | (s', Some e) => Failed e s'
    | (s', None) => LoadSubTries fuel s'
    end.

(** The loader a run of the loader ends with ([s] itself if it does not
    end), and its result ([d] if there is none). *)
Definition loaderOf `{TB : TrieBackend} {A} (r : outcome FlatDbSubTrieLoader A)
    (s : FlatDbSubTrieLoader) : FlatDbSubTrieLoader :=
  match r with
  | Done _ s' => s'
  | Failed _ s' => s'
  | _ => s
  end.
Definition resultOf {S A} (r : outcome S A) (d : A) : A :=
  match r with
  | Done x _ => x
  | _ => d
  end.

(** The state in which [LoadSubTries] makes its first call of [iteration]:
    the loader after [Reset] and cursors just opened. *)
Definition worldAfterReset `{TB : TrieBackend} (store : BoltDB)
    (rl' : option (bytes -> bool)) (dbPrefixes' : list bytes) (fixedbits : list Z)
    : World :=
  mkWorld (fst (Reset (DatabaseHasKV (Some store)) rl' dbPrefixes' fixedbits
                  NewFlatDbSubTrieLoader))
    (newCursor (CurrentStateBucket store))
    (newCursor (IntermediateTrieHashBucket store))
    (newCursor (IntermediateTrieWitnessLenBucket store)) [].

(** The world a run ends in ([w] itself if it does not end). *)
Definition worldOf `{TB : TrieBackend} {A} (r : outcome World A) (w : World) : World :=
  match r with
  | Done _ w' => w'
  | Failed _ w' => w'
  | _ => w
  end.

(** An account at [00..00] with incarnation 1 and one storage slot under
    it: the storage key is the account hash, the complemented incarnation
    and the slot hash [05..05]. *)
Definition accountWithStorage : BoltDB :=
  mkBoltDB [(hashKey 0, [1; 0; 1; 0]);
            (hashKey 0 ++ be64 (not64 1) ++ hashKey 5, [9])] [] [].

(** On [accountWithStorage], for the one range of everything: the world
    after the first call of [iteration] (which hands the account over) and
    the dispatch of its item, and the world after the next call of
    [iteration] (which hands the storage slot over). *)
Definition worldAfterAccount : World :=
  worldOf ((do! iteration (TB := transcriptBackend false) 1 true in
            do! dispatch in
            updL (set_itemPresent false))
             (worldAfterReset accountWithStorage (Some retainNothing) [[]] [0]))
    (worldAfterReset accountWithStorage (Some retainNothing) [[]] [0]).
Definition worldAfterStorage : World :=
  worldOf (iteration (TB := transcriptBackend false) 1 false worldAfterAccount)
    worldAfterAccount.

(** A store without accounts whose only cached hash has the key [ff]. *)
Definition lastSubtreeCached : BoltDB :=
  mkBoltDB [] [([255], replicate 32 7)] [].

(** On [oneAccount]: the world after a cached account hash under the key
    [00] with witness length 5 has been consumed. *)
Definition worldAfterAccountHash : World :=
  worldOf (deliverAll (TB := transcriptBackend false)
             [AHashItem (Some [0]) (Some (hashKey 7)) 5]
             (worldAfterReset oneAccount (Some retainNothing) [[]] [0]))
    (worldAfterReset oneAccount (Some retainNothing) [[]] [0]).


Local Open Scope go_scope.

(** ** Key encoding: proofs *)

Lemma keyToNibbles_nibblesOf (k w : bytes) :
  keyToNibbles k w = w ++ nibblesOf k.
Proof.
  revert w. induction k as [|b k IH]; intros w; simpl.
  - by rewrite app_nil_r.
  - rewrite IH. by rewrite <- app_assoc.
Qed.

Lemma keyToNibblesUntilHash_take (i : Z) (k w : bytes) :
  0 <= i <= HashLength ->
  keyToNibblesUntilHash i k w = w ++ nibblesOf (take (Z.to_nat (HashLength - i)) k).
Proof.
  revert i w. induction k as [|b k IH]; intros i w Hi; simpl.
  - rewrite take_nil. simpl. by rewrite app_nil_r.
  - destruct (Z.eqb_spec i HashLength) as [->|Hne].
    + replace (Z.to_nat (HashLength - HashLength)) with 0%nat by (unfold HashLength; lia).
      simpl. by rewrite app_nil_r.
    + rewrite IH by lia.
      replace (Z.to_nat (HashLength - i)) with (S (Z.to_nat (HashLength - (i + 1)))) by lia.
      simpl. by rewrite <- app_assoc.
Qed.

Lemma nibblesOf_length (k : bytes) : length (nibblesOf k) = (2 * length k)%nat.
Proof. induction k as [|b k IH]; simpl; lia. Qed.

(** C9: [keyToNibblesWithoutInc] appends to the writer two nibbles per byte,
    high nibble first, for bytes 0..31 of the key, nothing for bytes 32..39,
    and two nibbles per byte for bytes 40 onward; a 72-byte composite
    storage key gives exactly 128 nibbles. *)
Theorem keyToNibblesWithoutInc_skips_incarnation (k w : bytes) :
  keyToNibblesWithoutInc k w
    = w ++ flat_map (fun b => [b / 16; b mod 16]) (take 32 k)
        ++ flat_map (fun b => [b / 16; b mod 16]) (drop 40 k)
  /\ (length k = 72%nat ->
      length (keyToNibblesWithoutInc k []) = 128%nat).
Proof.
  assert (E : keyToNibblesWithoutInc k w
              = w ++ nibblesOf (take 32 k) ++ nibblesOf (drop 40 k)).
  { unfold keyToNibblesWithoutInc.
    rewrite keyToNibblesUntilHash_take by (unfold HashLength; lia).
    replace (Z.to_nat (HashLength - 0)) with 32%nat by (unfold HashLength; lia).
    replace (Z.to_nat (HashLength + IncarnationLength)) with 40%nat
      by (unfold HashLength, IncarnationLength; lia).
    destruct (Z.ltb_spec (HashLength + IncarnationLength) (len k)) as [Hlt|Hge].
    - rewrite keyToNibbles_nibblesOf. by rewrite <- app_assoc.
    - rewrite drop_ge; [simpl; by rewrite !app_nil_r|].
      unfold len, HashLength, IncarnationLength in Hge. lia. }
  split; [exact E|].
  intros Hk. unfold keyToNibblesWithoutInc.
  rewrite keyToNibblesUntilHash_take by (unfold HashLength; lia).
  replace (HashLength + IncarnationLength <? len k) with true
    by (unfold len, HashLength, IncarnationLength; rewrite Hk; reflexivity).
  rewrite keyToNibbles_nibblesOf. simpl.
  rewrite length_app, !nibblesOf_length, length_take, length_drop.
  unfold HashLength, IncarnationLength. rewrite Hk. reflexivity.
Qed.


(** ** Reasoning about runs *)

(** [after m s Q]: if [m] run on [s] ends, with a result or with an
    [error], then [Q] holds of the result ([None] for an error) and of the
    state it leaves. *)
Definition after {S A} (m : M S A) (s : S) (Q : option A -> S -> Prop) : Prop :=
  match m s with
  | Done a s' => Q (Some a) s'
  | Failed _ s' => Q None s'
  | Panicked => True
  | OutOfFuel => True
  end.

Lemma after_Done {S A} (m : M S A) (s s' : S) (a : A) Q :
  after m s Q -> m s = Done a s' -> Q (Some a) s'.
Proof. unfold after. intros H E. by rewrite E in H. Qed.

Lemma after_Failed {S A} (m : M S A) (s s' : S) e Q :
  after m s Q -> m s = Failed e s' -> Q None s'.
Proof. unfold after. intros H E. by rewrite E in H. Qed.

Lemma after_conseq {S A} (m : M S A) (s : S) (P Q : option A -> S -> Prop) :
  after m s P -> (forall r s', P r s' -> Q r s') -> after m s Q.
Proof. unfold after. destruct (m s); auto. Qed.

Lemma after_bind {S A B} (m : M S A) (f : A -> M S B) (s : S) Q :
  after m s (fun r s1 => match r with
                         | Some a => after (f a) s1 Q
                         | None => Q None s1
                         end) ->
  after (bind m f) s Q.
Proof. unfold after, bind. destruct (m s); auto. Qed.

Lemma after_ret {S A} (a : A) (s : S) Q : Q (Some a) s -> after (ret a) s Q.
Proof. done. Qed.

Lemma after_fail {S A} e (s : S) (Q : option A -> S -> Prop) :
  Q None s -> after (fail e) s Q.
Proof. done. Qed.

Lemma after_panic {S A} (s : S) (Q : option A -> S -> Prop) : after panic s Q.
Proof. done. Qed.

Lemma after_timeout {S A} (s : S) (Q : option A -> S -> Prop) : after timeout s Q.
Proof. done. Qed.

Lemma after_modify {S} (f : S -> S) (s : S) Q :
  Q (Some tt) (f s) -> after (modify f) s Q.
Proof. done. Qed.

Lemma after_index {S A} (l : list A) (i : nat) (s : S) Q :
  (forall x, l !! i = Some x -> Q (Some x) s) -> after (index l i) s Q.
Proof. unfold index. destruct (l !! i); [|done]. intros H. by apply H. Qed.

Lemma after_sliceTo {S} (b : bytes) (n : Z) (s : S) Q :
  (0 <= n <= len b -> Q (Some (take (Z.to_nat n) b)) s) -> after (sliceTo b n) s Q.
Proof.
  unfold sliceTo. intros H.
  destruct (Z.leb_spec 0 n); [|done]. destruct (Z.leb_spec n (len b)); [|done].
  apply H. lia.
Qed.

Lemma after_byteAt {S} (b : bytes) (i : Z) (s : S) Q :
  (forall x, 0 <= i -> b !! Z.to_nat i = Some x -> Q (Some x) s) ->
  after (byteAt b i) s Q.
Proof.
  unfold byteAt. intros H. destruct (Z.leb_spec 0 i); [|done].
  apply after_index. intros x Hx. by apply H.
Qed.

Section LoaderProofs.
Context `{TB : TrieBackend}.

Lemma after_getL (w : World) Q : Q (Some (w_fstl w)) w -> after getL w Q.
Proof. done. Qed.

Lemma after_updL f (w : World) Q :
  Q (Some tt) (set_w_fstl (f (w_fstl w)) w) -> after (updL f) w Q.
Proof. done. Qed.

Lemma after_seekC key (w : World) Q :
  Q (Some tt)
    (set_w_c (snd (SeekTo key (w_c w)))
       (set_w_fstl (set_v (snd (fst (SeekTo key (w_c w))))
                      (set_k (fst (fst (SeekTo key (w_c w)))) (w_fstl w))) w)) ->
  after (seekC key) w Q.
Proof. unfold after, seekC. by destruct (SeekTo key (w_c w)) as [[??]?]. Qed.

Lemma after_nextC (w : World) Q :
  Q (Some tt)
    (set_w_c (snd (Next (w_c w)))
       (set_w_fstl (set_v (snd (fst (Next (w_c w))))
                      (set_k (fst (fst (Next (w_c w)))) (w_fstl w))) w)) ->
  after nextC w Q.
Proof. unfold after, nextC. by destruct (Next (w_c w)) as [[??]?]. Qed.

Lemma after_seekIH key (w : World) Q :
  Q (Some tt)
    (set_w_ih (snd (SeekTo key (w_ih w)))
       (set_w_fstl (set_ihV (snd (fst (SeekTo key (w_ih w))))
                      (set_ihK (fst (fst (SeekTo key (w_ih w)))) (w_fstl w))) w)) ->
  after (seekIH key) w Q.
Proof. unfold after, seekIH. by destruct (SeekTo key (w_ih w)) as [[??]?]. Qed.

Lemma after_nextIH (w : World) Q :
  Q (Some tt)
    (set_w_ih (snd (Next (w_ih w)))
       (set_w_fstl (set_ihV (snd (fst (Next (w_ih w))))
                      (set_ihK (fst (fst (Next (w_ih w)))) (w_fstl w))) w)) ->
  after nextIH w Q.
Proof. unfold after, nextIH. by destruct (Next (w_ih w)) as [[??]?]. Qed.

Lemma after_getWitnessLen prefix (w : World) Q :
  (forall n, Q (Some n) w) ->
  (forall n, Q (Some n) (set_w_iwl (snd (SeekTo (sl prefix) (w_iwl w))) w)) ->
  after (getWitnessLen prefix) w Q.
Proof.
  intros H0 H1. unfold after, getWitnessLen.
  destruct IsTrackWitnessSizeEnabled; cbn [negb].
  - destruct (SeekTo (sl prefix) (w_iwl w)) as [[k' v'] iwl'] eqn:E.
    destruct (negb (Equal k' prefix)); [done|].
    destruct (len (sl v') <? 8); [done|]. cbn [snd] in H1. apply H1.
  - apply H0.
Qed.

(** Projections of updated records are computed by [psimpl]. *)
Ltac psimpl :=
  cbn [rl curr succ value groups hb rangeIdx a leafData accData subTries wasIH
       wasIHStorage hashData currStorage succStorage valueStorage
       witnessLenAccount witnessLenStorage accAddrHashWithInc dbPrefixes
       fixedbytes masks cutoffs boltDB nextAccountKey k v ihK ihV
       minKeyAsNibbles itemPresent itemType storageKeyPart1 storageKeyPart2
       storageHash storageValue storageWitnessLen accountKey accountHash
       accountValue streamCutoff accountWitnessLen
       set_rl set_curr set_succ set_value set_groups set_hb set_rangeIdx set_a
       set_leafData set_accData set_subTries set_wasIH set_wasIHStorage
       set_hashData set_currStorage set_succStorage set_valueStorage
       set_witnessLenAccount set_witnessLenStorage set_accAddrHashWithInc
       set_dbPrefixes set_fixedbytes set_masks set_cutoffs set_boltDB
       set_nextAccountKey set_k set_v set_ihK set_ihV set_minKeyAsNibbles
       set_itemPresent set_itemType set_storageKeyPart1 set_storageKeyPart2
       set_storageHash set_storageValue set_storageWitnessLen set_accountKey
       set_accountHash set_accountValue set_streamCutoff set_accountWitnessLen
       w_fstl w_c w_ih w_iwl w_gen set_w_fstl set_w_c set_w_ih set_w_iwl set_w_gen
       hd_Hash hd_DataLen ad_Balance ad_Nonce ad_Incarnation ad_FieldSet
       bucket pos ops SeekTo Next fst snd
       l_isIH l_minKey l_fixedbytes l_cutoff l_dbPrefix l_mask l_cmp
       gc_site gc_curr gc_succ gc_data] in *.

(** One step of a run: the rule for the command at the head. *)
Ltac wp1 :=
  lazymatch goal with
  | |- after (bind _ _) _ _ => apply after_bind
  | |- after (ret _) _ _ => apply after_ret
  | |- after getL _ _ => apply after_getL
  | |- after (updL _) _ _ => apply after_updL
  | |- after (modify _) _ _ => apply after_modify
  | |- after panic _ _ => apply after_panic
  | |- after timeout _ _ => apply after_timeout
  | |- after (fail _) _ _ => apply after_fail
  | |- after (seekC _) _ _ => apply after_seekC
  | |- after nextC _ _ => apply after_nextC
  | |- after (seekIH _) _ _ => apply after_seekIH
  | |- after nextIH _ _ => apply after_nextIH
  | |- after (index _ _) _ _ => apply after_index; intros ? ?
  | |- after (sliceTo _ _) _ _ => apply after_sliceTo; intros ?
  | |- after (byteAt _ _) _ _ => apply after_byteAt; intros ? ? ?
  | |- after (getWitnessLen _) _ _ => apply after_getWitnessLen; intros ?
  | |- after (if ?b then _ else _) _ _ => destruct b eqn:?
  | |- after (match ?x with _ => _ end) _ _ => destruct x eqn:?
  | |- after toNextAccountC _ _ => unfold toNextAccountC
  | |- after toNextAccountIH _ _ => unfold toNextAccountIH
  | |- after (copyPrefixToAcc _) _ _ => unfold copyPrefixToAcc
  | |- after (setStorageKeyParts _) _ _ => unfold setStorageKeyParts
  | |- after (storageData _) _ _ => unfold storageData
  | |- after fillAccData _ _ => unfold fillAccData
  | |- after (orFieldSet _) _ _ => unfold orFieldSet
  | |- after clearFieldSet _ _ => unfold clearFieldSet
  | |- after (appendSubTrie _ _) _ _ => unfold appendSubTrie
  | |- after (callGenStructStep _ _ _ _) _ _ => unfold callGenStructStep
  end; cbn beta iota.

Ltac wp := repeat (wp1; psimpl).


(** C7: after a [Reset] that builds the ranges (some prefix is given and
    the database is a Bolt one), the cutoff of range [i] is
    [fixedbits[i]/4] when [fixedbits[i] < 320] and [fixedbits[i]/4 - 16]
    when [fixedbits[i] >= 320]; the division is Go's, on [int]. *)
Theorem Reset_cutoffs (database : Database) (rl' : option (bytes -> bool))
    (dbPrefixes' : list bytes) (fixedbits : list Z)
    (s s' : FlatDbSubTrieLoader) (i : nat) (bits : Z) :
  Reset database rl' dbPrefixes' fixedbits s = (s', None) ->
  dbPrefixes' <> [] ->
  fixedbits !! i = Some bits ->
  length (cutoffs s') = length fixedbits /\
  (bits < 320 -> cutoffs s' !! i = Some (bits ÷ 4)) /\
  (320 <= bits -> cutoffs s' !! i = Some (bits ÷ 4 - 16)).
Proof.
  intros HR Hne Hi. unfold Reset in HR.
  destruct (Z.eqb_spec (len' dbPrefixes') 0) as [E|_].
  { destruct dbPrefixes'; [done|]. unfold len' in E. simpl in E. lia. }
  lazymatch type of HR with
  | context [match boltDB ?x with _ => _ end] => destruct (boltDB x)
  end; [|discriminate].
  injection HR as <-. cbn [cutoffs set_cutoffs].
  rewrite length_map, list_lookup_fmap, Hi. cbn.
  split; [reflexivity|].
  split; intros Hb.
  - destruct (Z.leb_spec (256 + 64) bits); [lia|reflexivity].
  - destruct (Z.leb_spec (256 + 64) bits); [reflexivity|lia].
Qed.

(** C8: with the witness-size flag off, the witness-length lookup returns
    0 and leaves the world, the [iwl] cursor included, as it was; with the
    flag on, if [SeekTo] on [iwl] lands on a key that is not equal to the
    prefix (or on none), the lookup panics. *)
Theorem getWitnessLen_flag_and_missing_key (prefix : option bytes) (w : World) :
  (IsTrackWitnessSizeEnabled = false ->
     getWitnessLen prefix w = Done 0 w) /\
  (IsTrackWitnessSizeEnabled = true ->
     Equal (fst (fst (SeekTo (sl prefix) (w_iwl w)))) prefix = false ->
     getWitnessLen prefix w = Panicked).
Proof.
  unfold getWitnessLen. split.
  - intros ->. reflexivity.
  - intros -> Hne. cbn [negb].
    destruct (SeekTo (sl prefix) (w_iwl w)) as [[k' v'] iwl'].
    cbn in Hne. rewrite Hne. reflexivity.
Qed.



Lemma copyBytes_length (dst src : bytes) :
  length (copyBytes dst src) = length dst.
Proof. unfold copyBytes. rewrite length_app, length_take, length_drop. lia. Qed.

Lemma keyIsBefore_true (k1 k2 m : option bytes) :
  keyIsBefore k1 k2 = (true, m) -> m = k1.
Proof.
  unfold keyIsBefore. destruct k1 as [a|]; [|done].
  destruct k2 as [b|]; [|by intros [= <-]].
  destruct (Compare a b <=? 0); by intros [= <-].
Qed.

Lemma rangeCmp_spec first l w :
  after (rangeCmp first l) w (fun r w' =>
    w' = w /\
    forall cmp, r = Some cmp ->
      (first = false -> cmp < 0 -> 0 < l_fixedbytes l) /\
      (first = false -> l_minKey l = None -> cmp = 1) /\
      (first = true -> l_minKey l = None -> cmp = l_cmp l)).
Proof.
  unfold rangeCmp. destruct (l_minKey l) as [minKey|] eqn:E.
  - wp; (split; [done|]); intros cmp [= <-]; repeat split; try done;
      intros; try lia.
  - wp. split; [done|]. intros cmp [= <-].
    repeat split; intros; subst; cbn in *; try lia; try done.
Qed.


(** What holds at the head of the loop [for cmp != 0], given that no item
    was present when [iteration] was called. *)
Definition loopInv (first : bool) (l : Locals) (w : World) : Prop :=
  length (accAddrHashWithInc (w_fstl w)) = 40%nat /\
  (first = true -> itemPresent (w_fstl w) = false) /\
  (itemPresent (w_fstl w) = true -> itemType (w_fstl w) = CutoffStreamItem) /\
  (l_cmp l = 0 -> itemPresent (w_fstl w) = false) /\
  (l_isIH l = true -> l_minKey l = ihK (w_fstl w)).

Ltac use_spec lem :=
  apply after_bind; eapply after_conseq; [apply lem|]; cbn beta.

Lemma rangeLoopBody_inv first l w :
  loopInv first l w ->
  after (rangeLoopBody first l) w (fun r w' =>
    match r with
    | Some (LoopNext l') => loopInv first l' w'
    | Some LoopReturn =>
        length (accAddrHashWithInc (w_fstl w')) = 40%nat /\
        (itemPresent (w_fstl w') = true -> itemType (w_fstl w') = CutoffStreamItem)
    | None => True
    end).
Proof.
  intros (Hlen & Hfirst & Hcut & Hcmp & Hih).
  unfold rangeLoopBody. use_spec rangeCmp_spec.
  intros r w1 [-> H]. destruct r as [cmp|]; [|done].
  destruct (H cmp eq_refl) as (Hneg & Hnil & Hnil').
  wp.
  all: unfold loopInv; psimpl; rewrite ?copyBytes_length.
  all: destruct first; cbn [negb andb] in *.
  all: repeat match goal with
       | H : ?x = ?x -> _ |- _ => specialize (H eq_refl)
       | H : true = false -> _ |- _ => clear H
       | H : false = true -> _ |- _ => clear H
       end.
  all: repeat split; intros; subst.
  all: try match goal with
       | H : keyIsBefore _ _ = (true, _) |- _ => apply keyIsBefore_true in H
       end.
  all: repeat match goal with
       | H : context [if ?b then _ else _] |- _ => destruct b eqn:?
       end.
  all: try done; try lia; try (exfalso; lia); try tauto.
Qed.

Lemma rangeLoop_inv fuel first l w :
  loopInv first l w ->
  after (rangeLoop fuel first l) w (fun r w' =>
    match r with
    | Some (Some l') =>
        length (accAddrHashWithInc (w_fstl w')) = 40%nat /\
        itemPresent (w_fstl w') = false /\
        (l_isIH l' = true -> l_minKey l' = ihK (w_fstl w'))
    | Some None =>
        length (accAddrHashWithInc (w_fstl w')) = 40%nat /\
        (itemPresent (w_fstl w') = true -> itemType (w_fstl w') = CutoffStreamItem)
    | None => True
    end).
Proof.
  revert l w. induction fuel as [|fuel IH]; intros l w Hinv.
  - cbn [rangeLoop]. destruct (l_cmp l =? 0) eqn:E; [|apply after_timeout].
    apply after_ret. destruct Hinv as (? & ? & ? & Hc & ?).
    repeat split; try done. apply Hc. lia.
  - cbn [rangeLoop]. destruct (l_cmp l =? 0) eqn:E.
    + apply after_ret. destruct Hinv as (? & ? & ? & Hc & ?).
      repeat split; try done. apply Hc. lia.
    + apply after_bind. eapply after_conseq; [by apply rangeLoopBody_inv|].
      cbn beta. intros [[|l']|] w1 H; [apply after_ret; exact H| |done].
      by apply IH.
Qed.

Lemma initLocals_spec first w :
  after (initLocals first) w (fun r w' =>
    w' = w /\
    forall l, r = Some l ->
      l_cmp l = -1 /\
      (l_isIH l = true -> l_minKey l = ihK (w_fstl w)) /\
      (first = false ->
       (l_isIH l, l_minKey l) = keyIsBefore (ihK (w_fstl w)) (k (w_fstl w)))).
Proof.
  unfold initLocals. wp.
  split; [done|]. intros l' [= <-]. psimpl.
  destruct first; cbn [negb] in *.
  - match goal with H : (false, None) = _ |- _ => injection H as <- <- end.
    repeat split; done.
  - repeat split; try done.
    intros ->. by eapply keyIsBefore_true.
Qed.

Lemma reconcile_spec fuel first w :
  itemPresent (w_fstl w) = false ->
  length (accAddrHashWithInc (w_fstl w)) = 40%nat ->
  after (reconcile fuel first) w (fun r w' =>
    match r with
    | Some (Some l') =>
        length (accAddrHashWithInc (w_fstl w')) = 40%nat /\
        itemPresent (w_fstl w') = false /\
        (l_isIH l' = true -> l_minKey l' = ihK (w_fstl w'))
    | Some None =>
        length (accAddrHashWithInc (w_fstl w')) = 40%nat /\
        (itemPresent (w_fstl w') = true -> itemType (w_fstl w') = CutoffStreamItem)
    | None => True
    end).
Proof.
  intros Hp Hlen. unfold reconcile. use_spec initLocals_spec.
  intros [l|] w1 [-> H]; [|done].
  destruct (H l eq_refl) as (Hc & Hih & _).
  apply rangeLoop_inv. unfold loopInv. rewrite Hc, Hp. repeat split; try done.
Qed.


















Lemma leafPart_traffic w :
  after leafPart w (fun _ w' =>
    (length (ops (w_c w')) <= length (ops (w_c w)) + 1)%nat /\
    (length (ops (w_ih w')) <= length (ops (w_ih w)) + 1)%nat).
Proof.
  unfold leafPart. wp.
  all: cbn [length]; lia.
Qed.

Lemma ihPart_traffic l w :
  itemPresent (w_fstl w) = false ->
  after (ihPart l) w (fun _ w' =>
    ((length (ops (w_c w')) <= length (ops (w_c w)) + 2)%nat /\
     (length (ops (w_ih w')) <= length (ops (w_ih w)) + 2)%nat) /\
    (~ (itemPresent (w_fstl w') = true /\
        (itemType (w_fstl w') = AHashStreamItem \/
         itemType (w_fstl w') = SHashStreamItem)) ->
     (length (ops (w_c w')) <= length (ops (w_c w)) + 1)%nat /\
     (length (ops (w_ih w')) <= length (ops (w_ih w)) + 1)%nat)).
Proof.
  intros Hp. unfold ihPart. wp.
  all: cbn [length]; split; [lia|].
  all: intros Hn; try (cbn [length]; lia).
  all: exfalso; apply Hn; split; [done|]; auto.
Qed.

(** C3, amended: in a call of [iteration] (not the first) that finds the
    smallest key inside the current range, so that the loop adjusting the
    range seeks nothing, each of the two cursors is advanced at most twice,
    and at most once unless the call emits a cached hash (an
    [AHashStreamItem] or a [SHashStreamItem]), after which skipping the
    subtree may take a second [SeekTo] past the storage to the next
    account. *)
Theorem iteration_in_range_advances (fuel : nat) (w w' : World) (l : Locals) :
  initLocals false w = Done l w ->
  rangeCmp false l w = Done 0 w ->
  iteration (S fuel) false w = Done tt w' ->
  ((advances (w_c w) (w_c w') <= 2)%nat /\
   (advances (w_ih w) (w_ih w') <= 2)%nat) /\
  (~ (itemPresent (w_fstl w') = true /\
      (itemType (w_fstl w') = AHashStreamItem \/
       itemType (w_fstl w') = SHashStreamItem)) ->
   (advances (w_c w) (w_c w') <= 1)%nat /\
   (advances (w_ih w) (w_ih w') <= 1)%nat).
Proof.
  intros Hinit Hcmp Hrun.
  pose proof (after_Done _ _ _ _ _ (initLocals_spec false w) Hinit) as (_ & Hl).
  destruct (Hl l eq_refl) as (Hc & _).
  unfold iteration, reconcile, bind in Hrun. rewrite Hinit in Hrun.
  cbn [rangeLoop] in Hrun. rewrite Hc in Hrun. cbn in Hrun.
  unfold rangeLoopBody, bind in Hrun. rewrite Hcmp in Hrun.
  unfold getL, ret in Hrun. cbn [Z.eqb andb Z.ltb Z.compare] in Hrun.
  unfold advances.
  destruct (itemPresent (w_fstl w)) eqn:Hp.
  - injection Hrun as <-. rewrite Nat.sub_diag. repeat split; lia.
  - assert (Hexit : forall l', l_cmp l' = 0 ->
              rangeLoop fuel false l' w = Done (Some l') w).
    { intros l' E. destruct fuel; cbn [rangeLoop]; by rewrite E. }
    rewrite Hexit in Hrun by reflexivity.
    cbn [l_isIH] in Hrun.
    destruct (l_isIH l); cbn [negb] in Hrun.
    + pose proof (after_Done _ _ _ _ _ (ihPart_traffic _ w Hp) Hrun) as ((? & ?) & H1).
      split; [lia|]. intros Hn. destruct (H1 Hn). lia.
    + pose proof (after_Done _ _ _ _ _ (leafPart_traffic w) Hrun) as (? & ?).
      split; [lia|]. intros _. lia.
Qed.

(** [runs m s Q]: [m] run on [s] ends with a result, of which [Q] holds. *)
Definition runs {S A} (m : M S A) (s : S) (Q : A -> S -> Prop) : Prop :=
  match m s with
  | Done a s' => Q a s'
  | _ => False
  end.

Lemma runs_Done {S A} (m : M S A) (s : S) Q :
  runs m s Q -> exists a s', m s = Done a s' /\ Q a s'.
Proof. unfold runs. destruct (m s); try done. eauto. Qed.

Lemma runs_bind {S A B} (m : M S A) (f : A -> M S B) (s : S) Q :
  runs m s (fun a s1 => runs (f a) s1 Q) -> runs (bind m f) s Q.
Proof. unfold runs, bind. destruct (m s); auto. Qed.

Lemma runs_ret {S A} (a : A) (s : S) (Q : A -> S -> Prop) : Q a s -> runs (ret a) s Q.
Proof. done. Qed.

Lemma runs_getL (w : World) Q : Q (w_fstl w) w -> runs getL w Q.
Proof. done. Qed.

Lemma runs_updL f (w : World) Q :
  Q tt (set_w_fstl (f (w_fstl w)) w) -> runs (updL f) w Q.
Proof. done. Qed.

Lemma runs_index {S A} (l : list A) (i : nat) (x : A) (s : S) Q :
  l !! i = Some x -> Q x s -> runs (index l i) s Q.
Proof. unfold runs, index. by intros ->. Qed.

Lemma runs_sliceTo {S} (b : bytes) (n : Z) (s : S) Q :
  0 <= n <= len b -> Q (take (Z.to_nat n) b) s -> runs (sliceTo b n) s Q.
Proof.
  unfold runs, sliceTo. intros H HQ.
  destruct (Z.leb_spec 0 n); [|lia]. destruct (Z.leb_spec n (len b)); [|lia].
  exact HQ.
Qed.

Lemma runs_getWitnessLen prefix (w : World) Q :
  witnessLenFound prefix (w_iwl w) ->
  (forall n, Q n w) ->
  (forall n, Q n (set_w_iwl (snd (SeekTo (sl prefix) (w_iwl w))) w)) ->
  runs (getWitnessLen prefix) w Q.
Proof.
  intros Hf H0 H1. unfold runs, getWitnessLen.
  destruct IsTrackWitnessSizeEnabled eqn:E; cbn [negb]; [|apply H0].
  destruct Hf as [?|[Heq Hlen]]; [congruence|].
  destruct (SeekTo (sl prefix) (w_iwl w)) as [[k' v'] iwl'] eqn:E'.
  cbn [fst snd] in *. rewrite Heq. cbn [negb].
  destruct (Z.ltb_spec (len (sl v')) 8); [lia|]. apply H1.
Qed.

Ltac arith :=
  unfold olen, HashLength, IncarnationLength in *;
  cbn [sl default from_option id] in *; lia.

Ltac tp1 :=
  lazymatch goal with
  | |- runs (bind _ _) _ _ => apply runs_bind
  | |- runs (ret _) _ _ => apply runs_ret
  | |- runs getL _ _ => apply runs_getL
  | |- runs (updL _) _ _ => apply runs_updL
  | |- runs (setStorageKeyParts _) _ _ => unfold setStorageKeyParts
  | |- runs (sliceTo _ _) _ _ => apply runs_sliceTo; [arith|]
  | |- runs (getWitnessLen _) _ _ => apply runs_getWitnessLen; [assumption|intros ?|intros ?]
  | |- runs (if ?b then _ else _) _ _ => destruct b eqn:?
  end; cbn beta iota.

Lemma incrementBE_all_255 (key : bytes) :
  Forall (fun b => b = 255) key -> snd (incrementBE key) = false.
Proof.
  induction 1 as [|x key -> _ IH]; [done|].
  cbn [incrementBE]. destruct (incrementBE key) as [r ok]. cbn [snd] in IH.
  subst ok. reflexivity.
Qed.

Lemma nextSubtree_all_255 (key : bytes) :
  Forall (fun b => b = 255) key -> nextSubtree key = (None, false).
Proof.
  intros H. apply incrementBE_all_255 in H. unfold nextSubtree.
  destruct (incrementBE key) as [r ok]. cbn [snd] in H. by subst ok.
Qed.

Lemma ihPart_overflow (l : Locals) (w : World) (key : bytes) (Retain : bytes -> bool) :
  l_minKey l = Some key ->
  ihK (w_fstl w) = Some key ->
  Forall (fun b => b = 255) key ->
  rl (w_fstl w) = Some Retain ->
  l_cutoff l <= len (keyToNibblesWithoutInc key []) ->
  Retain (keyToNibblesWithoutInc key []) = false ->
  (len key <= HashLength \/ HasPrefix key (accAddrHashWithInc (w_fstl w)) = true) ->
  witnessLenFound (Some key) (w_iwl w) ->
  runs (ihPart l) w (fun _ w' =>
    k (w_fstl w') = None /\ ihK (w_fstl w') = None /\
    itemPresent (w_fstl w') = true /\
    (itemType (w_fstl w') = AHashStreamItem \/ itemType (w_fstl w') = SHashStreamItem) /\
    w_c w' = w_c w /\ w_ih w' = w_ih w).
Proof.
  intros Hmin Hih Hall Hrl Hcut Hret Hacc Hwl.
  assert (Hmis : (HashLength <? olen (Some key))
                 && negb (HasPrefix key (accAddrHashWithInc (w_fstl w))) = false).
  { destruct Hacc as [Hle|Hpre].
    - unfold olen. cbn [sl default from_option id].
      destruct (Z.ltb_spec HashLength (len key)); [lia|done].
    - rewrite Hpre. apply andb_false_r. }
  unfold ihPart. rewrite Hmin. cbn [sl default from_option id].
  repeat (tp1; psimpl;
          rewrite ?Hrl, ?Hih, ?Hret, ?Hmis, ?(nextSubtree_all_255 key Hall);
          cbn [sl default from_option id negb]).
  all: unfold olen, HashLength, IncarnationLength in *;
       cbn [sl default from_option id] in *; try lia.
  all: try (exfalso; lia).
  all: try (repeat split; auto; fail).
Qed.

(** What one pass of the loop does once both cursors are exhausted (the
    smallest key is nil) in a call that is not the first. *)
Definition exhaustedStep (w w' : World) : Prop :=
  w_c w' = w_c w /\ w_ih w' = w_ih w /\
  k (w_fstl w') = k (w_fstl w) /\ ihK (w_fstl w') = ihK (w_fstl w) /\
  itemPresent (w_fstl w') = true /\ itemType (w_fstl w') = CutoffStreamItem.

Lemma after_and {S A} (m : M S A) (s : S) (P Q : option A -> S -> Prop) :
  after m s P -> after m s Q -> after m s (fun r s' => P r s' /\ Q r s').
Proof. unfold after. destruct (m s); auto. Qed.

Lemma rangeCmp_no_error first l w :
  after (rangeCmp first l) w (fun r _ => r <> None).
Proof. unfold rangeCmp. destruct (l_minKey l); wp; done. Qed.

Lemma rangeLoopBody_exhausted l w :
  l_minKey l = None ->
  after (rangeLoopBody false l) w (fun r w' =>
    match r with
    | Some LoopReturn =>
        exhaustedStep w w' /\ rangeIdx (w_fstl w') = length (dbPrefixes (w_fstl w'))
    | Some (LoopNext l') =>
        exhaustedStep w w' /\ l_minKey l' = None /\ l_cmp l' <> 0
    | None => False
    end).
Proof.
  intros Hmin. unfold rangeLoopBody.
  use_spec (after_and _ _ _ _ (rangeCmp_spec false l w) (rangeCmp_no_error false l w)).
  intros r w1 [[-> H] Hr]. destruct r as [cmp|]; [|done].
  destruct (H cmp eq_refl) as (_ & Hnil & _).
  rewrite (Hnil eq_refl Hmin). cbn [Z.eqb andb Z.ltb Z.compare negb].
  wp.
  all: unfold exhaustedStep; psimpl; repeat split; try done.
  by apply Nat.eqb_eq.
Qed.

Lemma rangeLoop_exhausted fuel l w :
  l_minKey l = None -> l_cmp l <> 0 ->
  after (rangeLoop fuel false l) w (fun r w' =>
    r = Some None /\
    exhaustedStep w w' /\ rangeIdx (w_fstl w') = length (dbPrefixes (w_fstl w'))).
Proof.
  revert l w. induction fuel as [|fuel IH]; intros l w Hmin Hcmp;
    cbn [rangeLoop]; destruct (Z.eqb_spec (l_cmp l) 0) as [?|_]; try done.
  use_spec (rangeLoopBody_exhausted l w Hmin).
  intros [[|l']|] w1 H; [| |done].
  - apply after_ret. by destruct H.
  - destruct H as (Hs & Hmin' & Hcmp').
    eapply after_conseq; [by apply IH|]. cbn beta.
    intros r w2 (-> & Hs' & Hidx). repeat split; try done.
    all: unfold exhaustedStep in *; destruct Hs as (?&?&?&?&?&?);
         destruct Hs' as (?&?&?&?&?&?); congruence.
Qed.

Lemma initLocals_no_error first w :
  after (initLocals first) w (fun r _ => r <> None).
Proof. unfold initLocals. wp. done. Qed.

Lemma iteration_exhausted fuel w :
  k (w_fstl w) = None -> ihK (w_fstl w) = None ->
  after (iteration fuel false) w (fun r w' =>
    r = Some tt /\ exhaustedStep w w' /\
    rangeIdx (w_fstl w') = length (dbPrefixes (w_fstl w'))).
Proof.
  intros Hk Hih. unfold iteration, reconcile.
  apply after_bind. apply after_bind.
  eapply after_conseq;
    [apply (after_and _ _ _ _ (initLocals_spec false w) (initLocals_no_error false w))|].
  cbn beta. intros [l|] w1 [[-> H] Hne]; [|done].
  destruct (H l eq_refl) as (Hc & _ & Hkb). specialize (Hkb eq_refl).
  rewrite Hk, Hih in Hkb. cbn in Hkb. injection Hkb as HisIH Hmin.
  eapply after_conseq; [apply (rangeLoop_exhausted fuel l w Hmin); lia|].
  cbn beta. intros r w2 (-> & Hs & Hidx). by apply after_ret.
Qed.

(** C5: when the loop that adjusts the range hands a cached hash over
    ([isIH]) whose key [ihK] consists of bytes 0xff only, so that
    [nextSubtree] overflows, and the hash is emitted (its nibble prefix is
    at least as long as the cutoff, the retention predicate returns false
    for it, the key is not a storage key of another account, and the
    witness-length lookup succeeds), then [iteration] ends with the item
    present, with [k] and [ihK] both nil, and without having touched
    either cursor after the loop.  In every later call of [iteration] for
    which [k] and [ihK] are still nil, the cursors are not touched, [k] and
    [ihK] stay nil, and the only item produced is the [CutoffStreamItem]
    that ends the ranges: [rangeIdx] has reached the number of ranges. *)
Theorem iteration_overflow_ends_range (fuel : nat) (first : bool)
    (w w1 : World) (l : Locals) (key : bytes) (Retain : bytes -> bool) :
  itemPresent (w_fstl w) = false ->
  length (accAddrHashWithInc (w_fstl w)) = 40%nat ->
  reconcile fuel first w = Done (Some l) w1 ->
  l_isIH l = true ->
  ihK (w_fstl w1) = Some key ->
  Forall (fun b => b = 255) key ->
  rl (w_fstl w1) = Some Retain ->
  l_cutoff l <= len (keyToNibblesWithoutInc key []) ->
  Retain (keyToNibblesWithoutInc key []) = false ->
  (len key <= HashLength \/
   HasPrefix key (accAddrHashWithInc (w_fstl w1)) = true) ->
  witnessLenFound (Some key) (w_iwl w1) ->
  (exists w',
     iteration fuel first w = Done tt w' /\
     k (w_fstl w') = None /\ ihK (w_fstl w') = None /\
     itemPresent (w_fstl w') = true /\
     (itemType (w_fstl w') = AHashStreamItem \/
      itemType (w_fstl w') = SHashStreamItem) /\
     w_c w' = w_c w1 /\ w_ih w' = w_ih w1) /\
  (forall fuel2 w2 w3,
     k (w_fstl w2) = None -> ihK (w_fstl w2) = None ->
     iteration fuel2 false w2 = Done tt w3 ->
     w_c w3 = w_c w2 /\ w_ih w3 = w_ih w2 /\
     k (w_fstl w3) = None /\ ihK (w_fstl w3) = None /\
     itemPresent (w_fstl w3) = true /\
     itemType (w_fstl w3) = CutoffStreamItem /\
     rangeIdx (w_fstl w3) = length (dbPrefixes (w_fstl w3))).
Proof.
  intros Hp Hlen Hrec HisIH Hih Hall Hrl Hcut Hret Hacc Hwl. split.
  - pose proof (after_Done _ _ _ _ _ (reconcile_spec fuel first w Hp Hlen) Hrec)
      as (_ & _ & Hmin).
    specialize (Hmin HisIH). rewrite Hih in Hmin.
    destruct (runs_Done _ _ _
                (ihPart_overflow l w1 key Retain Hmin Hih Hall Hrl Hcut Hret Hacc Hwl))
      as ([] & w' & Hrun & HQ).
    exists w'. split; [|exact HQ].
    unfold iteration, bind. rewrite Hrec, HisIH. exact Hrun.
  - intros fuel2 w2 w3 Hk2 Hih2 Hrun.
    pose proof (after_Done _ _ _ _ _ (iteration_exhausted fuel2 w2 Hk2 Hih2) Hrun)
      as (_ & (Hc & Hi & Hk3 & Hih3 & Hpres & Hty) & Hidx).
    repeat split; try done; congruence.
Qed.

(** The walker's witness lengths and the item buffer's agree with the
    latest hash items whenever a hash is pending at a level. *)
Definition invS (ls : option Z) (s : FlatDbSubTrieLoader) : Prop :=
  wasIHStorage s = true ->
  ls = Some (witnessLenStorage s) /\ ls = Some (storageWitnessLen s).
Definition invA (la : option Z) (s : FlatDbSubTrieLoader) : Prop :=
  wasIH s = true ->
  la = Some (witnessLenAccount s) /\ la = Some (accountWitnessLen s).
Definition witnessInv (ls la : option Z) (s : FlatDbSubTrieLoader) : Prop :=
  invS ls s /\ invA la s.

Definition newCalls (ls la : option Z) (w w' : World) : Prop :=
  exists new, w_gen w' = new ++ w_gen w /\ Forall (dataLenAgrees ls la) new.

(** The witness lengths and the account-level flag are kept, the
    storage-level flag is kept or cleared. *)
Definition keeps (w w' : World) : Prop :=
  witnessLenStorage (w_fstl w') = witnessLenStorage (w_fstl w) /\
  storageWitnessLen (w_fstl w') = storageWitnessLen (w_fstl w) /\
  witnessLenAccount (w_fstl w') = witnessLenAccount (w_fstl w) /\
  accountWitnessLen (w_fstl w') = accountWitnessLen (w_fstl w) /\
  wasIH (w_fstl w') = wasIH (w_fstl w) /\
  (wasIHStorage (w_fstl w') = true -> wasIHStorage (w_fstl w) = true).

Definition good (ls la : option Z) (w w' : World) : Prop :=
  newCalls ls la w w' /\ keeps w w'.

Lemma good_refl ls la w : good ls la w w.
Proof. split; [exists []; by split|]. by repeat split. Qed.

Lemma invS_keeps ls w w' :
  invS ls (w_fstl w) -> keeps w w' -> invS ls (w_fstl w').
Proof.
  intros HS (E1 & E2 & E3 & E4 & E5 & H6) H. rewrite E1, E2. by apply HS, H6.
Qed.

(** [good] from the start up to the world at hand, which is the start's
    successor [w1] with fields updated. *)
Ltac good_solve :=
  lazymatch goal with
  | Hg : good ?ls ?la ?w0 ?w1 |- good ?ls ?la ?w0 _ =>
      let Hn := fresh in let Hk := fresh in
      destruct Hg as [Hn Hk];
      unfold good, newCalls, keeps in *; psimpl;
      destruct Hk as (? & ? & ? & ? & ? & ?);
      (split; [exact Hn|]); repeat split; intros; try assumption; try congruence; auto
  end.

Lemma callGenStructStep_good site c s d ls la w0 w :
  good ls la w0 w ->
  dataLenAgrees ls la (mkGenCall site c s d) ->
  after (callGenStructStep site c s d) w (fun _ w' => good ls la w0 w').
Proof.
  intros [(new & Hnew & Hall) Hk] Hd. unfold callGenStructStep. wp.
  all: unfold good, newCalls, keeps in *; psimpl.
  all: (split; [|exact Hk]).
  all: exists (mkGenCall site c s d :: new); split;
         [by rewrite Hnew|by apply Forall_cons].
Qed.

Lemma fillAccData_good ls la w0 w :
  good ls la w0 w -> after fillAccData w (fun _ w' => good ls la w0 w').
Proof.
  intros Hg. unfold fillAccData. wp.
  destruct Hg as [Hn Hk]. unfold good, newCalls, keeps in *.
  repeat match goal with
         | |- context [if ?b then _ else _] => destruct b
         end; psimpl; by split.
Qed.

Lemma storageData_good (f : FlatDbSubTrieLoader -> Z) site ls la w0 w :
  (forall h s, f (set_hashData h s) = f s) ->
  (wasIHStorage (w_fstl w) = true -> ls = Some (f (w_fstl w))) ->
  (site = InWalkerStorage \/ site = InFinaliseStorageRoot) ->
  good ls la w0 w ->
  after (storageData f) w (fun r w' =>
    good ls la w0 w' /\
    forall d, r = Some d ->
      forall c s, dataLenAgrees ls la (mkGenCall site c s d)).
Proof.
  intros Hf Hls Hsite Hg. unfold storageData. wp.
  - split; [good_solve|]. intros d [= <-] c s.
    unfold dataLenAgrees. cbn [gc_data gc_site]. rewrite !Hf.
    destruct Hsite as [-> | ->]; by apply Hls.
  - split; [good_solve|]. by intros d [= <-] c s.
Qed.

(** From here on the walkers' helpers are used through their lemmas. *)
Ltac wp1 ::=
  lazymatch goal with
  | |- after (bind _ _) _ _ => apply after_bind
  | |- after (ret _) _ _ => apply after_ret
  | |- after getL _ _ => apply after_getL
  | |- after (updL _) _ _ => apply after_updL
  | |- after (modify _) _ _ => apply after_modify
  | |- after panic _ _ => apply after_panic
  | |- after timeout _ _ => apply after_timeout
  | |- after (fail _) _ _ => apply after_fail
  | |- after (index _ _) _ _ => apply after_index; intros ? ?
  | |- after (sliceTo _ _) _ _ => apply after_sliceTo; intros ?
  | |- after (byteAt _ _) _ _ => apply after_byteAt; intros ? ? ?
  | |- after (if ?b then _ else _) _ _ => destruct b eqn:?
  | |- after (match ?x with _ => _ end) _ _ => destruct x eqn:?
  | |- after (orFieldSet _) _ _ => unfold orFieldSet
  | |- after clearFieldSet _ _ => unfold clearFieldSet
  | |- after (appendSubTrie _ _) _ _ => unfold appendSubTrie
  end; cbn beta iota.

Lemma finaliseStorageRoot_good cutoff ls la w0 w :
  invS ls (w_fstl w0) ->
  good ls la w0 w ->
  after (finaliseStorageRoot cutoff) w (fun _ w' => good ls la w0 w').
Proof.
  intros Hi Hg. pose proof (invS_keeps _ _ _ Hi (proj2 Hg)) as HS.
  unfold finaliseStorageRoot. wp; [|good_solve].
  eapply after_conseq;
    [apply (storageData_good storageWitnessLen InFinaliseStorageRoot ls la w0)|].
  - reflexivity.
  - psimpl. intros H'. by apply HS.
  - by right.
  - good_solve.
  - cbn beta. intros [d|] w1 [Hg1 Hd]; [|exact Hg1].
    wp.
    eapply after_conseq; [apply callGenStructStep_good; [exact Hg1|by apply Hd]|].
    cbn beta. intros [[]|] w2 Hg2; [|exact Hg2].
    wp; good_solve.
Qed.

Ltac agree_solve :=
  unfold dataLenAgrees, accDataOf; cbn [gc_data gc_site]; psimpl;
  first [ done
        | repeat match goal with
                 | H : ?x = true -> _ /\ _, H' : ?x = true |- _ =>
                     destruct (H H'); clear H
                 end; congruence ].

(** The end of a walker: from [good] up to the last world [w2] and the
    invariant at the start, the new calls and the invariant at the end. *)
Ltac walker_fin :=
  lazymatch goal with
  | Hg : good ?ls ?la ?w0 ?w2 |- _ =>
      let Hn := fresh in let Hk := fresh in
      let E1 := fresh in let E2 := fresh in let E3 := fresh in
      let E4 := fresh in let E5 := fresh in let H6 := fresh in
      destruct Hg as [Hn Hk];
      unfold good, newCalls, keeps, witnessInv, invS, invA in *; psimpl;
      destruct Hk as (E1 & E2 & E3 & E4 & E5 & H6);
      split; [exact Hn|];
      intros; split; intros;
      rewrite ?E1, ?E2, ?E3, ?E4, ?E5 in *;
      repeat match goal with
             | H : ?x = true -> _, H' : ?x = true |- _ => specialize (H H')
             | H : _ /\ _ |- _ => destruct H
             | H : ?x = ?x -> _ |- _ => specialize (H eq_refl)
             end;
      try done; try (split; congruence); auto
  end.

Ltac none_case :=
  lazymatch goal with
  | Hg : good _ _ _ _ |- _ => destruct Hg; split; [assumption|done]
  end.

Lemma WalkerStorage_spec isIH ri p1 p2 v' h n ls la w :
  (wasIHStorage (w_fstl w) = true -> ls = Some (witnessLenStorage (w_fstl w))) ->
  invA la (w_fstl w) ->
  (isIH = true -> storageWitnessLen (w_fstl w) = n) ->
  after (WalkerStorage isIH ri p1 p2 v' h n) w (fun r w' =>
    newCalls ls la w w' /\
    (r = Some tt -> witnessInv (if isIH then Some n else ls) la (w_fstl w'))).
Proof.
  intros HS HA Hn. pose proof (good_refl ls la w) as Hg.
  unfold WalkerStorage. destruct isIH; cbn [negb]; wp.
  1, 3: (eapply after_conseq;
          [apply (storageData_good witnessLenStorage InWalkerStorage ls la w);
           [reflexivity | psimpl; exact HS | by left | good_solve]|];
         cbn beta; clear Hg; intros [d|] w1 [Hg Hd]; [|none_case];
         wp;
         eapply after_conseq;
           [apply callGenStructStep_good; [exact Hg|by apply Hd]|];
         cbn beta; clear Hg; intros [[]|] w2 Hg; [|none_case];
         wp; walker_fin).
  all: walker_fin.
Qed.


Ltac agree_solve ::=
  unfold dataLenAgrees, accDataOf; cbn [gc_data gc_site]; psimpl;
  first [ done
        | repeat match goal with
                 | H : ?x = true -> _ /\ _, H' : ?x = true |- _ =>
                     destruct (H H'); clear H
                 | H : ?x = ?x -> _ /\ _ |- _ => destruct (H eq_refl); clear H
                 | H : ?x = true -> _, H' : ?x = true |- _ => specialize (H H')
                 | H : ?x = ?x -> _ |- _ => specialize (H eq_refl)
                 end; congruence ].

(** Runs a walker or a finaliser from the world [w0] on, using the lemmas
    of the helpers, up to its last world. *)
Ltac walk ls la w0 :=
  wp;
  lazymatch goal with
  | |- after (finaliseStorageRoot _) _ _ =>
      eapply after_conseq;
        [apply (finaliseStorageRoot_good _ ls la w0); [assumption|good_solve]|];
      let Hg := fresh "Hg" in
      intros [?|] ? Hg; cbn beta in Hg; [walk ls la w0|none_case]
  | |- after (callGenStructStep _ _ _ _) _ _ =>
      eapply after_conseq;
        [apply (callGenStructStep_good _ _ _ _ ls la w0); [good_solve|agree_solve]|];
      let Hg := fresh "Hg" in
      intros [?|] ? Hg; cbn beta in Hg; [walk ls la w0|none_case]
  | |- after fillAccData _ _ =>
      eapply after_conseq; [apply (fillAccData_good ls la w0); good_solve|];
      let Hg := fresh "Hg" in
      intros [?|] ? Hg; cbn beta in Hg; [walk ls la w0|none_case]
  | |- _ => idtac
  end.

Lemma WalkerAccount_spec isIH ri key acc h n ls la w :
  invS ls (w_fstl w) ->
  (wasIH (w_fstl w) = true -> la = Some (witnessLenAccount (w_fstl w))) ->
  (isIH = true -> accountWitnessLen (w_fstl w) = n) ->
  after (WalkerAccount isIH ri key acc h n) w (fun r w' =>
    newCalls ls la w w' /\
    (r = Some tt -> witnessInv ls (if isIH then Some n else la) (w_fstl w'))).
Proof.
  intros HS HA Hn. pose proof (good_refl ls la w) as Hg.
  unfold WalkerAccount. destruct isIH; cbn [negb]; walk ls la w.
  all: walker_fin.
Qed.

Ltac agree_solve ::=
  unfold dataLenAgrees, accDataOf, invS, invA in *; cbn [gc_data gc_site]; psimpl;
  first [ done
        | repeat match goal with
                 | H : ?x = true -> _ /\ _, H' : ?x = true |- _ =>
                     destruct (H H'); clear H
                 | H : ?x = ?x -> _ /\ _ |- _ => destruct (H eq_refl); clear H
                 | H : ?x = true -> _, H' : ?x = true |- _ => specialize (H H')
                 | H : ?x = ?x -> _ |- _ => specialize (H eq_refl)
                 end; congruence ].

Lemma finaliseRoot_spec cutoff ls la w :
  witnessInv ls la (w_fstl w) ->
  after (finaliseRoot cutoff) w (fun r w' =>
    newCalls ls la w w' /\
    (r = Some tt -> witnessInv ls la (w_fstl w'))).
Proof.
  intros [HS HA]. pose proof (good_refl ls la w) as Hg.
  unfold finaliseRoot. walk ls la w.
  all: walker_fin.
Qed.

Lemma deliver_spec it ls la w :
  witnessInv ls la (w_fstl w) ->
  after (deliver it) w (fun r w' =>
    newCalls ls la w w' /\
    (r = Some tt ->
     witnessInv
       (match it with SHashItem _ _ _ n => Some n | _ => ls end)
       (match it with AHashItem _ _ n => Some n | _ => la end)
       (w_fstl w'))).
Proof.
  intros [HS HA]. unfold deliver, dispatch.
  destruct it; unfold fillItem; cbn zeta; wp.
  - eapply after_conseq.
    { apply (WalkerStorage_spec false _ _ _ _ _ _ ls la); psimpl; try done.
      intros H. by apply HS. }
    cbn beta. intros [[]|] w1 [Hn Hi]; [|by split].
    wp. split; [exact Hn|]. intros _. specialize (Hi eq_refl).
    unfold witnessInv, invS, invA in *. psimpl. exact Hi.
  - eapply after_conseq.
    { apply (WalkerStorage_spec true _ _ _ _ _ _ ls la); psimpl; try done.
      intros H. by apply HS. }
    cbn beta. intros [[]|] w1 [Hn Hi]; [|by split].
    wp. split; [exact Hn|]. intros _. specialize (Hi eq_refl).
    unfold witnessInv, invS, invA in *. psimpl. exact Hi.
  - eapply after_conseq.
    { apply (WalkerAccount_spec false _ _ _ _ _ ls la); psimpl; try done.
      intros H. by apply HA. }
    cbn beta. intros [[]|] w1 [Hn Hi]; [|by split].
    wp. split; [exact Hn|]. intros _. specialize (Hi eq_refl).
    unfold witnessInv, invS, invA in *. psimpl. exact Hi.
  - eapply after_conseq.
    { apply (WalkerAccount_spec true _ _ _ _ _ ls la); psimpl; try done.
      intros H. by apply HA. }
    cbn beta. intros [[]|] w1 [Hn Hi]; [|by split].
    wp. split; [exact Hn|]. intros _. specialize (Hi eq_refl).
    unfold witnessInv, invS, invA in *. psimpl. exact Hi.
  - eapply after_conseq.
    { apply (finaliseRoot_spec _ ls la). by split. }
    cbn beta. intros [[]|] w1 [Hn Hi]; [|by split].
    wp. split; [exact Hn|]. intros _. specialize (Hi eq_refl).
    unfold witnessInv, invS, invA in *. psimpl. exact Hi.
Qed.

Definition orElse (a b : option Z) : option Z :=
  match a with Some n => Some n | None => b end.

Lemma last_cons_orElse (x : Z) (l : list Z) :
  last (x :: l) = orElse (last l) (Some x).
Proof. destruct l as [|y l]; [done|]. rewrite last_cons_cons. by destruct (last (y :: l)) eqn:E; [|apply last_None in E]. Qed.

Lemma lastSHashWitnessLen_cons it items :
  lastSHashWitnessLen (it :: items)
  = orElse (lastSHashWitnessLen items)
      (match it with SHashItem _ _ _ n => Some n | _ => None end).
Proof.
  unfold lastSHashWitnessLen. cbn [omap list_omap].
  destruct it; cbn; try (by destruct (last _)).
  apply last_cons_orElse.
Qed.

Lemma lastAHashWitnessLen_cons it items :
  lastAHashWitnessLen (it :: items)
  = orElse (lastAHashWitnessLen items)
      (match it with AHashItem _ _ n => Some n | _ => None end).
Proof.
  unfold lastAHashWitnessLen. cbn [omap list_omap].
  destruct it; cbn; try (by destruct (last _)).
  apply last_cons_orElse.
Qed.

Lemma deliverAll_inv items ls la w w1 :
  witnessInv ls la (w_fstl w) ->
  deliverAll items w = Done tt w1 ->
  witnessInv (orElse (lastSHashWitnessLen items) ls)
             (orElse (lastAHashWitnessLen items) la) (w_fstl w1).
Proof.
  revert ls la w. induction items as [|it items IH]; intros ls la w Hi Hrun.
  - injection Hrun as <-. exact Hi.
  - cbn [deliverAll] in Hrun. unfold bind in Hrun.
    destruct (deliver it w) as [[] w'| | |] eqn:E; try discriminate.
    pose proof (after_Done _ _ _ _ _ (deliver_spec it ls la w Hi) E) as [_ Hi'].
    specialize (IH _ _ _ (Hi' eq_refl) Hrun).
    rewrite lastSHashWitnessLen_cons, lastAHashWitnessLen_cons.
    destruct (lastSHashWitnessLen items), (lastAHashWitnessLen items);
      cbn [orElse] in *; destruct it; exact IH.
Qed.

Lemma Reset_flags database rl' dbPrefixes' fixedbits s :
  wasIH (fst (Reset database rl' dbPrefixes' fixedbits s)) = false /\
  wasIHStorage (fst (Reset database rl' dbPrefixes' fixedbits s)) = false.
Proof.
  unfold Reset. destruct (len' dbPrefixes' =? 0); [by split|].
  destruct database as [kv|]; cbn zeta iota.
  - lazymatch goal with
    | |- context [match boltDB ?x with _ => _ end] => destruct (boltDB x)
    end; by split.
  - lazymatch goal with
    | |- context [match boltDB ?x with _ => _ end] => destruct (boltDB x)
    end; by split.
Qed.

(** C2: start from a loader that [Reset] has prepared and let the driver
    consume any sequence of stream items.  In every call of
    [GenStructStep] made while a further item is consumed, [HashData] at
    the storage level (from [WalkerStorage] or [finaliseStorageRoot])
    carries as [DataLen] the witness length of the latest cached storage
    hash among the items consumed before, and [HashData] at the account
    level (from [WalkerAccount] or [finaliseRoot]) that of the latest cached
    account hash; without such an item no [HashData] is handed over at
    that level. *)
Theorem HashData_witness_length_consistent
    (database : Database) (rl' : option (bytes -> bool))
    (dbPrefixes' : list bytes) (fixedbits : list Z) (s0 : FlatDbSubTrieLoader)
    (c ih iwl : Cursor) (gen0 : list GenCall)
    (items : list Item) (it : Item) (w1 : World) :
  deliverAll items
    (mkWorld (fst (Reset database rl' dbPrefixes' fixedbits s0)) c ih iwl gen0)
  = Done tt w1 ->
  after (deliver it) w1 (fun _ w2 =>
    exists new,
      w_gen w2 = new ++ w_gen w1 /\
      Forall (dataLenAgrees (lastSHashWitnessLen items) (lastAHashWitnessLen items))
        new).
Proof.
  intros Hrun.
  destruct (Reset_flags database rl' dbPrefixes' fixedbits s0) as [HA HS].
  eapply deliverAll_inv with (ls := None) (la := None) in Hrun.
  - assert (E : forall o, orElse o None = o) by (by intros []).
    rewrite !E in Hrun.
    eapply after_conseq; [by apply deliver_spec|]. cbn beta.
    intros r w2 [Hn _]. exact Hn.
  - split; intros H; cbn [w_fstl] in H; congruence.
Qed.


(** ** Further properties of [iteration] *)

Lemma seekIndex_allBefore (p : bytes) (b : list (bytes * bytes)) :
  allBefore p b -> seekIndex p b = length b.
Proof.
  induction 1 as [|[key val] b Hk _ IH]; [done|].
  cbn [seekIndex fst length] in *. rewrite Hk. cbn. by rewrite IH.
Qed.

Lemma cursorAt_end (b : list (bytes * bytes)) (o : list CursorOp) :
  cursorAt (mkCursor b (length b) o) = (None, None).
Proof. unfold cursorAt. cbn [bucket pos]. by rewrite lookup_ge_None_2. Qed.

Lemma runs_seekC key (w : World) Q :
  Q tt
    (set_w_c (snd (SeekTo key (w_c w)))
       (set_w_fstl (set_v (snd (fst (SeekTo key (w_c w))))
                      (set_k (fst (fst (SeekTo key (w_c w)))) (w_fstl w))) w)) ->
  runs (seekC key) w Q.
Proof. unfold runs, seekC. by destruct (SeekTo key (w_c w)) as [[??]?]. Qed.

Lemma runs_seekIH key (w : World) Q :
  Q tt
    (set_w_ih (snd (SeekTo key (w_ih w)))
       (set_w_fstl (set_ihV (snd (fst (SeekTo key (w_ih w))))
                      (set_ihK (fst (fst (SeekTo key (w_ih w)))) (w_fstl w))) w)) ->
  runs (seekIH key) w Q.
Proof. unfold runs, seekIH. by destruct (SeekTo key (w_ih w)) as [[??]?]. Qed.

(** What a pass of the loop keeps in the first call when the range is
    empty. *)
Definition emptyRangeInv (l : Locals) (w : World) : Prop :=
  l_minKey l = None /\ l_cmp l = -1 /\ 0 < l_fixedbytes l /\
  len (l_dbPrefix l) <= HashLength /\
  allBefore (l_dbPrefix l) (bucket (w_c w)) /\
  allBefore (l_dbPrefix l) (bucket (w_ih w)).

Lemma rangeLoopBody_empty_range (l : Locals) (w : World) :
  emptyRangeInv l w ->
  runs (rangeLoopBody true l) w (fun r w' =>
    exists l', r = LoopNext l' /\ emptyRangeInv l' w').
Proof.
  intros (Hmin & Hcmp & Hfb & Hlen & Hc & Hih).
  unfold rangeLoopBody, rangeCmp. rewrite Hmin, Hcmp. cbn [negb].
  apply runs_bind, runs_ret. apply runs_bind, runs_getL.
  cbn [Z.eqb andb Z.ltb Z.compare].
  destruct (Z.ltb_spec HashLength (len (l_dbPrefix l))) as [?|_]; [lia|].
  apply runs_bind, runs_ret. apply runs_bind, runs_seekC.
  apply runs_bind, runs_getL. psimpl.
  rewrite (seekIndex_allBefore _ _ Hc), cursorAt_end. psimpl.
  rewrite andb_false_r.
  apply runs_bind, runs_ret. apply runs_bind, runs_seekIH.
  apply runs_bind, runs_getL. psimpl.
  rewrite (seekIndex_allBefore _ _ Hih), cursorAt_end. psimpl.
  rewrite andb_false_r.
  apply runs_bind, runs_ret. apply runs_bind, runs_getL. psimpl.
  cbn [keyIsBefore]. apply runs_ret.
  eexists. split; [reflexivity|].
  unfold emptyRangeInv. psimpl.
  destruct (Z.eqb_spec (l_fixedbytes l) 0); [lia|]. done.
Qed.

Lemma rangeLoop_empty_range (fuel : nat) (l : Locals) (w : World) :
  emptyRangeInv l w -> rangeLoop fuel true l w = OutOfFuel.
Proof.
  revert l w. induction fuel as [|fuel IH]; intros l w Hinv; cbn [rangeLoop];
    pose proof Hinv as (_ & Hcmp & _); rewrite Hcmp; cbn [Z.eqb];
    [done|].
  destruct (runs_Done _ _ _ (rangeLoopBody_empty_range l w Hinv))
    as (r & w' & Hrun & l' & -> & Hinv').
  unfold bind. rewrite Hrun. by apply IH.
Qed.

(** X8.  The first call of [iteration] never returns when the range it
    starts in fixes some bits and holds no key: if the range's prefix is at
    most 32 bytes long, at least one byte of it is fixed, and every key of
    the state bucket and of the bucket of cached hashes sorts before the
    prefix, then the loop that adjusts the range runs for ever (in the
    model: whatever the fuel, the run ends by exhausting it), and so does
    [LoadSubTries]. *)
Theorem LoadSubTries_empty_first_range_diverges
    (fuel : nat) (s : FlatDbSubTrieLoader) (store : BoltDB)
    (p : bytes) (fb co m : Z) :
  boltDB s = Some store ->
  dbPrefixes s !! rangeIdx s = Some p ->
  fixedbytes s !! rangeIdx s = Some fb ->
  cutoffs s !! rangeIdx s = Some co ->
  masks s !! rangeIdx s = Some m ->
  0 < fb -> len p <= HashLength ->
  allBefore p (CurrentStateBucket store) ->
  allBefore p (IntermediateTrieHashBucket store) ->
  LoadSubTries fuel s = OutOfFuel.
Proof.
  intros Hdb Hp Hfb Hco Hm Hpos Hlen Hc Hih.
  unfold LoadSubTries. rewrite Hdb.
  destruct (Z.eqb_spec (len' (dbPrefixes s)) 0) as [E|_].
  { destruct (dbPrefixes s); [by rewrite lookup_nil in Hp|]. unfold len' in E. cbn in E. lia. }
  unfold loadInTx, iteration, reconcile, initLocals, bind at 1 2 3 4.
  unfold getL at 1. psimpl. cbn [negb].
  unfold index. rewrite Hfb, Hco, Hp, Hm. unfold bind, ret.
  rewrite rangeLoop_empty_range; [done|].
  unfold emptyRangeInv. psimpl. unfold newCursor. psimpl. done.
Qed.


(** ** What a piece of the loader leaves alone *)

(** [leaves proj m]: a run of [m] that ends, with a result or an [error],
    leaves the part [proj] of the world as it was. *)
Definition leaves {T A} (proj : World -> T) (m : M World A) : Prop :=
  forall w, after m w (fun _ w' => proj w' = proj w).

Lemma leaves_bind {T A B} (proj : World -> T) (m : M World A) (f : A -> M World B) :
  leaves proj m -> (forall x, leaves proj (f x)) -> leaves proj (bind m f).
Proof.
  intros Hm Hf w. apply after_bind. eapply after_conseq; [apply Hm|].
  cbn beta. intros [x|] w1 E; [|exact E].
  eapply after_conseq; [apply Hf|]. cbn beta. intros _ w2 E2. congruence.
Qed.

Lemma leaves_ret {T A} (proj : World -> T) (x : A) : leaves proj (ret x).
Proof. by intros w. Qed.

Lemma leaves_fail {T A} (proj : World -> T) e : leaves proj (fail (A := A) e).
Proof. by intros w. Qed.

Lemma leaves_panic {T A} (proj : World -> T) : leaves proj (panic (A := A)).
Proof. by intros w. Qed.

Lemma leaves_timeout {T A} (proj : World -> T) : leaves proj (timeout (A := A)).
Proof. by intros w. Qed.

Lemma leaves_getL {T} (proj : World -> T) : leaves proj getL.
Proof. by intros w. Qed.

Lemma leaves_updL {T} (proj : World -> T) f :
  (forall w, proj (set_w_fstl (f (w_fstl w)) w) = proj w) -> leaves proj (updL f).
Proof. intros H w. apply after_updL, H. Qed.

Lemma leaves_modify {T} (proj : World -> T) f :
  (forall w, proj (f w) = proj w) -> leaves proj (modify f).
Proof. intros H w. apply after_modify, H. Qed.

Lemma leaves_index {T A} (proj : World -> T) (l : list A) i : leaves proj (index l i).
Proof. intros w. by apply after_index. Qed.

Lemma leaves_sliceTo {T} (proj : World -> T) b n : leaves proj (sliceTo b n).
Proof. intros w. by apply after_sliceTo. Qed.

Lemma leaves_byteAt {T} (proj : World -> T) b i : leaves proj (byteAt b i).
Proof. intros w. by apply after_byteAt. Qed.

(** The rule for the command at the head; an update of the loader leaves
    the part alone when the part of the updated world computes to the part
    of the world. *)
Ltac leaves1 :=
  lazymatch goal with
  | |- leaves _ (bind _ _) => apply leaves_bind; [|intros ?]
  | |- leaves _ (ret _) => apply leaves_ret
  | |- leaves _ (fail _) => apply leaves_fail
  | |- leaves _ panic => apply leaves_panic
  | |- leaves _ timeout => apply leaves_timeout
  | |- leaves _ getL => apply leaves_getL
  | |- leaves _ (updL _) =>
      apply leaves_updL; intros ?; psimpl;
      repeat match goal with
             | |- context [if ?c then _ else _] => destruct c
             end; reflexivity
  | |- leaves _ (modify _) => apply leaves_modify; intros ?; psimpl; reflexivity
  | |- leaves _ (index _ _) => apply leaves_index
  | |- leaves _ (sliceTo _ _) => apply leaves_sliceTo
  | |- leaves _ (byteAt _ _) => apply leaves_byteAt
  | |- leaves _ (if ?b then _ else _) => destruct b
  | |- leaves _ (match ?x with _ => _ end) => destruct x
  | |- leaves _ (storageData _) => unfold storageData
  | |- leaves _ fillAccData => unfold fillAccData
  | |- leaves _ (orFieldSet _) => unfold orFieldSet
  | |- leaves _ clearFieldSet => unfold clearFieldSet
  | |- leaves _ (callGenStructStep _ _ _ _) => unfold callGenStructStep
  end; cbn beta iota.

Ltac leaves_auto := repeat (first [assumption | leaves1]).

Lemma finaliseStorageRoot_leaves_iterationState cutoff :
  leaves iterationState (finaliseStorageRoot cutoff).
Proof. unfold finaliseStorageRoot, iterationState. leaves_auto. Qed.

Lemma WalkerStorage_leaves_iterationState isIH ri p1 p2 v' h n :
  leaves iterationState (WalkerStorage isIH ri p1 p2 v' h n).
Proof. unfold WalkerStorage, iterationState. leaves_auto. Qed.

Lemma WalkerAccount_leaves_iterationState isIH ri key acc h n :
  leaves iterationState (WalkerAccount isIH ri key acc h n).
Proof.
  unfold WalkerAccount.
  repeat (lazymatch goal with
          | |- leaves _ (finaliseStorageRoot _) =>
              apply finaliseStorageRoot_leaves_iterationState
          | |- _ => unfold iterationState; leaves1; fold iterationState
          end).
Qed.

Lemma finaliseRoot_leaves_iterationState cutoff :
  leaves iterationState (finaliseRoot cutoff).
Proof.
  unfold finaliseRoot, appendSubTrie.
  repeat (lazymatch goal with
          | |- leaves _ (finaliseStorageRoot _) =>
              apply finaliseStorageRoot_leaves_iterationState
          | |- _ => unfold iterationState; leaves1; fold iterationState
          end).
Qed.

Lemma dispatch_leaves : leaves iterationState dispatch.
Proof.
  unfold dispatch. apply leaves_bind; [apply leaves_getL|]. intros s.
  destruct (itemType s);
    lazymatch goal with
    | |- leaves _ (ret _) => apply leaves_ret
    | |- leaves _ (WalkerStorage _ _ _ _ _ _ _) => apply WalkerStorage_leaves_iterationState
    | |- leaves _ (WalkerAccount _ _ _ _ _ _) => apply WalkerAccount_leaves_iterationState
    | |- leaves _ (finaliseRoot _) => apply finaliseRoot_leaves_iterationState
    end.
Qed.

(** X9.  Consuming a stream item never touches what [iteration] works on:
    whatever the item, its dispatch to [WalkerStorage], [WalkerAccount] or
    [finaliseRoot], if it ends (with or without an [error]), leaves the
    three cursors, the keys and values read from them, the ranges and the
    range index, the retention predicate, the key buffers of [iteration]
    and the item buffer as they were. *)
Theorem dispatch_leaves_iterationState (w : World) :
  after dispatch w (fun _ w' => iterationState w' = iterationState w).
Proof. apply dispatch_leaves. Qed.

(** ** The result list *)

Lemma after_bind_leaves {T A B} (proj : World -> T) (m : M World A)
    (f : A -> M World B) (w : World) Q :
  leaves proj m ->
  (forall w1, proj w1 = proj w -> Q None w1) ->
  (forall x w1, proj w1 = proj w -> after (f x) w1 Q) ->
  after (bind m f) w Q.
Proof.
  intros Hm HN HS. apply after_bind. eapply after_conseq; [apply Hm|].
  cbn beta. intros [x|] w1 E; [by apply HS | by apply HN].
Qed.

Lemma finaliseStorageRoot_leaves_subTries cutoff :
  leaves subTriesOf (finaliseStorageRoot cutoff).
Proof. unfold finaliseStorageRoot, subTriesOf. leaves_auto. Qed.

Lemma WalkerStorage_leaves_subTries isIH ri p1 p2 v' h n :
  leaves subTriesOf (WalkerStorage isIH ri p1 p2 v' h n).
Proof. unfold WalkerStorage, subTriesOf. leaves_auto. Qed.

Ltac leaves_subTries :=
  repeat (lazymatch goal with
          | |- leaves _ (finaliseStorageRoot _) =>
              apply finaliseStorageRoot_leaves_subTries
          | |- _ => unfold subTriesOf; leaves1; fold subTriesOf
          end).

Lemma WalkerAccount_leaves_subTries isIH ri key acc h n :
  leaves subTriesOf (WalkerAccount isIH ri key acc h n).
Proof. unfold WalkerAccount. leaves_subTries. Qed.

(** One root and its hash appended to the result list. *)
Definition oneAppended (st st' : SubTries node) : Prop :=
  exists root h,
    roots st' = roots st ++ [root] /\ Hashes st' = Hashes st ++ [h].

Lemma finaliseRoot_subTries (cutoff : Z) (w : World) :
  after (finaliseRoot cutoff) w (fun r w' =>
    match r with
    | Some _ => oneAppended (subTriesOf w) (subTriesOf w')
    | None => subTriesOf w' = subTriesOf w
    end).
Proof.
  unfold finaliseRoot.
  destruct (2 * HashLength <=? cutoff).
  - apply (after_bind_leaves subTriesOf);
      [apply finaliseStorageRoot_leaves_subTries | done |].
    intros ok w1 E. apply after_bind, after_getL.
    destruct ok; unfold appendSubTrie; apply after_updL;
      unfold subTriesOf, oneAppended in *; psimpl; rewrite E; eauto.
  - repeat (apply (after_bind_leaves subTriesOf);
            [ solve [leaves_subTries] | intros; congruence
            | let E := fresh "E" in
              intros ? ? E; try (rewrite <- E; clear E) ]).
    apply after_bind. unfold appendSubTrie at 1. apply after_updL.
    repeat (apply after_bind; apply after_updL).
    apply after_updL. unfold subTriesOf, oneAppended in *. psimpl. eauto.
Qed.


(** X10.  [finaliseRoot] appends exactly one entry to the result: when it
    returns without an [error], [roots] and [Hashes] have each grown by one
    element at the end, whatever the cutoff and the state of the buffers;
    when it returns an [error] (from [GenStructStep]), nothing has been
    appended. *)
Theorem finaliseRoot_appends_one (cutoff : Z) (w : World) :
  after (finaliseRoot cutoff) w (fun r w' =>
    match r with
    | Some _ =>
        exists root h,
          roots (subTries (w_fstl w')) = roots (subTries (w_fstl w)) ++ [root] /\
          Hashes (subTries (w_fstl w')) = Hashes (subTries (w_fstl w)) ++ [h]
    | None => subTries (w_fstl w') = subTries (w_fstl w)
    end).
Proof. apply finaliseRoot_subTries. Qed.

(** ** Ranges and entries of the result *)

(** The full set of rules for one step of a run. *)
Ltac step1 :=
  lazymatch goal with
  | |- after (bind _ _) _ _ => apply after_bind
  | |- after (ret _) _ _ => apply after_ret
  | |- after getL _ _ => apply after_getL
  | |- after (updL _) _ _ => apply after_updL
  | |- after (modify _) _ _ => apply after_modify
  | |- after panic _ _ => apply after_panic
  | |- after timeout _ _ => apply after_timeout
  | |- after (fail _) _ _ => apply after_fail
  | |- after (seekC _) _ _ => apply after_seekC
  | |- after nextC _ _ => apply after_nextC
  | |- after (seekIH _) _ _ => apply after_seekIH
  | |- after nextIH _ _ => apply after_nextIH
  | |- after (index _ _) _ _ => apply after_index; intros ? ?
  | |- after (sliceTo _ _) _ _ => apply after_sliceTo; intros ?
  | |- after (byteAt _ _) _ _ => apply after_byteAt; intros ? ? ?
  | |- after (getWitnessLen _) _ _ => apply after_getWitnessLen; intros ?
  | |- after (if ?b then _ else _) _ _ => destruct b eqn:?
  | |- after (match ?x with _ => _ end) _ _ => destruct x eqn:?
  | |- after toNextAccountC _ _ => unfold toNextAccountC
  | |- after toNextAccountIH _ _ => unfold toNextAccountIH
  | |- after (copyPrefixToAcc _) _ _ => unfold copyPrefixToAcc
  | |- after (setStorageKeyParts _) _ _ => unfold setStorageKeyParts
  end; cbn beta iota.

Ltac steps := repeat (step1; psimpl).

(** How a call of [iteration] moves through the ranges: the prefixes and
    the result list stay, the range index does not decrease, and a
    [CutoffStreamItem] that is present afterwards was present before or
    comes with an increase of the range index. *)
Definition rangeStep (w w' : World) : Prop :=
  dbPrefixes (w_fstl w') = dbPrefixes (w_fstl w) /\
  subTriesOf w' = subTriesOf w /\
  (rangeIdx (w_fstl w) <= rangeIdx (w_fstl w'))%nat /\
  (itemPresent (w_fstl w') = true -> itemType (w_fstl w') = CutoffStreamItem ->
   (itemPresent (w_fstl w) = true /\ itemType (w_fstl w) = CutoffStreamItem) \/
   (rangeIdx (w_fstl w) < rangeIdx (w_fstl w'))%nat).

Lemma rangeStep_refl w : rangeStep w w.
Proof. unfold rangeStep. repeat split; auto. Qed.

Lemma rangeStep_trans w1 w2 w3 : rangeStep w1 w2 -> rangeStep w2 w3 -> rangeStep w1 w3.
Proof.
  unfold rangeStep. intros (D1 & S1 & R1 & I1) (D2 & S2 & R2 & I2).
  repeat split; try congruence; try lia.
  intros P T. destruct (I2 P T) as [[P2 T2]|L]; [|right; lia].
  destruct (I1 P2 T2) as [?|L]; [by left | right; lia].
Qed.

Lemma rangeCmp_same first l w :
  after (rangeCmp first l) w (fun _ w' => w' = w).
Proof. eapply after_conseq; [apply rangeCmp_spec|]. by intros r w' [-> _]. Qed.

Ltac rangeStep_solve :=
  unfold rangeStep, subTriesOf; psimpl;
  repeat split; intros; try done; try lia; try (right; lia); auto.

Lemma rangeLoopBody_rangeStep first l w :
  after (rangeLoopBody first l) w (fun r w' =>
    rangeStep w w' /\
    match r with
    | Some (LoopNext _) =>
        (rangeIdx (w_fstl w) < length (dbPrefixes (w_fstl w)))%nat ->
        (rangeIdx (w_fstl w') < length (dbPrefixes (w_fstl w')))%nat
    | Some LoopReturn =>
        (rangeIdx (w_fstl w) < length (dbPrefixes (w_fstl w)))%nat ->
        (rangeIdx (w_fstl w') <= length (dbPrefixes (w_fstl w')))%nat
    | None => True
    end).
Proof.
  unfold rangeLoopBody. use_spec rangeCmp_same.
  intros r w1 ->. destruct r as [cmp|]; [|split; [apply rangeStep_refl|done]].
  steps.
  all: split; [rangeStep_solve|]; try done; psimpl; try lia.
  all: intros; destruct first; cbn [negb] in *; psimpl;
       repeat match goal with
              | H : (_ =? _)%nat = true |- _ => apply Nat.eqb_eq in H
              | H : dbPrefixes _ !! _ = Some _ |- _ => apply lookup_lt_Some in H
              end;
       psimpl; lia.
Qed.

Lemma rangeLoop_rangeStep fuel first l w :
  after (rangeLoop fuel first l) w (fun r w' =>
    rangeStep w w' /\
    (r <> None ->
     (rangeIdx (w_fstl w) < length (dbPrefixes (w_fstl w)))%nat ->
     (rangeIdx (w_fstl w') <= length (dbPrefixes (w_fstl w')))%nat)).
Proof.
  revert l w. induction fuel as [|fuel IH]; intros l w; cbn [rangeLoop];
    (destruct (l_cmp l =? 0);
     [apply after_ret; split; [apply rangeStep_refl | lia]|]);
    [apply after_timeout|].
  use_spec rangeLoopBody_rangeStep.
  intros [[|l']|] w1 [Hs Hb].
  - apply after_ret. split; [exact Hs|]. intros _. exact Hb.
  - eapply after_conseq; [apply IH|]. cbn beta. intros r w2 [Hs2 Hb2].
    split; [by eapply rangeStep_trans|]. intros Hr Hlt. apply Hb2; auto.
  - split; [exact Hs | done].
Qed.

(** After the loop: the item comes from one of the buckets, or none is
    produced. *)
Definition itemStep (w w' : World) : Prop :=
  dbPrefixes (w_fstl w') = dbPrefixes (w_fstl w) /\
  subTriesOf w' = subTriesOf w /\
  rangeIdx (w_fstl w') = rangeIdx (w_fstl w) /\
  ((itemPresent (w_fstl w') = itemPresent (w_fstl w) /\
    itemType (w_fstl w') = itemType (w_fstl w)) \/
   (itemPresent (w_fstl w') = true /\ itemType (w_fstl w') <> CutoffStreamItem)).

Lemma itemStep_rangeStep w w' : itemStep w w' -> rangeStep w w'.
Proof.
  unfold itemStep, rangeStep. intros (D & S & R & [[P T]|[P T]]).
  - repeat split; try done; try lia. intros. left. split; congruence.
  - repeat split; try done; try lia.
Qed.

Ltac itemStep_solve :=
  unfold itemStep, subTriesOf; psimpl;
  repeat split; try done;
  first [ left; split; reflexivity | right; split; [reflexivity | discriminate] ].

Lemma leafPart_itemStep w : after leafPart w (fun _ w' => itemStep w w').
Proof. unfold leafPart. steps. all: itemStep_solve. Qed.

Lemma ihPart_itemStep l w : after (ihPart l) w (fun _ w' => itemStep w w').
Proof. unfold ihPart. steps. all: itemStep_solve. Qed.

Lemma initLocals_same first w :
  after (initLocals first) w (fun r w' =>
    w' = w /\
    (r <> None -> (rangeIdx (w_fstl w) < length (dbPrefixes (w_fstl w)))%nat)).
Proof.
  unfold initLocals. steps. split; [done|]. intros _.
  by eapply lookup_lt_Some.
Qed.

Lemma iteration_rangeStep fuel first w :
  after (iteration fuel first) w (fun r w' =>
    rangeStep w w' /\
    (r <> None -> (rangeIdx (w_fstl w') <= length (dbPrefixes (w_fstl w')))%nat)).
Proof.
  unfold iteration, reconcile. apply after_bind. use_spec initLocals_same.
  intros [l|] w1 [-> Hlt]; [|split; [apply rangeStep_refl|done]].
  eapply after_conseq; [apply rangeLoop_rangeStep|]. cbn beta.
  intros [[l'|]|] w2 [Hs Hb]; [| |split; [exact Hs|done]].
  - assert (Hle : (rangeIdx (w_fstl w2) <= length (dbPrefixes (w_fstl w2)))%nat)
      by (apply Hb; [done | by apply Hlt]).
    destruct (negb (l_isIH l')).
    + eapply after_conseq; [apply leafPart_itemStep|]. cbn beta.
      intros r w3 Hi. split; [eapply rangeStep_trans; [exact Hs|by apply itemStep_rangeStep]|].
      intros _. destruct Hi as (-> & _ & -> & _). exact Hle.
    + eapply after_conseq; [apply ihPart_itemStep|]. cbn beta.
      intros r w3 Hi. split; [eapply rangeStep_trans; [exact Hs|by apply itemStep_rangeStep]|].
      intros _. destruct Hi as (-> & _ & -> & _). exact Hle.
  - apply after_ret. split; [exact Hs|]. intros _. apply Hb; [done | by apply Hlt].
Qed.


Lemma dispatch_entries (w : World) :
  after dispatch w (fun r w' =>
    iterationState w' = iterationState w /\
    (r <> None ->
     match itemType (w_fstl w) with
     | CutoffStreamItem => oneAppended (subTriesOf w) (subTriesOf w')
     | _ => subTriesOf w' = subTriesOf w
     end)).
Proof.
  apply after_and; [apply dispatch_leaves|].
  unfold dispatch. apply after_bind, after_getL.
  destruct (itemType (w_fstl w)) eqn:T.
  - by apply after_ret.
  - eapply after_conseq; [apply WalkerStorage_leaves_subTries|]. done.
  - eapply after_conseq; [apply WalkerStorage_leaves_subTries|]. done.
  - eapply after_conseq; [apply WalkerAccount_leaves_subTries|]. done.
  - eapply after_conseq; [apply WalkerAccount_leaves_subTries|]. done.
  - eapply after_conseq; [apply finaliseRoot_subTries|]. cbn beta.
    intros [[]|] w' H; done.
Qed.

(** What the driver keeps: [roots] and [Hashes] have the same length, and
    the entries, with a pending cutoff item counted in, are not more than
    the ranges left behind. *)
Definition entriesInv (P : list bytes) (w : World) : Prop :=
  dbPrefixes (w_fstl w) = P /\
  length (roots (subTriesOf w)) = length (Hashes (subTriesOf w)) /\
  (length (roots (subTriesOf w)) + pendingCutoff (w_fstl w) <= rangeIdx (w_fstl w))%nat /\
  (rangeIdx (w_fstl w) <= length P)%nat.

Lemma iteration_entriesInv fuel first P w :
  entriesInv P w -> itemPresent (w_fstl w) = false ->
  after (iteration fuel first) w (fun r w' => r <> None -> entriesInv P w').
Proof.
  intros (HP & HL & HN & HR) Hno.
  eapply after_conseq; [apply iteration_rangeStep|]. cbn beta.
  intros r w' [(D & S & R & I) Hb] Hr. specialize (Hb Hr).
  unfold entriesInv, pendingCutoff in *. rewrite Hno in HN, I.
  rewrite S, D, HP in *. repeat split; try done.
  destruct (itemPresent (w_fstl w')); [|lia].
  destruct (itemType (w_fstl w')); try lia.
  destruct (I eq_refl eq_refl) as [[? _]|?]; [done | lia].
Qed.

Lemma untilItemPresent_entriesInv fuel n P w :
  entriesInv P w ->
  after (untilItemPresent fuel n) w (fun r w' => r <> None -> entriesInv P w').
Proof.
  revert w. induction n as [|n IH]; intros w Hinv; cbn [untilItemPresent];
    apply after_bind, after_getL;
    destruct (itemPresent (w_fstl w)) eqn:Hp; cbn [negb];
    try (by apply after_ret); [apply after_timeout|].
  apply after_bind. eapply after_conseq; [by apply iteration_entriesInv|].
  cbn beta. intros [[]|] w1 H; [|done]. apply IH. by apply H.
Qed.

Lemma consume_entriesInv P w :
  entriesInv P w ->
  after (let! s := getL in
         if itemPresent s then
           do! dispatch in
           updL (set_itemPresent false)
         else ret tt) w
    (fun r w' => r <> None -> entriesInv P w').
Proof.
  intros (HP & HL & HN & HR). apply after_bind, after_getL.
  destruct (itemPresent (w_fstl w)) eqn:Hp; [|by apply after_ret].
  apply after_bind. eapply after_conseq; [apply dispatch_entries|]. cbn beta.
  intros [[]|] w1 [Hi Hs]; [|done]. apply after_updL. intros _.
  specialize (Hs ltac:(done)).
  assert (Hr : is_ranges (iterationState w1) = is_ranges (iterationState w))
    by (by rewrite Hi).
  cbn in Hr. injection Hr as HrD _ _ _ HrI.
  unfold entriesInv, pendingCutoff, subTriesOf in *. psimpl.
  rewrite HrD, HrI, Hp in *.
  destruct (itemType (w_fstl w));
    try (rewrite Hs; repeat split; try done; lia).
  destruct Hs as (root & h & -> & ->).
  rewrite !length_app. cbn [length]. repeat split; try done; lia.
Qed.

Lemma rangesLoop_entriesInv fuel n P w :
  entriesInv P w ->
  after (rangesLoop fuel n) w (fun r w' => r <> None -> entriesInv P w').
Proof.
  revert w. induction n as [|n IH]; intros w Hinv; cbn [rangesLoop];
    apply after_bind, after_getL;
    destruct (rangeIdx (w_fstl w) <? length (dbPrefixes (w_fstl w)))%nat;
    try (by apply after_ret); [apply after_timeout|].
  apply after_bind.
  eapply after_conseq; [by apply untilItemPresent_entriesInv|]. cbn beta.
  intros [[]|] w1 H1; [|done]. specialize (H1 ltac:(done)).
  pose proof (consume_entriesInv P w1 H1) as Hc.
  unfold bind at 1 in Hc. unfold getL in Hc. unfold after in Hc |- *.
  unfold bind at 1. unfold getL. unfold bind at 1.
  destruct (if itemPresent (w_fstl w1) then _ else _) as [[] w2|e w2| |] eqn:E;
    try done.
  specialize (Hc ltac:(done)). apply (IH w2 Hc).
Qed.

(** X11.  [Reset] followed by [LoadSubTries] never returns more entries
    than ranges were asked for: when the load returns, [roots] and [Hashes]
    have the same length, and that length is at most the number of
    prefixes given to [Reset]. *)
Theorem resetAndLoad_entries_bounded (fuel : nat) (database : Database)
    (rl' : option (bytes -> bool)) (dbPrefixes' : list bytes) (fixedbits : list Z)
    (s s' : FlatDbSubTrieLoader) (st : SubTries node) :
  resetAndLoad fuel database rl' dbPrefixes' fixedbits s = Done st s' ->
  length (roots st) = length (Hashes st) /\
  (length (roots st) <= length dbPrefixes')%nat.
Proof.
  unfold resetAndLoad.
  destruct (Reset database rl' dbPrefixes' fixedbits s) as [s1 [e|]] eqn:ER;
    [discriminate|].
  assert (H1 : dbPrefixes s1 = dbPrefixes' /\ subTries s1 = mkSubTries [] [] /\
               rangeIdx s1 = 0%nat /\ itemPresent s1 = false).
  { unfold Reset in ER. destruct (len' dbPrefixes' =? 0).
    - by injection ER as <-.
    - destruct database as [kv|]; cbn zeta iota in ER;
        lazymatch type of ER with
        | context [match boltDB ?x with _ => _ end] => destruct (boltDB x)
        end; try discriminate; by injection ER as <-. }
  destruct H1 as (HD & HS & HR & HP).
  unfold LoadSubTries. destruct (len' (dbPrefixes s1) =? 0).
  { intros [= <- <-]. cbn. split; [done | lia]. }
  destruct (boltDB s1) as [store|]; [|discriminate].
  set (w := mkWorld s1 _ _ _ _).
  assert (Hinv : entriesInv dbPrefixes' w).
  { unfold entriesInv, subTriesOf, pendingCutoff. subst w. psimpl.
    rewrite HD, HS, HR, HP. cbn. repeat split; lia. }
  assert (Hload : after (loadInTx fuel) w (fun r w' => r <> None -> entriesInv dbPrefixes' w')).
  { unfold loadInTx. apply after_bind.
    eapply after_conseq; [apply (iteration_entriesInv fuel true _ w Hinv); exact HP|].
    cbn beta. intros [[]|] w1 H; [|done]. apply rangesLoop_entriesInv. by apply H. }
  unfold after in Hload. destruct (loadInTx fuel w) as [[] w'|e w'| |]; try discriminate.
  intros [= <- <-]. destruct (Hload ltac:(done)) as (_ & HL & HN & HRr).
  unfold subTriesOf in *. split; [exact HL | lia].
Qed.


(** ** What [iteration] leaves alone *)

Lemma leaves_seekC {T} (proj : World -> T) key :
  (forall w k' v' c',
     proj (set_w_c c' (set_w_fstl (set_v v' (set_k k' (w_fstl w))) w)) = proj w) ->
  leaves proj (seekC key).
Proof. intros H w. apply after_seekC, H. Qed.

Lemma leaves_nextC {T} (proj : World -> T) :
  (forall w k' v' c',
     proj (set_w_c c' (set_w_fstl (set_v v' (set_k k' (w_fstl w))) w)) = proj w) ->
  leaves proj nextC.
Proof. intros H w. apply after_nextC, H. Qed.

Lemma leaves_seekIH {T} (proj : World -> T) key :
  (forall w k' v' c',
     proj (set_w_ih c' (set_w_fstl (set_ihV v' (set_ihK k' (w_fstl w))) w)) = proj w) ->
  leaves proj (seekIH key).
Proof. intros H w. apply after_seekIH, H. Qed.

Lemma leaves_nextIH {T} (proj : World -> T) :
  (forall w k' v' c',
     proj (set_w_ih c' (set_w_fstl (set_ihV v' (set_ihK k' (w_fstl w))) w)) = proj w) ->
  leaves proj nextIH.
Proof. intros H w. apply after_nextIH, H. Qed.

Lemma leaves_getWitnessLen {T} (proj : World -> T) prefix :
  (forall w c', proj (set_w_iwl c' w) = proj w) ->
  leaves proj (getWitnessLen prefix).
Proof. intros H w. apply after_getWitnessLen; intros n; [done | apply H]. Qed.

(** The rules of [leaves1] and those for the cursors. *)
Ltac leaves2 :=
  lazymatch goal with
  | |- leaves _ (seekC _) => apply leaves_seekC; intros; psimpl; reflexivity
  | |- leaves _ nextC => apply leaves_nextC; intros; psimpl; reflexivity
  | |- leaves _ (seekIH _) => apply leaves_seekIH; intros; psimpl; reflexivity
  | |- leaves _ nextIH => apply leaves_nextIH; intros; psimpl; reflexivity
  | |- leaves _ (getWitnessLen _) =>
      apply leaves_getWitnessLen; intros; psimpl; reflexivity
  | |- leaves _ toNextAccountC => unfold toNextAccountC
  | |- leaves _ toNextAccountIH => unfold toNextAccountIH
  | |- leaves _ (copyPrefixToAcc _) => unfold copyPrefixToAcc
  | |- leaves _ (setStorageKeyParts _) => unfold setStorageKeyParts
  | |- leaves _ (rangeCmp _ _) => unfold rangeCmp
  | |- _ => leaves1
  end; cbn beta iota.

Lemma rangeLoopBody_leaves_walkerState first l :
  leaves walkerState (rangeLoopBody first l).
Proof. unfold rangeLoopBody, walkerState. repeat leaves2. Qed.

Lemma rangeLoop_leaves_walkerState fuel first l :
  leaves walkerState (rangeLoop fuel first l).
Proof.
  revert l. induction fuel as [|fuel IH]; intros l; cbn [rangeLoop];
    (destruct (l_cmp l =? 0); [apply leaves_ret|]); [apply leaves_timeout|].
  apply leaves_bind; [apply rangeLoopBody_leaves_walkerState|].
  intros [|l']; [apply leaves_ret | apply IH].
Qed.

Lemma leafPart_leaves_walkerState : leaves walkerState leafPart.
Proof. unfold leafPart, walkerState. repeat leaves2. Qed.

Lemma ihPart_leaves_walkerState l : leaves walkerState (ihPart l).
Proof. unfold ihPart, walkerState. repeat leaves2. Qed.

(** X12.  [iteration] never touches what the walkers work on: a call that
    ends, with or without an [error], makes no call of [GenStructStep] and
    leaves the hash builder and its groups, the nibble buffers [curr],
    [succ], [currStorage] and [succStorage], the values and witness lengths
    kept for the pending items, the account, the data records and the
    result list as they were. *)
Theorem iteration_leaves_walkerState (fuel : nat) (first : bool) (w : World) :
  after (iteration fuel first) w (fun _ w' => walkerState w' = walkerState w).
Proof.
  revert w. change (leaves walkerState (iteration fuel first)).
  unfold iteration, reconcile, initLocals.
  apply leaves_bind.
  - apply leaves_bind; [|intros l; apply rangeLoop_leaves_walkerState].
    unfold walkerState. repeat leaves2.
  - intros [l|]; [|apply leaves_ret].
    destruct (negb (l_isIH l));
      [apply leafPart_leaves_walkerState | apply ihPart_leaves_walkerState].
Qed.


Lemma runs_nextIH (w : World) Q :
  Q tt
    (set_w_ih (snd (Next (w_ih w)))
       (set_w_fstl (set_ihV (snd (fst (Next (w_ih w))))
                      (set_ihK (fst (fst (Next (w_ih w)))) (w_fstl w))) w)) ->
  runs nextIH w Q.
Proof. unfold runs, nextIH. by destruct (Next (w_ih w)) as [[??]?]. Qed.

(** X13.  A cached hash that is not to be used is never handed over: when
    the loop that adjusts the range picks the key of a cached hash
    ([isIH]) and either its nibble string is shorter than the cutoff of
    the range or the retention predicate returns true for it, [iteration]
    returns without an [error] after one [Next] on the cursor of the cached
    hashes (the descent to the entries below), and it touches neither the
    cursor of the state bucket nor the item flag and the item buffer. *)
Theorem iteration_retained_hash_descends (fuel : nat) (first : bool)
    (w w1 : World) (l : Locals) :
  reconcile fuel first w = Done (Some l) w1 ->
  l_isIH l = true ->
  (len (keyToNibblesWithoutInc (sl (l_minKey l)) []) < l_cutoff l \/
   exists Retain, rl (w_fstl w1) = Some Retain /\
     Retain (keyToNibblesWithoutInc (sl (l_minKey l)) []) = true) ->
  exists w',
    iteration fuel first w = Done tt w' /\
    w_ih w' = snd (Next (w_ih w1)) /\
    ihK (w_fstl w') = fst (fst (Next (w_ih w1))) /\
    ihV (w_fstl w') = snd (fst (Next (w_ih w1))) /\
    w_c w' = w_c w1 /\ k (w_fstl w') = k (w_fstl w1) /\ v (w_fstl w') = v (w_fstl w1) /\
    is_item (iterationState w') = is_item (iterationState w1) /\
    is_storageItem (iterationState w') = is_storageItem (iterationState w1) /\
    is_accountItem (iterationState w') = is_accountItem (iterationState w1) /\
    walkerState w' = walkerState w1.
Proof.
  intros Hrec HisIH Hcase.
  assert (Hrun : runs (ihPart l) w1 (fun _ w' =>
    w_ih w' = snd (Next (w_ih w1)) /\
    ihK (w_fstl w') = fst (fst (Next (w_ih w1))) /\
    ihV (w_fstl w') = snd (fst (Next (w_ih w1))) /\
    w_c w' = w_c w1 /\ k (w_fstl w') = k (w_fstl w1) /\ v (w_fstl w') = v (w_fstl w1) /\
    is_item (iterationState w') = is_item (iterationState w1) /\
    is_storageItem (iterationState w') = is_storageItem (iterationState w1) /\
    is_accountItem (iterationState w') = is_accountItem (iterationState w1) /\
    walkerState w' = walkerState w1)).
  { unfold ihPart. do 2 (apply runs_bind, runs_updL). apply runs_bind, runs_getL.
    psimpl.
    destruct (Z.ltb_spec (len (keyToNibblesWithoutInc (sl (l_minKey l)) [])) (l_cutoff l))
      as [Hlt|Hge].
    - apply runs_nextIH. unfold iterationState, walkerState. psimpl. done.
    - destruct Hcase as [?|(Retain & Hrl & Hret)]; [lia|].
      rewrite Hrl. apply runs_bind, runs_ret. rewrite Hret.
      apply runs_nextIH. unfold iterationState, walkerState. psimpl. done. }
  destruct (runs_Done _ _ _ Hrun) as ([] & w' & E & HQ).
  exists w'. split; [|exact HQ].
  unfold iteration, bind. rewrite Hrec, HisIH. exact E.
Qed.


(** ** The calls of [GenStructStep] *)

Ltac step2 :=
  lazymatch goal with
  | |- after (storageData _) _ _ => unfold storageData
  | |- after (callGenStructStep _ _ _ _) _ _ => unfold callGenStructStep
  | |- _ => step1
  end; cbn beta iota.

Ltac steps2 := repeat (step2; psimpl).

Lemma Compare_app (p x y : bytes) : Compare (p ++ x) (p ++ y) = Compare x y.
Proof. induction p as [|b p IH]; [done|]. cbn. by rewrite Z.ltb_irrefl. Qed.

Lemma Compare_successor (key : bytes) (i : nat) (b : Z) :
  key !! i = Some b -> 0 <= b < 255 ->
  Compare key (take i key ++ [(b + 1) mod 256]) = -1.
Proof.
  intros Hi Hb. rewrite <- (take_drop_middle key i b Hi) at 1.
  rewrite Compare_app. cbn. rewrite Z.mod_small by lia.
  destruct (Z.ltb_spec b (b + 1)); [done | lia].
Qed.

Lemma finaliseStorageRoot_calls (cutoff : Z) (w : World) :
  after (finaliseStorageRoot cutoff) w (fun r w' =>
    match r with
    | Some true =>
        succStorage (w_fstl w) <> [] /\
        (exists call b,
           w_gen w' = call :: w_gen w /\
           gc_site call = InFinaliseStorageRoot /\
           gc_curr call = succStorage (w_fstl w) /\
           succStorage (w_fstl w) !! Z.to_nat (cutoff - 1) = Some b /\
           gc_succ call
           = take (Z.to_nat (cutoff - 1)) (succStorage (w_fstl w)) ++ [(b + 1) mod 256] /\
           (0 <= b < 255 -> Compare (gc_curr call) (gc_succ call) = -1)) /\
        currStorage (w_fstl w') = [] /\ succStorage (w_fstl w') = [] /\
        wasIHStorage (w_fstl w') = false
    | Some false =>
        succStorage (w_fstl w) = [] /\ w_gen w' = w_gen w /\
        hb (w_fstl w') = hb (w_fstl w) /\ groups (w_fstl w') = groups (w_fstl w) /\
        currStorage (w_fstl w') = [] /\ succStorage (w_fstl w') = []
    | None => True
    end).
Proof.
  unfold finaliseStorageRoot. steps2.
  all: try done.
  all: cbn [app] in *.
  all: try (split; [by destruct (succStorage (w_fstl w))|]).
  1-4: split; [|done]; eexists _, x; psimpl;
       repeat split; try done; intros; by apply Compare_successor.
  repeat split; try done.
  match goal with H : (0 <? _) = false |- _ => apply Z.ltb_ge in H; unfold len in H end.
  destruct (succStorage (w_fstl w)); [done | cbn [length] in *; lia].
Qed.



(** X14.  [finaliseStorageRoot] returns true exactly when a storage item is
    pending (the buffer [succStorage] is not empty).  Then it has made one
    call of [GenStructStep], for the pending key and a successor made of
    the key's first [cutoff - 1] nibbles and its next nibble plus one,
    which sorts after the key when that nibble is below 255 (as every
    nibble and the terminator are), and it has emptied both storage
    buffers and cleared [wasIHStorage].  When it returns false it has made
    no call and has left the hash builder and the groups alone. *)
Theorem finaliseStorageRoot_pending_item (cutoff : Z) (w : World) :
  after (finaliseStorageRoot cutoff) w (fun r w' =>
    match r with
    | Some true =>
        succStorage (w_fstl w) <> [] /\
        (exists call b,
           w_gen w' = call :: w_gen w /\
           gc_site call = InFinaliseStorageRoot /\
           gc_curr call = succStorage (w_fstl w) /\
           succStorage (w_fstl w) !! Z.to_nat (cutoff - 1) = Some b /\
           gc_succ call
           = take (Z.to_nat (cutoff - 1)) (succStorage (w_fstl w)) ++ [(b + 1) mod 256] /\
           (0 <= b < 255 -> Compare (gc_curr call) (gc_succ call) = -1)) /\
        currStorage (w_fstl w') = [] /\ succStorage (w_fstl w') = [] /\
        wasIHStorage (w_fstl w') = false
    | Some false =>
        succStorage (w_fstl w) = [] /\ w_gen w' = w_gen w /\
        hb (w_fstl w') = hb (w_fstl w) /\ groups (w_fstl w') = groups (w_fstl w) /\
        currStorage (w_fstl w') = [] /\ succStorage (w_fstl w') = []
    | None => True
    end).
Proof. apply finaliseStorageRoot_calls. Qed.

(** X15.  [WalkerStorage] hands an item to [GenStructStep] one call late:
    when it returns without an [error], [currStorage] holds the nibbles of
    the item of the call before and [succStorage] those of the new item
    (with the terminator 16 for a leaf, without it for a cached hash), and
    the value or hash of the new item and, for a hash, its witness length
    are kept for the next call.  If there was an item before, one call of
    [GenStructStep] has been made, for the key of that item with the new
    key as its successor and with the data kept for that item: the leaf
    value, or the hash with the witness length; for the first item no call
    is made and the hash builder and the groups stay. *)
Theorem WalkerStorage_hands_previous_item (isIH : bool) (ri : nat)
    (p1 p2 v' h : option bytes) (n : Z) (w : World) :
  after (WalkerStorage isIH ri p1 p2 v' h n) w (fun r w' =>
    r = Some tt ->
    currStorage (w_fstl w') = succStorage (w_fstl w) /\
    succStorage (w_fstl w')
    = nibblesOf (sl p1) ++ nibblesOf (sl p2) ++ (if isIH then [] else [16]) /\
    wasIHStorage (w_fstl w') = isIH /\
    valueStorage (w_fstl w') = (if isIH then sl h else sl v') /\
    witnessLenStorage (w_fstl w')
    = (if isIH then n else witnessLenStorage (w_fstl w)) /\
    match succStorage (w_fstl w) with
    | [] =>
        w_gen w' = w_gen w /\
        hb (w_fstl w') = hb (w_fstl w) /\ groups (w_fstl w') = groups (w_fstl w)
    | _ :: _ =>
        w_gen w'
        = mkGenCall InWalkerStorage (succStorage (w_fstl w))
            (succStorage (w_fstl w'))
            (if wasIHStorage (w_fstl w)
             then GenStructStepHashData (BytesToHash (valueStorage (w_fstl w)))
                    (witnessLenStorage (w_fstl w))
             else GenStructStepLeafData (valueStorage (w_fstl w)))
          :: w_gen w
    end).
Proof.
  unfold WalkerStorage. steps2.
  all: intros; try done.
  all: cbn [app] in *; rewrite ?keyToNibbles_nibblesOf; cbn [app].
  all: rewrite <- ?app_assoc, ?app_nil_r.
  all: repeat match goal with
       | H : (0 <? len _) = _ |- _ =>
           first [apply Z.ltb_ge in H | apply Z.ltb_lt in H]; unfold len in H
       end.
  all: destruct (succStorage (w_fstl w)); cbn [length] in *; try lia.
  all: repeat split; try done.
Qed.


Lemma finaliseStorageRoot_leaves_accountLevel cutoff :
  leaves accountLevel (finaliseStorageRoot cutoff).
Proof. unfold finaliseStorageRoot, accountLevel. leaves_auto. Qed.

Lemma after_fillAccData (w : World) Q :
  (forall fieldSet,
     Q (Some tt)
       (set_w_fstl
          (set_accData
             (mkAccData (Balance (a (w_fstl w))) (Nonce (a (w_fstl w)))
                (Incarnation (a (w_fstl w))) fieldSet)
             (w_fstl w)) w)) ->
  after fillAccData w Q.
Proof.
  intros H. unfold after, fillAccData, bind, updL. psimpl.
  repeat (match goal with
          | |- context [if ?c then _ else _] => destruct c
          end; psimpl).
  all: apply H.
Qed.

Ltac step3 :=
  lazymatch goal with
  | |- after (bind (finaliseStorageRoot _) _) _ _ =>
      apply (after_bind_leaves accountLevel);
      [ apply finaliseStorageRoot_leaves_accountLevel
      | intros ? ?
      | let E := fresh "E" in
        intros ? ? E; unfold accountLevel in E; psimpl;
        injection E as Ec Es Ev Ea Ew Ewl Ead ]
  | |- after fillAccData _ _ => apply after_fillAccData; intros ?
  | |- after (orFieldSet _) _ _ => unfold orFieldSet
  | |- after clearFieldSet _ _ => unfold clearFieldSet
  | |- _ => step2
  end; cbn beta iota.

Ltac steps3 := repeat (step3; psimpl).

(** X16.  [WalkerAccount] hands an account-level item to [GenStructStep] one
    call late.  When it returns without an [error], [curr] holds the
    nibbles of the item before and [succ] those of the new key (with the
    terminator 16 for an account, without it for a cached hash), and the
    new account, or the new hash with its witness length, is kept.  For
    the first item no call is made.  Otherwise the latest call of
    [GenStructStep] is the one for the item before, with the new key as
    successor: a cached hash goes with the witness length kept for it, an
    account with its balance, nonce and incarnation; the storage buffers
    are emptied, and [FieldSet] afterwards holds no bit but the code bit of
    the new account. *)
Theorem WalkerAccount_hands_previous_item (isIH : bool) (ri : nat)
    (key : option bytes) (acc : Account) (h : option bytes) (n : Z) (w : World) :
  after (WalkerAccount isIH ri key acc h n) w (fun r w' =>
    r = Some tt ->
    curr (w_fstl w') = succ (w_fstl w) /\
    succ (w_fstl w') = nibblesOf (sl key) ++ (if isIH then [] else [16]) /\
    wasIH (w_fstl w') = isIH /\
    (if isIH
     then value (w_fstl w') = sl h /\ witnessLenAccount (w_fstl w') = n /\
          a (w_fstl w') = a (w_fstl w)
     else a (w_fstl w') = acc /\ value (w_fstl w') = value (w_fstl w)) /\
    match succ (w_fstl w) with
    | [] => w_gen w' = w_gen w /\ groups (w_fstl w') = groups (w_fstl w)
    | _ :: _ =>
        (exists data earlier,
           w_gen w'
           = mkGenCall InWalkerAccount (succ (w_fstl w)) (succ (w_fstl w')) data
               :: earlier /\
           if wasIH (w_fstl w)
           then data = GenStructStepHashData
                         (copyBytes (hd_Hash (hashData (w_fstl w))) (value (w_fstl w)))
                         (witnessLenAccount (w_fstl w)) /\
                earlier = w_gen w
           else exists fieldSet,
                  data = GenStructStepAccountData (Balance (a (w_fstl w)))
                           (Nonce (a (w_fstl w))) (Incarnation (a (w_fstl w)))
                           fieldSet) /\
        currStorage (w_fstl w') = [] /\ succStorage (w_fstl w') = [] /\
        wasIHStorage (w_fstl w') = false /\
        ad_FieldSet (accData (w_fstl w'))
        = (if isIH then 0
           else if IsEmptyCodeHash acc then 0 else Z.lor 0 AccountFieldCodeOnly)
    end).
Proof.
  unfold WalkerAccount. steps3.
  all: intros; try done.
  all: cbn [app] in *; rewrite ?keyToNibbles_nibblesOf in *; cbn [app] in *.
  all: rewrite <- ?app_assoc, ?app_nil_r in *.
  all: repeat match goal with
       | H : (0 <? len _) = _ |- _ =>
           first [apply Z.ltb_ge in H | apply Z.ltb_lt in H]; unfold len in H
       end.
  all: try rewrite Ec; try rewrite Es; try rewrite Ev; try rewrite Ea;
       try rewrite Ew; try rewrite Ewl; try rewrite Ead.
  all: unfold accDataOf; psimpl.
  all: try match goal with
       | H : wasIH (w_fstl _) = true |- _ => rewrite H
       | H : wasIH (w_fstl _) = false |- _ => rewrite H
       end.
  all: destruct (IsEmptyCodeHash acc); cbn [negb] in *; try discriminate.
  all: destruct (succ (w_fstl w)) eqn:Esucc; cbn [length] in *; try lia.
  all: repeat split; try done.
  all: try (eexists _, _; split; [reflexivity|]; first [by split | by eexists]).
Qed.


(** ** [Reset] and the store *)

(** X17.  [Reset] with some prefix takes the store from the database only
    when the database is a Bolt one; otherwise the loader keeps the store
    of its previous use.  It returns no [error] exactly when the loader
    then has a store.  When it returns an [error] the new prefixes are
    installed while the tables [fixedbytes], [masks] and [cutoffs] are
    still those of the previous use. *)
Theorem Reset_store (database : Database) (rl' : option (bytes -> bool))
    (dbPrefixes' : list bytes) (fixedbits : list Z) (s : FlatDbSubTrieLoader) :
  dbPrefixes' <> [] ->
  let store := match database with
               | DatabaseHasKV kv => kv
               | DatabaseOther => boltDB s
               end in
  let s' := fst (Reset database rl' dbPrefixes' fixedbits s) in
  let err := snd (Reset database rl' dbPrefixes' fixedbits s) in
  boltDB s' = store /\
  (err = None <-> store <> None) /\
  dbPrefixes s' = dbPrefixes' /\
  (err <> None ->
   fixedbytes s' = fixedbytes s /\ masks s' = masks s /\ cutoffs s' = cutoffs s).
Proof.
  intros Hne. unfold Reset.
  destruct (Z.eqb_spec (len' dbPrefixes') 0) as [E|_].
  { destruct dbPrefixes'; [done|]. unfold len' in E. cbn in E. lia. }
  destruct database as [[store|]|]; cbn zeta iota beta; psimpl.
  - repeat split; try done.
  - repeat split; try done.
  - destruct (boltDB s) as [store|] eqn:Es; psimpl; rewrite ?Es;
      repeat split; try done.
Qed.

(** X18.  Without prefixes [Reset] does not look at the database and
    [LoadSubTries] does not open the store: whatever the database (a Bolt
    one, one whose store is nil, or another kind) and whatever the fuel,
    [Reset] followed by [LoadSubTries] returns the empty result without an
    [error], and the loader keeps the store and the range tables of its
    previous use. *)
Theorem resetAndLoad_no_prefixes (fuel : nat) (database : Database)
    (rl' : option (bytes -> bool)) (fixedbits : list Z) (s : FlatDbSubTrieLoader) :
  exists s',
    resetAndLoad fuel database rl' [] fixedbits s = Done (mkSubTries [] []) s' /\
    boltDB s' = boltDB s /\ fixedbytes s' = fixedbytes s /\
    masks s' = masks s /\ cutoffs s' = cutoffs s /\
    dbPrefixes s' = [] /\ rangeIdx s' = 0%nat /\ itemPresent s' = false.
Proof.
  eexists. unfold resetAndLoad, Reset, LoadSubTries. cbn [len' length Z.of_nat Z.eqb].
  psimpl. cbn [len' length Z.of_nat Z.eqb]. split; [reflexivity|]. psimpl. done.
Qed.




Lemma rangeLoopBody_first_keeps_range l w :
  after (rangeLoopBody true l) w (fun _ w' =>
    rangeIdx (w_fstl w') = rangeIdx (w_fstl w) /\
    itemPresent (w_fstl w') = itemPresent (w_fstl w) /\
    itemType (w_fstl w') = itemType (w_fstl w) /\
    streamCutoff (w_fstl w') = streamCutoff (w_fstl w)).
Proof.
  unfold rangeLoopBody. use_spec rangeCmp_same.
  intros r w1 ->. destruct r as [cmp|]; [|done].
  steps. all: done.
Qed.

Lemma rangeLoop_first_keeps_range fuel l w :
  after (rangeLoop fuel true l) w (fun _ w' =>
    rangeIdx (w_fstl w') = rangeIdx (w_fstl w) /\
    itemPresent (w_fstl w') = itemPresent (w_fstl w) /\
    itemType (w_fstl w') = itemType (w_fstl w) /\
    streamCutoff (w_fstl w') = streamCutoff (w_fstl w)).
Proof.
  revert l w. induction fuel as [|fuel IH]; intros l w; cbn [rangeLoop];
    (destruct (l_cmp l =? 0); [by apply after_ret|]); [apply after_timeout|].
  use_spec rangeLoopBody_first_keeps_range.
  intros [[|l']|] w1 (R & P & T & C); [by apply after_ret| |done].
  eapply after_conseq; [apply IH|]. cbn beta.
  intros _ w2 (R2 & P2 & T2 & C2). repeat split; congruence.
Qed.

(** X28.  The first call of [iteration] never moves to another range and
    never announces the end of one: if it ends, with or without an [error],
    the range index is what it was, and an item it has produced is not a
    [CutoffStreamItem] (an item flagged afterwards is the one that was
    flagged before, or comes from one of the two buckets). *)
Theorem iteration_first_call_keeps_range (fuel : nat) (w : World) :
  after (iteration fuel true) w (fun _ w' =>
    rangeIdx (w_fstl w') = rangeIdx (w_fstl w) /\
    ((itemPresent (w_fstl w') = itemPresent (w_fstl w) /\
      itemType (w_fstl w') = itemType (w_fstl w)) \/
     (itemPresent (w_fstl w') = true /\ itemType (w_fstl w') <> CutoffStreamItem))).
Proof.
  unfold iteration, reconcile. apply after_bind. use_spec initLocals_same.
  intros [l|] w1 [-> _]; [|by split; [|left]].
  eapply after_conseq; [apply rangeLoop_first_keeps_range|]. cbn beta.
  intros [[l'|]|] w2 (R & P & T & C); [| |by split; [|left]].
  - destruct (negb (l_isIH l')).
    + eapply after_conseq; [apply leafPart_itemStep|]. cbn beta.
      intros r w3 (_ & _ & R3 & [[P3 T3]|[P3 T3]]);
        (split; [congruence|]); [left; split; congruence | by right].
    + eapply after_conseq; [apply ihPart_itemStep|]. cbn beta.
      intros r w3 (_ & _ & R3 & [[P3 T3]|[P3 T3]]);
        (split; [congruence|]); [left; split; congruence | by right].
  - apply after_ret. by split; [|left].
Qed.


End LoaderProofs.

Section WriterProofs.
Context `{WB : WriterBackend}.

(** C10, amended: [WriteAccountStorage] leaves the database as it was when
    the change-set writer returns an error and when the original value
    equals the new one; when the change-set writer succeeds and the values
    differ, its effect on the database and its result are those of one
    [Delete] of the composite storage key from the PlainState bucket if the
    new value's byte encoding is empty, and of one [Put] of that encoding
    under the key otherwise. *)
Theorem WriteAccountStorage_plain_state (w w' : PlainStateWriter)
    (address : bytes) (incarnation : Z) (key : bytes) (original value' : Z)
    (err : option error) :
  WriteAccountStorage w address incarnation key original value' = (w', err) ->
  let cerr := snd (csw_WriteAccountStorage (csw w) address incarnation key original value') in
  let compositeKey := PlainGenerateCompositeStorageKey address incarnation key in
  (cerr <> None -> db w' = db w /\ err = cerr) /\
  (cerr = None -> original = value' -> db w' = db w /\ err = None) /\
  (cerr = None -> original <> value' -> uint256_Bytes value' = [] ->
     (db w', err) = db_Delete (db w) PlainStateBucket compositeKey) /\
  (cerr = None -> original <> value' -> uint256_Bytes value' <> [] ->
     (db w', err) = db_Put (db w) PlainStateBucket compositeKey (uint256_Bytes value')).
Proof.
  unfold WriteAccountStorage. intros H. cbn zeta.
  destruct (csw_WriteAccountStorage (csw w) address incarnation key original value')
    as [csw' cerr]. cbn [snd].
  destruct cerr as [e|].
  - injection H as <- <-. repeat split; try done.
  - cbn [db csw blockNumber] in H.
    destruct (Z.eqb_spec original value') as [Heq|Hne].
    + injection H as <- <-. repeat split; try done.
    + destruct (uint256_Bytes value') as [|b bs] eqn:Ev; cbn in H.
      * destruct (db_Delete (db w) PlainStateBucket _) as [db' e'].
        injection H as <- <-. repeat split; try done.
      * destruct (db_Put (db w) PlainStateBucket _ _) as [db' e'].
        injection H as <- <-. repeat split; try done.
Qed.

End WriterProofs.

(** ** Runs on concrete stores *)

(** A witness for C7: two ranges, of 8 and of 320 + 8 fixed bits. *)
Lemma Reset_cutoffs_witness :
  cutoffs (fst (Reset (TB := transcriptBackend false) (DatabaseHasKV (Some oneAccount))
                  (Some retainNothing) [[0]; hashKey 0 ++ be64 0 ++ [1]] [8; 328]
                  NewFlatDbSubTrieLoader)) !! 1%nat = Some (328 ÷ 4 - 16).
Proof.
  refine (proj2 (proj2 (Reset_cutoffs (TB := transcriptBackend false)
            (DatabaseHasKV (Some oneAccount)) (Some retainNothing)
            [[0]; hashKey 0 ++ be64 0 ++ [1]] [8; 328] NewFlatDbSubTrieLoader _ 1%nat 328
            _ _ _)) _).
  - reflexivity.
  - discriminate.
  - reflexivity.
  - lia.
Defined.

(** C1, on a failing input: two ranges are requested, the only account of
    the store lies in the first; when the cursors run out, [iteration]
    passes both ranges in one call and its second [CutoffStreamItem]
    replaces the first, so [LoadSubTries] returns one root and one hash
    where two ranges were requested. *)
Theorem LoadSubTries_two_ranges_one_entry :
  exists st s,
    resetAndLoad (TB := transcriptBackend false) 4 (DatabaseHasKV (Some oneAccount))
      (Some retainNothing) [[0]; [1]] [8; 8] NewFlatDbSubTrieLoader = Done st s
    /\ length (roots st) = 1%nat /\ length (Hashes st) = 1%nat
    /\ length (dbPrefixes s) = 2%nat.
Proof. vm_compute. do 2 eexists. repeat split. Qed.

(** C6, on a failing input: on the store [twoAccounts], with the ranges
    [00] (8 bits) and [01..01] (256 bits), [Reset] and [LoadSubTries] run
    twice on a new loader return different hashes.  The first run leaves
    the code bit in [accData.FieldSet] ([finaliseRoot] returns early for a
    cutoff of 64 or more, and [Reset] does not clear the field), and the
    second run hands it to [GenStructStep] with the first account. *)
Theorem Reset_LoadSubTries_twice_differ :
  exists st1 s1 st2 s2,
    resetAndLoad (TB := transcriptBackend false) 4 (DatabaseHasKV (Some twoAccounts))
      (Some retainNothing) [[0]; hashKey 1] [8; 256] NewFlatDbSubTrieLoader = Done st1 s1
    /\ resetAndLoad (TB := transcriptBackend false) 4 (DatabaseHasKV (Some twoAccounts))
         (Some retainNothing) [[0]; hashKey 1] [8; 256] s1 = Done st2 s2
    /\ Hashes st1 <> Hashes st2.
Proof.
  pose (run := resetAndLoad (TB := transcriptBackend false) 4
                 (DatabaseHasKV (Some twoAccounts)) (Some retainNothing)
                 [[0]; hashKey 1] [8; 256]).
  pose (r1 := run NewFlatDbSubTrieLoader).
  pose (s1 := loaderOf r1 NewFlatDbSubTrieLoader).
  pose (r2 := run s1).
  exists (resultOf r1 (mkSubTries [] [])), s1,
         (resultOf r2 (mkSubTries [] [])), (loaderOf r2 s1).
  split; [vm_compute; reflexivity|].
  split; [vm_compute; reflexivity|].
  vm_compute. discriminate.
Qed.

(** C3 fails: the first call of [iteration] on the store [oneAccount], for
    one range with no fixed bits, seeks both cursors to the start of the
    range and, having emitted the account, seeks both again past it. *)
Lemma iteration_first_call_advances_twice :
  exists w',
    iteration (TB := transcriptBackend false) 1 true
      (worldAfterReset oneAccount (Some retainNothing) [[]] [0]) = Done tt w'
    /\ itemType (w_fstl w') = AccountStreamItem
    /\ length (ops (w_c w')) = 2%nat
    /\ length (ops (w_ih w')) = 2%nat.
Proof. vm_compute. eexists. repeat split. Qed.

(** C10 fails as stated: the values differ and the new value has a
    non-empty encoding, yet nothing is written under the composite key,
    because the change-set writer returned an error. *)
Lemma WriteAccountStorage_change_set_error :
  uint256_Bytes 1 = [1]
  /\ snd (WriteAccountStorage (WB := mapWriterBackend)
            (mkPlainStateWriter (WB := mapWriterBackend) (mkMapDB ∅ ∅ ∅ ∅) true 0)
            (replicate 20 0) 1 (hashKey 0) 0 1) = Some "change set"%string
  /\ plainState (db (fst (WriteAccountStorage (WB := mapWriterBackend)
                            (mkPlainStateWriter (WB := mapWriterBackend) (mkMapDB ∅ ∅ ∅ ∅) true 0)
                            (replicate 20 0) 1 (hashKey 0) 0 1)))
       !! PlainGenerateCompositeStorageKey (replicate 20 0) 1 (hashKey 0) = None.
Proof. repeat split. Qed.

(** A witness for C10: the change-set writer succeeds and the value 1 is
    written over 0. *)
Lemma WriteAccountStorage_plain_state_witness :
  plainState (db (fst (WriteAccountStorage (WB := mapWriterBackend)
                         (mkPlainStateWriter (WB := mapWriterBackend) (mkMapDB ∅ ∅ ∅ ∅) false 0)
                         (replicate 20 0) 1 (hashKey 0) 0 1)))
    !! PlainGenerateCompositeStorageKey (replicate 20 0) 1 (hashKey 0) = Some [1].
Proof.
  pose proof (WriteAccountStorage_plain_state (WB := mapWriterBackend)
                (mkPlainStateWriter (WB := mapWriterBackend) (mkMapDB ∅ ∅ ∅ ∅) false 0)
                (fst (WriteAccountStorage (WB := mapWriterBackend)
                         (mkPlainStateWriter (WB := mapWriterBackend) (mkMapDB ∅ ∅ ∅ ∅) false 0)
                         (replicate 20 0) 1 (hashKey 0) 0 1))
                (replicate 20 0) 1 (hashKey 0) 0 1 None eq_refl) as H.
  destruct H as (_ & _ & _ & H).
  specialize (H eq_refl ltac:(discriminate) ltac:(discriminate)).
  apply (f_equal (fun p => plainState (fst p))) in H. cbn [fst] in H.
  rewrite H. apply lookup_insert_eq.
Defined.

(** A witness for C3 (amended): on [accountWithStorage] the call of
    [iteration] that hands the storage slot over starts inside the range
    and advances each cursor at most once. *)
Lemma iteration_in_range_advances_witness :
  (advances (w_c worldAfterAccount) (w_c worldAfterStorage) <= 1)%nat /\
  (advances (w_ih worldAfterAccount) (w_ih worldAfterStorage) <= 1)%nat.
Proof.
  refine (proj2 (iteration_in_range_advances (TB := transcriptBackend false)
                   0 worldAfterAccount worldAfterStorage _ _ _ _) _).
  - vm_compute. reflexivity.
  - vm_compute. reflexivity.
  - vm_compute. reflexivity.
  - vm_compute. intros [_ [H|H]]; discriminate.
Defined.



(** A witness for C5: on [lastSubtreeCached] the first call of
    [iteration] emits the cached hash under [ff] and leaves both cursor
    keys nil. *)
Lemma iteration_overflow_witness :
  exists w',
    iteration (TB := transcriptBackend false) 1 true
      (worldAfterReset lastSubtreeCached (Some retainNothing) [[]] [0]) = Done tt w' /\
    k (w_fstl w') = None /\ ihK (w_fstl w') = None.
Proof.
  destruct (iteration_overflow_ends_range (TB := transcriptBackend false) 1 true
              (worldAfterReset lastSubtreeCached (Some retainNothing) [[]] [0])
              (worldOf (reconcile (TB := transcriptBackend false) 1 true
                          (worldAfterReset lastSubtreeCached (Some retainNothing) [[]] [0]))
                       (worldAfterReset lastSubtreeCached (Some retainNothing) [[]] [0]))
              (mkLocals true (Some [255]) 0 0 [] 255 0)
              [255] retainNothing) as [(w' & Hrun & Hk & Hih & _) _].
  - vm_compute. reflexivity.
  - vm_compute. reflexivity.
  - vm_compute. reflexivity.
  - reflexivity.
  - vm_compute. reflexivity.
  - repeat constructor.
  - vm_compute. reflexivity.
  - vm_compute. discriminate.
  - reflexivity.
  - left. vm_compute. discriminate.
  - left. reflexivity.
  - exists w'. repeat split; assumption.
Defined.

(** A witness for C2: a cached account hash with witness length 5 is
    consumed, then the cutoff that closes the range is. *)
Lemma HashData_witness_length_witness :
  after (deliver (TB := transcriptBackend false) (CutoffItem 1))
    worldAfterAccountHash
    (fun _ w2 =>
       exists new,
         w_gen w2 = new ++ w_gen worldAfterAccountHash /\
         Forall (dataLenAgrees None (Some 5)) new).
Proof.
  apply (HashData_witness_length_consistent (TB := transcriptBackend false)
           (DatabaseHasKV (Some oneAccount)) (Some retainNothing) [[]] [0]
           NewFlatDbSubTrieLoader
           (newCursor (CurrentStateBucket oneAccount))
           (newCursor (IntermediateTrieHashBucket oneAccount))
           (newCursor (IntermediateTrieWitnessLenBucket oneAccount)) []
           [AHashItem (Some [0]) (Some (hashKey 7)) 5] (CutoffItem 1)
           worldAfterAccountHash).
  vm_compute. reflexivity.
Defined.

(** The run of that witness ends, and the call it makes hands the hash over
    with [DataLen] 5. *)
Example deliver_cutoff_after_account_hash :
  exists w2,
    deliver (TB := transcriptBackend false) (CutoffItem 1) worldAfterAccountHash
    = Done tt w2 /\
    map gc_data (w_gen w2)
    = [GenStructStepHashData (hashKey 7) 5].
Proof. eexists. split; vm_compute; reflexivity. Qed.

(** * Further properties of the key helpers *)

(** ** The byte order *)

Lemma Compare_refl (a : bytes) : Compare a a = 0.
Proof. induction a as [|x a IH]; simpl; [reflexivity|]. rewrite Z.ltb_irrefl. exact IH. Qed.

Lemma Compare_range (a b : bytes) :
  Compare a b = -1 \/ Compare a b = 0 \/ Compare a b = 1.
Proof.
  revert b; induction a as [|x a IH]; intros [|y b]; simpl; auto.
  destruct (x <? y); auto. destruct (y <? x); auto.
Qed.

Lemma Compare_flip (a b : bytes) : Compare b a = - Compare a b.
Proof.
  revert b; induction a as [|x a IH]; intros [|y b]; simpl; auto.
  destruct (Z.ltb_spec x y), (Z.ltb_spec y x); try lia; auto.
Qed.

Lemma Compare_eq (a b : bytes) : Compare a b = 0 -> a = b.
Proof.
  revert b; induction a as [|x a IH]; intros [|y b]; simpl; try discriminate; auto.
  destruct (Z.ltb_spec x y), (Z.ltb_spec y x); try discriminate.
  intros E. f_equal; [lia | auto].
Qed.

Lemma HasPrefix_app (k p : bytes) :
  HasPrefix k p = true -> exists rest, k = p ++ rest.
Proof.
  revert k; induction p as [|y p IH]; intros k; simpl.
  - exists k; reflexivity.
  - destruct k as [|x k]; [discriminate|].
    intros [E1 E2]%andb_true_iff. apply Z.eqb_eq in E1. subst.
    destruct (IH _ E2) as [rest ->]. exists rest; reflexivity.
Qed.

Lemma HasPrefix_app_r (p rest : bytes) : HasPrefix (p ++ rest) p = true.
Proof.
  induction p as [|y p IH]; simpl; [destruct rest; reflexivity|].
  rewrite Z.eqb_refl; exact IH.
Qed.

(** ** [nextSubtree] and [nextAccount] *)

Lemma incrementBE_length (r : bytes) : length (fst (incrementBE r)) = length r.
Proof.
  induction r as [|x r IH]; simpl; [reflexivity|].
  destruct (incrementBE r) as [r' ok]; simpl in *.
  destruct ok; [|destruct (x =? 255)]; simpl; congruence.
Qed.

Lemma incrementBE_above (r r' : bytes) :
  incrementBE r = (r', true) ->
  forall rest, Compare (r ++ rest) r' = -1.
Proof.
  revert r'; induction r as [|x r IH]; intros r'; simpl; [discriminate|].
  destruct (incrementBE r) as [r0 ok] eqn:E.
  destruct ok.
  - intros [= <-] rest. simpl. rewrite Z.ltb_irrefl. apply IH; reflexivity.
  - destruct (x =? 255) eqn:E255; simpl; [discriminate|].
    intros [= <-] rest. simpl.
    destruct (Z.ltb_spec x (x + 1)); [reflexivity | lia].
Qed.

Lemma incrementBE_overflow (r r' : bytes) :
  incrementBE r = (r', false) ->
  Forall (fun b => b = 255) r /\ r' = repeat 0 (length r).
Proof.
  revert r'; induction r as [|x r IH]; intros r'; simpl.
  - intros [= <-]. split; constructor.
  - destruct (incrementBE r) as [r0 ok] eqn:E.
    destruct ok; [discriminate|].
    destruct (Z.eqb_spec x 255); simpl; [|discriminate].
    intros [= <-]. destruct (IH _ eq_refl) as [F ->].
    split; [constructor; assumption | reflexivity].
Qed.

Lemma Compare_zeros (n : nat) (k : bytes) :
  (n <= length k)%nat -> Forall isByte k -> Compare (repeat 0 n) k <= 0.
Proof.
  revert k; induction n as [|n IH]; intros [|y k] L F; simpl in *; try lia.
  inversion F as [|? ? Fy Fk]; subst. unfold isByte in Fy.
  destruct (Z.ltb_spec 0 y); [lia|].
  destruct (Z.ltb_spec y 0); [lia|].
  apply IH; [lia | assumption].
Qed.

Lemma Compare_all_255 (r k : bytes) :
  Forall (fun b => b = 255) r -> Forall isByte k ->
  (length r <= length k)%nat -> Compare r k <= 0 -> HasPrefix k r = true.
Proof.
  revert k; induction r as [|x r IH]; intros [|y k] Fr Fk L C; simpl in *;
    try reflexivity; try lia.
  inversion Fr as [|? ? Hx Fr']; inversion Fk as [|? ? Hy Fk']; subst.
  unfold isByte in Hy.
  destruct (Z.ltb_spec 255 y); [lia|].
  destruct (Z.ltb_spec y 255); [lia|].
  replace y with 255 by lia. simpl. apply IH; auto; lia.
Qed.

Lemma incrementBE_least (r r' : bytes) :
  incrementBE r = (r', true) ->
  forall k, Forall isByte k -> (length r <= length k)%nat ->
    Compare r k <= 0 -> HasPrefix k r = false -> Compare r' k <= 0.
Proof.
  revert r'; induction r as [|x r IH]; intros r'; simpl; [discriminate|].
  destruct (incrementBE r) as [r0 ok] eqn:E.
  intros H [|y k] Fk L C P; simpl in *; [lia|].
  inversion Fk as [|? ? Hy Fk']; subst.
  destruct ok.
  - injection H as <-. simpl.
    destruct (Z.ltb_spec x y); [lia|].
    destruct (Z.ltb_spec y x); [lia|].
    assert (y = x) as -> by lia. rewrite Z.eqb_refl in P. simpl in P.
    apply (IH _ eq_refl); auto; lia.
  - destruct (Z.eqb_spec x 255) as [->|N]; simpl in H; [discriminate|].
    injection H as <-. simpl.
    destruct (incrementBE_overflow _ _ E) as [F255 ->].
    destruct (Z.ltb_spec x y).
    + destruct (Z.ltb_spec (x + 1) y); [lia|].
      destruct (Z.ltb_spec y (x + 1)); [lia|].
      apply Compare_zeros; [lia | assumption].
    + destruct (Z.ltb_spec y x); [lia|].
      assert (y = x) as -> by lia. rewrite Z.eqb_refl in P. simpl in P.
      rewrite (Compare_all_255 r k) in P; auto; [discriminate | lia].
Qed.

(** X1.  When [nextSubtree] succeeds its result has the length of the input
    and sorts after the input and after every key that has the input as a
    prefix: seeking to it leaves the whole subtree behind. *)
Theorem nextSubtree_passes_subtree (i out : bytes) :
  nextSubtree i = (Some out, true) ->
  length out = length i /\
  Compare i out = -1 /\
  forall k, HasPrefix k i = true -> Compare k out = -1.
Proof.
  unfold nextSubtree. destruct (incrementBE i) as [r ok] eqn:E.
  destruct ok; [|discriminate]. intros [= <-].
  split; [|split].
  - pose proof (incrementBE_length i) as L. rewrite E in L. exact L.
  - pose proof (incrementBE_above _ _ E []) as C. rewrite app_nil_r in C. exact C.
  - intros k [rest ->]%HasPrefix_app. apply (incrementBE_above _ _ E).
Qed.

Lemma nextSubtree_passes_subtree_witness :
  nextSubtree [1; 255] = (Some [2; 0], true) /\
  (length [2; 0] = length [1; 255] /\
   Compare [1; 255] [2; 0] = -1 /\
   forall k, HasPrefix k [1; 255] = true -> Compare k [2; 0] = -1).
Proof. split; [reflexivity | apply (nextSubtree_passes_subtree [1; 255] [2; 0]); reflexivity]. Defined.

(** X2.  [nextSubtree] skips nothing else among the keys at least as long as
    the input: a key of bytes that is not below the input, does not have it
    as a prefix and is at least as long is not below the result. *)
Theorem nextSubtree_skips_only_subtree (i out k : bytes) :
  nextSubtree i = (Some out, true) ->
  Forall isByte k -> (length i <= length k)%nat ->
  Compare i k <= 0 -> HasPrefix k i = false ->
  Compare out k <= 0.
Proof.
  unfold nextSubtree. destruct (incrementBE i) as [r ok] eqn:E.
  destruct ok; [|discriminate]. intros [= <-]. apply (incrementBE_least _ _ E).
Qed.

Lemma nextSubtree_skips_only_subtree_witness : Compare [2; 0] [2; 0; 7] <= 0.
Proof.
  apply (nextSubtree_skips_only_subtree [1; 255] [2; 0] [2; 0; 7]).
  - reflexivity.
  - repeat constructor; unfold isByte; lia.
  - simpl; lia.
  - vm_compute; discriminate.
  - reflexivity.
Defined.

(** The length condition of X2 is needed: a
    shorter key can lie between the subtree and the result. *)
Example nextSubtree_skips_shorter_key :
  nextSubtree [1; 255] = (Some [2; 0], true) /\
  Compare [1; 255] [2] = -1 /\ HasPrefix [2] [1; 255] = false /\
  Compare [2] [2; 0] = -1.
Proof. repeat split. Qed.

Lemma incrementBE_all_255_fails (r : bytes) :
  Forall (fun b => b = 255) r -> snd (incrementBE r) = false.
Proof.
  induction 1 as [|x l -> F IH]; simpl; [reflexivity|].
  destruct (incrementBE l) as [r0 ok0]. simpl in IH. subst ok0. reflexivity.
Qed.

(** X3.  [nextSubtree] reports an overflow, and returns nil, exactly when
    every byte of the input is 255 (the empty key included). *)
Theorem nextSubtree_overflow_iff (i : bytes) :
  nextSubtree i = (None, false) <-> Forall (fun b => b = 255) i.
Proof.
  unfold nextSubtree. destruct (incrementBE i) as [r ok] eqn:E. split.
  - destruct ok; [discriminate|]. intros _. apply (incrementBE_overflow _ _ E).
  - intros F. apply incrementBE_all_255_fails in F. rewrite E in F.
    simpl in F. subst ok. reflexivity.
Qed.

Lemma beValue_from (l : bytes) (x : Z) :
  fold_left (fun acc b => acc * 256 + b) l x = x * 256 ^ Z.of_nat (length l) + beValue l.
Proof.
  unfold beValue. revert x. induction l as [|b l IH]; intros x; cbn [fold_left length].
  - cbn. lia.
  - rewrite IH, (IH (0 * 256 + b)). rewrite Nat2Z.inj_succ, Z.pow_succ_r by lia. lia.
Qed.

Lemma beValue_cons (x : Z) (l : bytes) :
  beValue (x :: l) = x * 256 ^ Z.of_nat (length l) + beValue l.
Proof. unfold beValue at 1. cbn [fold_left]. rewrite beValue_from. lia. Qed.

Lemma beValue_all_255 (l : bytes) :
  Forall (fun b => b = 255) l -> beValue l = 256 ^ Z.of_nat (length l) - 1.
Proof.
  induction 1 as [|x l -> _ IH]; [reflexivity|].
  rewrite beValue_cons, IH. cbn [length].
  rewrite Nat2Z.inj_succ, Z.pow_succ_r by lia. lia.
Qed.

Lemma beValue_zeros (n : nat) : beValue (repeat 0 n) = 0.
Proof.
  induction n as [|n IH]; [reflexivity|].
  cbn [repeat]. rewrite beValue_cons, IH. lia.
Qed.

Lemma incrementBE_value (r r' : bytes) :
  incrementBE r = (r', true) -> beValue r' = beValue r + 1.
Proof.
  revert r'; induction r as [|x r IH]; intros r'; simpl; [discriminate|].
  destruct (incrementBE r) as [r0 ok] eqn:E.
  pose proof (incrementBE_length r) as L. rewrite E in L. cbn [fst] in L.
  destruct ok.
  - intros [= <-]. rewrite !beValue_cons, (IH r0 eq_refl), L. lia.
  - destruct (x =? 255); simpl; [discriminate|]. intros [= <-].
    destruct (incrementBE_overflow _ _ E) as [F ->].
    rewrite !beValue_cons, beValue_zeros, (beValue_all_255 r F), repeat_length. lia.
Qed.

Lemma incrementBE_bytes (r : bytes) :
  Forall isByte r -> Forall isByte (fst (incrementBE r)).
Proof.
  induction 1 as [|x r Hx F IH]; simpl; [constructor|].
  destruct (incrementBE r) as [r0 ok]. cbn [fst] in IH. unfold isByte in Hx.
  destruct ok; cbn [fst]; [by constructor|].
  destruct (Z.eqb_spec x 255); cbn [negb fst]; constructor; try done;
    unfold isByte; lia.
Qed.

(** X4.  [nextAccount] on a key of at least 32 bytes and a 32-byte buffer
    leaves in the buffer the first 32 bytes of the key incremented as a
    big-endian number: the buffer has 32 bytes, which are bytes when those
    of the key are; when the call returns true the number the buffer reads
    as is that of the key's first 32 bytes plus one, and the buffer sorts
    after every key that starts with those 32 bytes (the account and all of
    its storage); the call returns false exactly when those 32 bytes are
    all 255, and then the buffer is all zeros.  Neither the rest of the key
    nor the former content of the buffer matters. *)
Theorem nextAccount_passes_account (i out : bytes) :
  length out = 32%nat -> (32 <= length i)%nat ->
  let '(out', ok) := nextAccount i out in
  length out' = 32%nat /\
  (ok = true -> forall k, take 32 k = take 32 i -> Compare k out' = -1) /\
  (ok = false <-> Forall (fun b => b = 255) (take 32 i)) /\
  (Forall isByte (take 32 i) -> Forall isByte out') /\
  (ok = true -> beValue out' = beValue (take 32 i) + 1) /\
  (ok = false -> out' = repeat 0 32) /\
  (forall i2 out2, length out2 = 32%nat -> take 32 i2 = take 32 i ->
     (32 <= length i2)%nat -> nextAccount i2 out2 = (out', ok)).
Proof.
  intros Lo Li.
  assert (EN : forall i2 out2, length out2 = 32%nat -> (32 <= length i2)%nat ->
                 nextAccount i2 out2 = incrementBE (take 32 i2)).
  { intros i2 out2 Lo2 Li2. unfold nextAccount, copyBytes. rewrite Lo2.
    rewrite (drop_ge out2 (length i2)) by lia. by rewrite app_nil_r. }
  rewrite (EN i out Lo Li).
  destruct (incrementBE (take 32 i)) as [r ok] eqn:E.
  pose proof (incrementBE_length (take 32 i)) as L. rewrite E in L. simpl in L.
  rewrite length_take in L.
  split; [lia|]. split; [|split; [|split; [|split; [|split]]]].
  - intros -> k Hk. rewrite <- (take_drop 32 k), Hk.
    apply (incrementBE_above _ _ E).
  - split.
    + intros ->. apply (incrementBE_overflow _ _ E).
    + intros F. apply incrementBE_all_255_fails in F. rewrite E in F. exact F.
  - intros F. apply incrementBE_bytes in F. by rewrite E in F.
  - intros ->. apply (incrementBE_value _ _ E).
  - intros ->. destruct (incrementBE_overflow _ _ E) as [_ ->].
    rewrite length_take. f_equal. lia.
  - intros i2 out2 Lo2 Ht Li2. by rewrite (EN i2 out2 Lo2 Li2), Ht.
Qed.

Lemma nextAccount_passes_account_witness :
  let '(out', ok) := nextAccount (repeat 7 40) (repeat 0 32) in
  length out' = 32%nat /\
  (ok = true -> forall k, take 32 k = take 32 (repeat 7 40) -> Compare k out' = -1) /\
  (ok = false <-> Forall (fun b => b = 255) (take 32 (repeat 7 40))) /\
  (Forall isByte (take 32 (repeat 7 40)) -> Forall isByte out') /\
  (ok = true -> beValue out' = beValue (take 32 (repeat 7 40)) + 1) /\
  (ok = false -> out' = repeat 0 32) /\
  (forall i2 out2, length out2 = 32%nat -> take 32 i2 = take 32 (repeat 7 40) ->
     (32 <= length i2)%nat -> nextAccount i2 out2 = (out', ok)).
Proof. apply (nextAccount_passes_account (repeat 7 40) (repeat 0 32)); simpl; lia. Defined.

(** ** [keyToNibbles] and [keyIsBefore] *)

Lemma nibbles_of_byte (x y : Z) :
  isByte x -> isByte y ->
  (x < y <-> x / 16 < y / 16 \/ (x / 16 = y / 16 /\ x mod 16 < y mod 16)).
Proof.
  unfold isByte. intros Hx Hy.
  pose proof (Z.div_mod x 16 ltac:(lia)).
  pose proof (Z.div_mod y 16 ltac:(lia)).
  pose proof (Z.mod_pos_bound x 16 ltac:(lia)).
  pose proof (Z.mod_pos_bound y 16 ltac:(lia)).
  lia.
Qed.

(** X5.  On keys made of bytes [keyToNibbles] keeps the order of the store:
    comparing the nibble strings gives the result of comparing the keys
    (so distinct keys give distinct nibble strings). *)
Theorem keyToNibbles_keeps_order (a b : bytes) :
  Forall isByte a -> Forall isByte b ->
  Compare (keyToNibbles a []) (keyToNibbles b []) = Compare a b.
Proof.
  rewrite !keyToNibbles_nibblesOf. simpl.
  intros Fa; revert b; induction Fa as [|x a Hx Fa IH]; intros b Fb.
  - destruct Fb; reflexivity.
  - destruct Fb as [|y b Hy Fb]; [reflexivity|].
    cbn [nibblesOf flat_map app Compare].
    change (flat_map (fun b0 : Z => [b0 / 16; b0 mod 16]) a) with (nibblesOf a).
    change (flat_map (fun b0 : Z => [b0 / 16; b0 mod 16]) b) with (nibblesOf b).
    rewrite (IH b Fb).
    pose proof (nibbles_of_byte x y Hx Hy) as Lxy.
    pose proof (nibbles_of_byte y x Hy Hx) as Lyx.
    destruct (Z.ltb_spec (x / 16) (y / 16)), (Z.ltb_spec (y / 16) (x / 16)),
      (Z.ltb_spec (x mod 16) (y mod 16)), (Z.ltb_spec (y mod 16) (x mod 16)),
      (Z.ltb_spec x y), (Z.ltb_spec y x); try reflexivity; lia.
Qed.

Lemma keyToNibbles_keeps_order_witness :
  Compare (keyToNibbles [1; 255] []) (keyToNibbles [2] []) = Compare [1; 255] [2].
Proof.
  apply (keyToNibbles_keeps_order [1; 255] [2]);
    repeat constructor; unfold isByte; lia.
Defined.

(** X6.  The nibbles written by [keyToNibbles] for a key of bytes are all
    below 16: the terminator 16 never comes from a key. *)
Theorem keyToNibbles_below_16 (k : bytes) :
  Forall isByte k -> Forall (fun n => 0 <= n < 16) (keyToNibbles k []).
Proof.
  rewrite keyToNibbles_nibblesOf. simpl.
  induction 1 as [|x k Hx F IH]; [constructor|].
  unfold isByte in Hx. cbn [nibblesOf flat_map app].
  constructor; [|constructor; [|exact IH]].
  - split; [apply Z.div_pos; lia | apply Z.div_lt_upper_bound; lia].
  - apply Z.mod_pos_bound; lia.
Qed.

Lemma keyToNibbles_below_16_witness :
  Forall (fun n => 0 <= n < 16) (keyToNibbles [171; 205] []).
Proof. apply (keyToNibbles_below_16 [171; 205]); repeat constructor; unfold isByte; lia. Defined.

(** X7.  [keyIsBefore] returns one of its two keys, the one that comes first
    when nil is the last key, and the flag tells that it is the first
    argument; on a tie of two present keys the first argument wins, and two
    nil keys give [(false, nil)]. *)
Theorem keyIsBefore_min (k1 k2 : option bytes) :
  let '(isIH, m) := keyIsBefore k1 k2 in
  m = (if isIH then k1 else k2) /\
  keyLe m k1 /\ keyLe m k2 /\
  (isIH = true <-> k1 <> None /\ keyLe k1 k2).
Proof.
  destruct k1 as [a|], k2 as [b|]; simpl;
    [destruct (Z.leb_spec (Compare a b) 0) as [L|L]; simpl;
       pose proof (Compare_flip a b)|..];
    rewrite ?Compare_refl;
    repeat split; try lia; try discriminate; try tauto;
    try (intros [N _]; first [congruence | lia]).
Qed.

(** ** Runs of the loader on concrete stores *)

(** A witness for X8: the only account
    of [oneAccount] lies before the range of the keys that start with the
    byte 01. *)
Lemma LoadSubTries_empty_first_range_witness :
  LoadSubTries (TB := transcriptBackend false) 5
    (fst (Reset (DatabaseHasKV (Some oneAccount)) (Some retainNothing) [[1]] [8]
            NewFlatDbSubTrieLoader)) = OutOfFuel.
Proof.
  apply (LoadSubTries_empty_first_range_diverges (TB := transcriptBackend false)
           5 _ oneAccount [1] 1 2 255).
  - reflexivity.
  - reflexivity.
  - reflexivity.
  - reflexivity.
  - reflexivity.
  - lia.
  - vm_compute. discriminate.
  - repeat constructor.
  - constructor.
Defined.

(** A witness for X11: the load of two ranges on
    [oneAccount], which returns one entry. *)
Lemma resetAndLoad_entries_bounded_witness :
  let run := resetAndLoad (TB := transcriptBackend false) 4
               (DatabaseHasKV (Some oneAccount)) (Some retainNothing)
               [[0]; [1]] [8; 8] NewFlatDbSubTrieLoader in
  let st := resultOf run (mkSubTries [] []) in
  length (roots st) = length (Hashes st) /\ (length (roots st) <= 2)%nat.
Proof.
  intros run st.
  apply (resetAndLoad_entries_bounded (TB := transcriptBackend false) 4
           (DatabaseHasKV (Some oneAccount)) (Some retainNothing)
           [[0]; [1]] [8; 8] NewFlatDbSubTrieLoader
           (loaderOf run NewFlatDbSubTrieLoader) st).
  vm_compute. reflexivity.
Defined.

(** A witness for X13: on [lastSubtreeCached],
    with a predicate that retains everything, the first call of [iteration]
    picks the cached hash under [ff] and descends. *)
Lemma iteration_retained_hash_descends_witness :
  let w := worldAfterReset (TB := transcriptBackend false) lastSubtreeCached
             (Some (fun _ => true)) [[]] [0] in
  let w1 := worldOf (reconcile 1 true w) w in
  exists w',
    iteration 1 true w = Done tt w' /\
    w_ih w' = snd (Next (w_ih w1)) /\
    ihK (w_fstl w') = fst (fst (Next (w_ih w1))) /\
    ihV (w_fstl w') = snd (fst (Next (w_ih w1))) /\
    w_c w' = w_c w1 /\ k (w_fstl w') = k (w_fstl w1) /\ v (w_fstl w') = v (w_fstl w1) /\
    is_item (iterationState w') = is_item (iterationState w1) /\
    is_storageItem (iterationState w') = is_storageItem (iterationState w1) /\
    is_accountItem (iterationState w') = is_accountItem (iterationState w1) /\
    walkerState w' = walkerState w1.
Proof.
  intros w w1.
  apply (iteration_retained_hash_descends (TB := transcriptBackend false) 1 true w w1
           (match reconcile 1 true w with
            | Done (Some l) _ => l
            | _ => mkLocals false None 0 0 [] 0 0
            end)).
  - vm_compute. reflexivity.
  - vm_compute. reflexivity.
  - right. exists (fun _ => true). split; reflexivity.
Defined.

(** * The plain-state writer *)

Section AccountWriterProofs.
Context {WB : WriterBackend} {AWB : AccountWriterBackend}.

(** X19.  The account calls of the writer record the change first: when
    the call of the change-set writer returns an [error], [UpdateAccountData],
    [UpdateAccountCode] and [DeleteAccount] return that [error] and leave
    the database as it was; [CreateContract], [WriteChangeSets] and
    [WriteHistory] never touch the database and return what the change-set
    writer returned. *)
Theorem change_set_error_leaves_database (w : PlainStateWriter) (address : bytes)
    (original account : Account) (incarnation : Z) (codeHash code' : bytes) :
  (forall e,
     snd (csw_UpdateAccountData (csw w) address original account) = Some e ->
     UpdateAccountData w address original account
     = (withCsw w (fst (csw_UpdateAccountData (csw w) address original account)),
        Some e)) /\
  (forall e,
     snd (csw_UpdateAccountCode (csw w) address incarnation codeHash code') = Some e ->
     UpdateAccountCode w address incarnation codeHash code'
     = (withCsw w (fst (csw_UpdateAccountCode (csw w) address incarnation codeHash code')),
        Some e)) /\
  (forall e,
     snd (csw_DeleteAccount (csw w) address original) = Some e ->
     DeleteAccount w address original
     = (withCsw w (fst (csw_DeleteAccount (csw w) address original)), Some e)) /\
  CreateContract w address
  = (withCsw w (fst (csw_CreateContract (csw w) address)),
     snd (csw_CreateContract (csw w) address)) /\
  WriteChangeSets w
  = (withCsw w (fst (csw_WriteChangeSets (csw w))), snd (csw_WriteChangeSets (csw w))) /\
  WriteHistory w
  = (withCsw w (fst (csw_WriteHistory (csw w))), snd (csw_WriteHistory (csw w))).
Proof.
  unfold UpdateAccountData, UpdateAccountCode, DeleteAccount, CreateContract,
    WriteChangeSets, WriteHistory.
  repeat split.
  - destruct (csw_UpdateAccountData _ _ _ _) as [c o]. cbn. by intros e ->.
  - destruct (csw_UpdateAccountCode _ _ _ _ _) as [c o]. cbn. by intros e ->.
  - destruct (csw_DeleteAccount _ _ _) as [c o]. cbn. by intros e ->.
  - destruct (csw_CreateContract _ _) as [c [e|]]; reflexivity.
  - destruct (csw_WriteChangeSets _) as [c o]; reflexivity.
  - destruct (csw_WriteHistory _) as [c o]; reflexivity.
Qed.

End AccountWriterProofs.

(** ** The writer on the map store *)

Lemma beBytes_value (n : nat) (x : Z) (acc : bytes) :
  0 <= x < 256 ^ Z.of_nat n ->
  beValue (beBytes n x acc) = x * 256 ^ Z.of_nat (length acc) + beValue acc.
Proof.
  revert x acc. induction n as [|n IH]; intros x acc Hx; cbn [beBytes].
  - cbn in Hx. assert (x = 0) as -> by lia. lia.
  - destruct (Z.eqb_spec x 0) as [->|Hne]; [lia|].
    rewrite Nat2Z.inj_succ, Z.pow_succ_r in Hx by lia.
    rewrite IH.
    + cbn [length]. rewrite Nat2Z.inj_succ, Z.pow_succ_r by lia.
      unfold beValue at 1. cbn [fold_left]. rewrite beValue_from.
      pose proof (Z.div_mod x 256 ltac:(lia)). nia.
    + split; [apply Z.div_pos; lia | apply Z.div_lt_upper_bound; lia].
Qed.

Lemma beBytes_length (n : nat) (x : Z) (acc : bytes) :
  (length acc <= length (beBytes n x acc))%nat.
Proof.
  revert x acc. induction n as [|n IH]; intros x acc; cbn [beBytes]; [lia|].
  destruct (x =? 0); [lia|]. etransitivity; [|apply IH]. cbn. lia.
Qed.

Lemma beBytes_S (n : nat) (x : Z) (acc : bytes) :
  beBytes (S n) x acc
  = if x =? 0 then acc else beBytes n (x / 256) (x mod 256 :: acc).
Proof. reflexivity. Qed.

Lemma uint256_Bytes_nil (x : Z) : uint256_Bytes x = [] <-> x = 0.
Proof.
  unfold uint256_Bytes. rewrite (beBytes_S 31 x []).
  destruct (Z.eqb_spec x 0) as [->|Hne].
  - done.
  - split; [|done]. intros E.
    pose proof (beBytes_length 31 (x / 256) [x mod 256]) as L.
    rewrite E in L. cbn in L. lia.
Qed.

(** X20.  On the map store, with a change-set writer that succeeds, a
    [WriteAccountStorage] of a value in [0, 2^256) that differs from the
    original never stores a zero: afterwards the slot's composite key is
    absent from PlainState when the value is zero and holds the value's
    big-endian bytes otherwise, which read back as the value; the other
    keys of PlainState and the other buckets are as before. *)
Theorem WriteAccountStorage_map_store (d : MapDB) (bn : Z) (address : bytes)
    (incarnation : Z) (key : bytes) (original value' : Z) :
  0 <= value' < 2 ^ 256 -> original <> value' ->
  let w := mkPlainStateWriter (WB := mapWriterBackend) d false bn in
  let r := WriteAccountStorage w address incarnation key original value' in
  let ck := PlainGenerateCompositeStorageKey address incarnation key in
  snd r = None /\
  (value' = 0 -> plainState (db (fst r)) !! ck = None) /\
  (value' <> 0 ->
   exists b, plainState (db (fst r)) !! ck = Some b /\ b <> [] /\ beValue b = value') /\
  (forall k, k <> ck -> plainState (db (fst r)) !! k = plainState d !! k) /\
  code (db (fst r)) = code d /\
  plainContractCode (db (fst r)) = plainContractCode d /\
  incarnationMap (db (fst r)) = incarnationMap d.
Proof.
  intros Hv Hne. cbn zeta. unfold WriteAccountStorage.
  cbn [csw_WriteAccountStorage mapWriterBackend csw db blockNumber].
  destruct (Z.eqb_spec original value'); [done|].
  pose proof (uint256_Bytes_nil value') as Hnil.
  destruct (uint256_Bytes value') as [|b0 bs] eqn:Eb.
  - assert (value' = 0) as -> by (by apply Hnil).
    cbn [len length Z.of_nat Z.eqb db_Delete mapWriterBackend mapDelete fst snd db plainState code
         plainContractCode incarnationMap].
    repeat split; try done.
    + intros _. apply lookup_delete_eq.
    + intros k Hk. by apply lookup_delete_ne.
  - assert (value' <> 0) by (intros ->; destruct Hnil as [_ Hn]; by discriminate Hn).
    unfold len. cbn [length].
    destruct (Z.eqb_spec (Z.of_nat (S (length bs))) 0); [lia|].
    cbn [db_Put mapWriterBackend mapPut fst snd db plainState code plainContractCode incarnationMap].
    repeat split; try done.
    + intros _. exists (b0 :: bs). rewrite lookup_insert_eq. repeat split; try done.
      rewrite <- Eb. unfold uint256_Bytes. rewrite beBytes_value; [cbn; lia|].
      change (256 ^ Z.of_nat 32) with (2 ^ 256). exact Hv.
    + intros k Hk. by apply lookup_insert_ne.
Qed.

(** A witness for X20: the value
    1 is written over 0 into an empty store. *)
Lemma WriteAccountStorage_map_store_witness :
  let w := mkPlainStateWriter (WB := mapWriterBackend) (mkMapDB ∅ ∅ ∅ ∅) false 0 in
  let r := WriteAccountStorage w (replicate 20 0) 1 (hashKey 0) 0 1 in
  let ck := PlainGenerateCompositeStorageKey (replicate 20 0) 1 (hashKey 0) in
  snd r = None /\
  (1 = 0 -> plainState (db (fst r)) !! ck = None) /\
  (1 <> 0 ->
   exists b, plainState (db (fst r)) !! ck = Some b /\ b <> [] /\ beValue b = 1) /\
  (forall k, k <> ck -> plainState (db (fst r)) !! k = (∅ : gmap bytes bytes) !! k) /\
  code (db (fst r)) = ∅ /\
  plainContractCode (db (fst r)) = ∅ /\
  incarnationMap (db (fst r)) = ∅.
Proof.
  apply (WriteAccountStorage_map_store (mkMapDB ∅ ∅ ∅ ∅) 0 (replicate 20 0) 1
           (hashKey 0) 0 1); lia.
Defined.

Section AccountWriterCalls.
Context {WB : WriterBackend} {AWB : AccountWriterBackend}.

(** X21.  [UpdateAccountCode], once the change is recorded, stores the code
    under its hash and then the hash under the storage prefix of the
    account and incarnation: its result is that of the second [Put] made on
    the database the first [Put] left, unless the first [Put] returns an
    [error]; then the second is not made and that [error] is returned with
    the database the first [Put] left. *)
Theorem UpdateAccountCode_puts (w : PlainStateWriter) (address : bytes)
    (incarnation : Z) (codeHash code' : bytes) :
  snd (csw_UpdateAccountCode (csw w) address incarnation codeHash code') = None ->
  let r := UpdateAccountCode w address incarnation codeHash code' in
  let first := db_Put (db w) CodeBucket codeHash code' in
  match snd first with
  | Some e => db (fst r) = fst first /\ snd r = Some e
  | None =>
      (db (fst r), snd r)
      = db_Put (fst first) PlainContractCodeBucket
          (PlainGenerateStoragePrefix address incarnation) codeHash
  end.
Proof.
  cbn zeta. unfold UpdateAccountCode.
  destruct (csw_UpdateAccountCode _ _ _ _ _) as [c o]. cbn [snd]. intros ->.
  cbn [withCsw db csw blockNumber].
  destruct (db_Put (db w) CodeBucket codeHash code') as [d1 [e|]]; cbn [fst snd withDb db].
  - done.
  - by destruct (db_Put d1 PlainContractCodeBucket _ codeHash) as [d2 o].
Qed.

(** X22.  [DeleteAccount], once the change is recorded, deletes the account
    from PlainState and, only when the incarnation of the original account
    is not zero, records it under the account in the incarnation map; on an
    [error] of the [Delete] nothing is recorded, and with a zero
    incarnation the incarnation map is not written. *)
Theorem DeleteAccount_calls (w : PlainStateWriter) (address : bytes)
    (original : Account) :
  snd (csw_DeleteAccount (csw w) address original) = None ->
  let r := DeleteAccount w address original in
  let deleted := db_Delete (db w) PlainStateBucket address in
  match snd deleted with
  | Some e => db (fst r) = fst deleted /\ snd r = Some e
  | None =>
      if 0 <? Incarnation original
      then (db (fst r), snd r)
           = db_Put (fst deleted) IncarnationMapBucket address
               (be64 (Incarnation original))
      else db (fst r) = fst deleted /\ snd r = None
  end.
Proof.
  cbn zeta. unfold DeleteAccount.
  destruct (csw_DeleteAccount _ _ _) as [c o]. cbn [snd]. intros ->.
  cbn [withCsw db csw blockNumber].
  destruct (db_Delete (db w) PlainStateBucket address) as [d1 [e|]];
    cbn [fst snd withDb db]; [done|].
  destruct (0 <? Incarnation original); [|done].
  by destruct (db_Put d1 IncarnationMapBucket address _) as [d2 [e|]].
Qed.

End AccountWriterCalls.

Lemma compositeKey_not_account (address : bytes) (incarnation : Z) (key : bytes) :
  PlainGenerateCompositeStorageKey address incarnation key <> address.
Proof.
  unfold PlainGenerateCompositeStorageKey. intros E.
  apply (f_equal length) in E. rewrite !length_app in E. cbn in E. lia.
Qed.

(** X23.  [DeleteAccount] removes the account and leaves its storage: on
    the map store, after a storage slot of an account has been written
    with a non-zero value and the account is deleted, PlainState holds no
    entry for the account and still holds the slot under its composite
    key. *)
Theorem DeleteAccount_keeps_storage (d : MapDB) (bn : Z) (address : bytes)
    (incarnation : Z) (key : bytes) (original value' : Z) (acc : Account) :
  0 < value' < 2 ^ 256 -> original <> value' ->
  let w0 := mkPlainStateWriter (WB := mapWriterBackend) d false bn in
  let w1 := fst (WriteAccountStorage w0 address incarnation key original value') in
  let r := DeleteAccount (AWB := mapAccountWriterBackend) w1 address acc in
  snd r = None /\
  plainState (db (fst r)) !! address = None /\
  plainState (db (fst r)) !! PlainGenerateCompositeStorageKey address incarnation key
  = Some (uint256_Bytes value').
Proof.
  intros Hv Hne. cbn zeta. unfold WriteAccountStorage.
  cbn [csw_WriteAccountStorage mapWriterBackend csw db blockNumber].
  destruct (Z.eqb_spec original value'); [done|].
  pose proof (uint256_Bytes_nil value') as Hnil.
  destruct (uint256_Bytes value') as [|b0 bs] eqn:Eb.
  { destruct Hnil as [Hn _]. specialize (Hn eq_refl). lia. }
  unfold len. cbn [length].
  destruct (Z.eqb_spec (Z.of_nat (S (length bs))) 0); [lia|].
  unfold DeleteAccount.
  cbn [db_Put db_Delete mapWriterBackend mapAccountWriterBackend csw_DeleteAccount
       mapCsw mapPut mapDelete fst snd db csw blockNumber withCsw withDb
       plainState code plainContractCode incarnationMap].
  destruct (0 <? Incarnation acc);
    cbn [fst snd db withDb withCsw csw blockNumber plainState code plainContractCode
         incarnationMap].
  all: repeat split; try done.
  all: try apply lookup_delete_eq.
  all: rewrite lookup_delete_ne by (apply not_eq_sym, compositeKey_not_account);
       apply lookup_insert_eq.
Qed.

Lemma DeleteAccount_keeps_storage_witness :
  let w0 := mkPlainStateWriter (WB := mapWriterBackend) (mkMapDB ∅ ∅ ∅ ∅) false 0 in
  let w1 := fst (WriteAccountStorage w0 (replicate 20 0) 1 (hashKey 0) 0 1) in
  let r := DeleteAccount (AWB := mapAccountWriterBackend) w1 (replicate 20 0)
             (mkAccount true 1 0 (replicate 32 0) (replicate 32 0) 1) in
  snd r = None /\
  plainState (db (fst r)) !! replicate 20 0 = None /\
  plainState (db (fst r)) !! PlainGenerateCompositeStorageKey (replicate 20 0) 1 (hashKey 0)
  = Some (uint256_Bytes 1).
Proof.
  apply (DeleteAccount_keeps_storage (mkMapDB ∅ ∅ ∅ ∅) 0 (replicate 20 0) 1
           (hashKey 0) 0 1 (mkAccount true 1 0 (replicate 32 0) (replicate 32 0) 1)); lia.
Defined.

(** Witnesses for X21 and X22: the map store with a change-set writer that
    succeeds. *)
Lemma UpdateAccountCode_puts_witness :
  let w := mkPlainStateWriter (WB := mapWriterBackend) (mkMapDB ∅ ∅ ∅ ∅) false 0 in
  let r := UpdateAccountCode (AWB := mapAccountWriterBackend) w (replicate 20 0) 1
             (hashKey 7) [96; 0] in
  let first := db_Put (db w) CodeBucket (hashKey 7) [96; 0] in
  match snd first with
  | Some e => db (fst r) = fst first /\ snd r = Some e
  | None =>
      (db (fst r), snd r)
      = db_Put (fst first) PlainContractCodeBucket
          (PlainGenerateStoragePrefix (AccountWriterBackend := mapAccountWriterBackend)
             (replicate 20 0) 1)
          (hashKey 7)
  end.
Proof.
  apply (UpdateAccountCode_puts (AWB := mapAccountWriterBackend)
           (mkPlainStateWriter (WB := mapWriterBackend) (mkMapDB ∅ ∅ ∅ ∅) false 0)
           (replicate 20 0) 1 (hashKey 7) [96; 0]).
  reflexivity.
Defined.

Lemma DeleteAccount_calls_witness :
  let w := mkPlainStateWriter (WB := mapWriterBackend) (mkMapDB ∅ ∅ ∅ ∅) false 0 in
  let original := mkAccount true 1 0 (replicate 32 0) (replicate 32 0) 2 in
  let r := DeleteAccount (AWB := mapAccountWriterBackend) w (replicate 20 0) original in
  let deleted := db_Delete (db w) PlainStateBucket (replicate 20 0) in
  match snd deleted with
  | Some e => db (fst r) = fst deleted /\ snd r = Some e
  | None =>
      if 0 <? Incarnation original
      then (db (fst r), snd r)
           = db_Put (fst deleted) IncarnationMapBucket (replicate 20 0)
               (be64 (Incarnation original))
      else db (fst r) = fst deleted /\ snd r = None
  end.
Proof.
  apply (DeleteAccount_calls (AWB := mapAccountWriterBackend)
           (mkPlainStateWriter (WB := mapWriterBackend) (mkMapDB ∅ ∅ ∅ ∅) false 0)
           (replicate 20 0)
           (mkAccount true 1 0 (replicate 32 0) (replicate 32 0) 2)).
  reflexivity.
Defined.

(** A witness for X17: a database that is not a Bolt one
    given to a new loader. *)
Lemma Reset_store_witness :
  let s := NewFlatDbSubTrieLoader (TB := transcriptBackend false) in
  let s' := fst (Reset DatabaseOther (Some retainNothing) [[]] [0] s) in
  let err := snd (Reset DatabaseOther (Some retainNothing) [[]] [0] s) in
  boltDB s' = boltDB s /\
  (err = None <-> boltDB s <> None) /\
  dbPrefixes s' = [[]] /\
  (err <> None ->
   fixedbytes s' = fixedbytes s /\ masks s' = masks s /\ cutoffs s' = cutoffs s).
Proof.
  apply (Reset_store (TB := transcriptBackend false) DatabaseOther
           (Some retainNothing) [[]] [0] NewFlatDbSubTrieLoader).
  discriminate.
Defined.

(** * [AttachRequestedCode] *)

Section AttachCodeProofs.
Context `{CB : CodeBackend}.

(** X24.  [AttachRequestedCode] handles the requests in order and stops at
    the first [error]: on a list of requests followed by further ones, if
    the first part is handled without an [error] the call goes on with the
    further ones from the tries it has reached, and otherwise its outcome
    is that of the first part alone, whatever the further requests are. *)
Theorem AttachRequestedCode_app (db : Getter) (l1 l2 : list LoadRequestForCode)
    (heap : gmap nat Trie) :
  match AttachRequestedCode db l1 heap with
  | Done _ heap1 =>
      AttachRequestedCode db (l1 ++ l2) heap = AttachRequestedCode db l2 heap1
  | r => AttachRequestedCode db (l1 ++ l2) heap = r
  end.
Proof.
  revert heap. induction l1 as [|req l1 IH]; intros heap; [reflexivity|].
  cbn [AttachRequestedCode app].
  destruct (getter_Get db CodeBucket (lr_codeHash req)) as [code' [e|]]; [reflexivity|].
  unfold bind. destruct (updateRequestedTrie req code' heap) as [[] h1|e h1| |];
    try reflexivity.
  apply IH.
Qed.

Lemma updateRequestedTrie_heap (req : LoadRequestForCode) (code' : option bytes)
    (heap : gmap nat Trie) :
  match updateRequestedTrie req code' heap with
  | Done _ heap' | Failed _ heap' =>
      exists t', heap' = <[lr_t req := t']> heap /\ is_Some (heap !! lr_t req)
  | _ => True
  end.
Proof.
  unfold updateRequestedTrie. destruct (heap !! lr_t req) as [t|] eqn:E; [|done].
  destruct (if lr_bytecode req then _ else _) as [t' [e|]]; eauto.
Qed.

(** X25.  [AttachRequestedCode] changes no trie but those the requests
    point to, and creates none: when it returns, with or without an
    [error], every address that no request names holds the trie it held
    before, and the addresses that hold a trie are the same as before. *)
Theorem AttachRequestedCode_other_tries (db : Getter)
    (requests : list LoadRequestForCode) (heap : gmap nat Trie) :
  match AttachRequestedCode db requests heap with
  | Done _ heap' | Failed _ heap' =>
      (forall i, Forall (fun req => lr_t req <> i) requests -> heap' !! i = heap !! i) /\
      (forall i, is_Some (heap' !! i) <-> is_Some (heap !! i))
  | _ => True
  end.
Proof.
  revert heap. induction requests as [|req requests IH]; intros heap.
  - cbn. split; done.
  - cbn [AttachRequestedCode].
    destruct (getter_Get db CodeBucket (lr_codeHash req)) as [code' [e|]].
    { cbn. split; done. }
    unfold bind. pose proof (updateRequestedTrie_heap req code' heap) as Hu.
    destruct (updateRequestedTrie req code' heap) as [[] h1|e h1| |]; try done.
    + destruct Hu as (t' & -> & Hs). specialize (IH (<[lr_t req := t']> heap)).
      destruct (AttachRequestedCode db requests (<[lr_t req := t']> heap))
        as [[] h2|e h2| |]; try done.
      * destruct IH as [IH1 IH2]. split.
        -- intros i Hi. inversion Hi as [|? ? Hne Hrest]; subst.
           rewrite IH1 by done. by apply lookup_insert_ne.
        -- intros i. rewrite IH2. destruct (decide (lr_t req = i)) as [<-|Hne].
           ++ rewrite lookup_insert_eq. split; [done | by eexists].
           ++ by rewrite lookup_insert_ne.
      * destruct IH as [IH1 IH2]. split.
        -- intros i Hi. inversion Hi as [|? ? Hne Hrest]; subst.
           rewrite IH1 by done. by apply lookup_insert_ne.
        -- intros i. rewrite IH2. destruct (decide (lr_t req = i)) as [<-|Hne].
           ++ rewrite lookup_insert_eq. split; [done | by eexists].
           ++ by rewrite lookup_insert_ne.
    + destruct Hu as (t' & -> & Hs). split.
      * intros i Hi. inversion Hi as [|? ? Hne Hrest]; subst.
        by apply lookup_insert_ne.
      * intros i. destruct (decide (lr_t req = i)) as [<-|Hne].
        -- rewrite lookup_insert_eq. split; [done | by eexists].
        -- by rewrite lookup_insert_ne.
Qed.

End AttachCodeProofs.

(** X26.  On the map store, with a change-set writer that succeeds,
    [UpdateAccountData] stores the encoding of the new account under the
    account (the original account is not written), and a [DeleteAccount]
    after it takes that entry away again: PlainState is then the store
    without an entry for the account, the code buckets are untouched, and
    the incarnation map holds the big-endian incarnation of the deleted
    account when it is positive and is untouched otherwise. *)
Theorem UpdateAccountData_then_DeleteAccount (d : MapDB) (bn : Z) (address : bytes)
    (original account deleted : Account) :
  let w0 := mkPlainStateWriter (WB := mapWriterBackend) d false bn in
  let r1 := UpdateAccountData (AWB := mapAccountWriterBackend) w0 address original account in
  let r2 := DeleteAccount (AWB := mapAccountWriterBackend) (fst r1) address deleted in
  snd r1 = None /\
  plainState (db (fst r1)) !! address = Some (toyEncodeForStorage account) /\
  (forall k, k <> address -> plainState (db (fst r1)) !! k = plainState d !! k) /\
  snd r2 = None /\
  plainState (db (fst r2)) = delete address (plainState d) /\
  code (db (fst r2)) = code d /\
  plainContractCode (db (fst r2)) = plainContractCode d /\
  incarnationMap (db (fst r2))
  = (if 0 <? Incarnation deleted
     then <[address := be64 (Incarnation deleted)]> (incarnationMap d)
     else incarnationMap d).
Proof.
  cbn zeta. unfold UpdateAccountData, DeleteAccount.
  cbn [db_Put db_Delete mapWriterBackend mapAccountWriterBackend csw_UpdateAccountData
       csw_DeleteAccount EncodeForStorage mapCsw mapPut mapDelete fst snd db csw
       blockNumber withCsw withDb plainState code plainContractCode incarnationMap].
  destruct (0 <? Incarnation deleted);
    cbn [fst snd db withDb withCsw csw blockNumber plainState code plainContractCode
         incarnationMap].
  all: repeat split; try done.
  all: try apply lookup_insert_eq.
  all: try (intros k Hk; by apply lookup_insert_ne).
  all: apply delete_insert_eq.
Qed.

(** * The groups after a root *)

Lemma trimZeros_nil_iff (g : list Z) : trimZeros g = [] <-> Forall (fun x => x = 0) g.
Proof.
  induction g as [|x g IH]; cbn [trimZeros]; [by split|].
  destruct (trimZeros g) as [|y t] eqn:E.
  - destruct (Z.eqb_spec x 0) as [->|Hne].
    + split; [|done]. intros _. constructor; [done|]. by apply IH.
    + split; [done|]. intros H. inversion H; subst. done.
  - split; [done|]. intros H. inversion H as [|? ? _ Hg]; subst.
    apply IH in Hg. discriminate.
Qed.

(** X29.  The loop that drops the trailing zero groups (in [finaliseRoot]
    and [finaliseStorageRoot]) drops exactly them: the groups are what is
    kept followed by zeros only, and what is kept does not end in a zero. *)
Theorem trimZeros_drops_trailing_zeros (g : list Z) :
  (exists zeros, g = trimZeros g ++ zeros /\ Forall (fun x => x = 0) zeros) /\
  last (trimZeros g) <> Some 0.
Proof.
  induction g as [|x g [(zeros & Hg & Hz) Hl]]; cbn [trimZeros].
  - split; [by exists []|done].
  - destruct (trimZeros g) as [|y t] eqn:E.
    + destruct (Z.eqb_spec x 0) as [->|Hne].
      * split; [|done]. exists (0 :: g). split; [done|].
        constructor; [done|]. apply trimZeros_nil_iff, E.
      * split.
        -- exists zeros. cbn in Hg. by rewrite Hg at 1.
        -- cbn. congruence.
    + split.
      * exists zeros. cbn [app]. by rewrite Hg at 1.
      * by rewrite last_cons_cons.
Qed.

